(** * helpfultests: the style-marker codec, the captured I/O session, the
      output comparator and the assertion wrappers, embedded from the Python
      sources and checked against the specification; then the other
      assertions, the context managers and the node lookup, with the
      properties the code itself shows.

    Python strings are sequences of Unicode code points: a character is a [Z]
    (its [ord]), a string is a [list Z].  String literals of the sources are
    written with [s2l], which maps an ASCII literal to its code points. *)

From Stdlib Require Import ZArith QArith List Ascii String Bool Lia ZifyBool.
From stdpp Require Import base list strings gmap sorting.
Import ListNotations.

Local Open Scope Z_scope.
Local Open Scope list_scope.

(** ** Python strings *)

Abbreviation str := (list Z).

Definition s2l (s : string) : str :=
  map (fun a => Z.of_nat (nat_of_ascii a)) (list_ascii_of_string s).
Global Arguments s2l : simpl never.

(** The comparison [x == y] of two Python strings. *)
Definition str_eqb (x y : str) : bool := bool_decide (x = y).
Global Arguments str_eqb : simpl never.

Definition NL : Z := 10.
Definition DQUOTE : Z := 34.

(** The slice [xs[i:j]] for non-negative bounds. *)
Definition slice {A} (xs : list A) (i j : nat) : list A := take (j - i) (drop i xs).

(** ** Style markers ([_testcase_assert_add.py]) *)

Module Markers.

Definition WORD_JOINER : Z := 0x2060.        (* bold *)
Definition DOUBLE_LOW_LINE : Z := 0x0333.    (* underline *)
Definition TILDE_OVERLAY : Z := 0x0334.      (* strikethrough *)

(** The loop body of [__bold]: digits and letters are moved to the
    mathematical sans-serif bold block, other characters pass through. *)
Definition bold_char (x : Z) : Z :=
  if (48 <=? x) && (x <=? 57) then x + 120812 - 48
  else if (65 <=? x) && (x <=? 90) then x + 120276 - 65
  else if (97 <=? x) && (x <=? 122) then x + 120302 - 97
  else x.

(** [__bold(string, charcode)] *)
Definition bold_with (charcode : Z) (string : str) : str :=
  fold_left (fun output ch => output ++ [charcode] ++ [bold_char ch]) string [].

Definition bold : str -> str := bold_with WORD_JOINER.

(** [__bold_substr(string, start, end)] *)
Definition bold_substr (string : str) (start end_ : nat) : str :=
  take start string ++ bold (slice string start end_) ++ drop end_ string.

(** [__strikethrough(text, charcode)] and [__underline(text, charcode)]:
    [''.join(charcode + ch for ch in text)]. *)
Definition strikethrough_with (charcode : Z) (text : str) : str :=
  concat (map (fun ch => [charcode; ch]) text).

Definition underline_with (charcode : Z) (text : str) : str :=
  concat (map (fun ch => [charcode; ch]) text).

Definition strikethrough : str -> str := strikethrough_with TILDE_OVERLAY.
Definition underline : str -> str := underline_with DOUBLE_LOW_LINE.

End Markers.

(** ** The HTML converter ([__main__.py]) *)

Module Html.
Import Markers.

(** [ch_map] *)
Definition ch_map (c : Z) : option str :=
  if c =? 10 then Some (s2l "<br>")
  else if c =? 60 then Some (s2l "&lt;")
  else if c =? 62 then Some (s2l "&gt;")
  else if c =? 38 then Some (s2l "&amp;")
  else if c =? 34 then Some (s2l "&quot;")
  else if c =? 39 then Some (s2l "&apos;")
  else None.

Definition ins_ : str :=
  s2l "<ins style=" ++ [DQUOTE]
  ++ s2l "text-decoration:underline;background-color:#d4fcbc;" ++ [DQUOTE] ++ s2l ">".
Definition del_ : str :=
  s2l "<del style=" ++ [DQUOTE]
  ++ s2l "text-decoration:line-through;background-color:#fbb;color:#555;"
  ++ [DQUOTE] ++ s2l ">".
Definition b_ : str :=
  s2l "<b style=" ++ [DQUOTE]
  ++ s2l "font-style:italic;font-weight:bolder;color:green;" ++ [DQUOTE] ++ s2l ">".

(** [__styling(ch, last_ch, marker, current, start, end)]; [ch] is the
    text to emit for the current character (possibly several characters,
    possibly empty), [last_ch] the previous raw character or [''] . *)
Definition styling (ch last_ch marker : str) (current : bool) (start end_ : str)
  : str * bool :=
  if str_eqb ch marker then ((if current then [] else start), true)
  else if current && negb (str_eqb last_ch marker) then (end_ ++ ch, false)
  else (ch, current).

(** The ``de-bold the character'' branch. *)
Definition debold (x : Z) : Z :=
  if (120812 <=? x) && (x <? 120812 + 10) then x - 120812 + 48
  else if (120276 <=? x) && (x <? 120276 + 26) then x - 120276 + 65
  else if (120302 <=? x) && (x <? 120302 + 26) then x - 120302 + 97
  else x.

(** The local variables of [__convert_to_html] that live across loop
    iterations. *)
Record conv := Conv {
  output : str;
  bolding : bool;
  underlining : bool;
  strikethrough_on : bool;
  last_ch : str
}.

Definition conv_init : conv := Conv (s2l "<pre>") false false false [].

(** One iteration of [for raw_ch in text]. *)
Definition conv_step (st : conv) (raw_ch : Z) : conv :=
  let ch := match ch_map raw_ch with
            | Some r => r
            | None => [debold raw_ch]
            end in
  let '(ch, bolding') :=
    styling ch (last_ch st) [WORD_JOINER] (bolding st) b_ (s2l "</b>") in
  let '(ch, underlining') :=
    styling ch (last_ch st) [DOUBLE_LOW_LINE] (underlining st) ins_ (s2l "</ins>") in
  let '(ch, strikethrough') :=
    styling ch (last_ch st) [TILDE_OVERLAY] (strikethrough_on st) del_ (s2l "</del>") in
  Conv (output st ++ ch) bolding' underlining' strikethrough' [raw_ch].

Definition conv_loop (st : conv) (text : str) : conv := fold_left conv_step text st.

(** The statements after the loop. *)
Definition conv_finish (st : conv) : str :=
  let output := output st in
  let output := if bolding st then output ++ s2l "</b>" else output in
  let output := if underlining st then output ++ s2l "</ins>" else output in
  let output := if strikethrough_on st then output ++ s2l "</del>" else output in
  output ++ s2l "</pre>".

Definition convert_to_html (text : str) : str :=
  conv_finish (conv_loop conv_init text).

End Html.

(** ** Styled documents: the producer side of the codec

    A document is a sequence of segments, each plain or carrying one of the
    three styles; [encode] marks the styled ones with the helpers of
    [_testcase_assert_add.py], [render] is the HTML the decoder is expected
    to give back. *)

Module Styled.
Import Markers Html.

Inductive style := Bold | Underline | Strikethrough.

Definition segment : Type := option style * str.

Definition encode_segment (sg : segment) : str :=
  match sg with
  | (None, t) => t
  | (Some Bold, t) => bold t
  | (Some Underline, t) => underline t
  | (Some Strikethrough, t) => strikethrough t
  end.

Definition encode (segs : list segment) : str := concat (map encode_segment segs).

(** The plain text a document was built from. *)
Definition plain_of (segs : list segment) : str := concat (map snd segs).

Definition is_marker (c : Z) : bool :=
  (c =? WORD_JOINER) || (c =? DOUBLE_LOW_LINE) || (c =? TILDE_OVERLAY).

Definition marker_free (t : str) : bool := forallb (fun c => negb (is_marker c)) t.

(** Spans are well formed when their text holds no marker and no two
    styled spans touch: [adjacent] tells whether the text so far ends in a
    styled span.  Empty segments do not separate anything. *)
Fixpoint well_formed_from (adjacent : bool) (segs : list segment) : bool :=
  match segs with
  | [] => true
  | (_, []) :: rest => well_formed_from adjacent rest
  | (None, t) :: rest => marker_free t && well_formed_from false rest
  | (Some _, t) :: rest => marker_free t && negb adjacent && well_formed_from true rest
  end.

Definition well_formed : list segment -> bool := well_formed_from false.

(** The fixed character-escaping map: the entries of [ch_map], and the
    bold code points mapped back to ASCII. *)
Definition escape_char (c : Z) : str :=
  match ch_map c with
  | Some r => r
  | None => [debold c]
  end.

Definition escape (t : str) : str := concat (map escape_char t).

Definition open_tag (s : style) : str :=
  match s with Bold => b_ | Underline => ins_ | Strikethrough => del_ end.

Definition close_tag (s : style) : str :=
  match s with
  | Bold => s2l "</b>"
  | Underline => s2l "</ins>"
  | Strikethrough => s2l "</del>"
  end.

Definition render_segment (sg : segment) : str :=
  match sg with
  | (None, t) => escape t
  | (Some s, []) => []
  | (Some s, t) => open_tag s ++ escape t ++ close_tag s
  end.

Definition render (segs : list segment) : str :=
  s2l "<pre>" ++ concat (map render_segment segs) ++ s2l "</pre>".

(** *** States of the decoder's scan

    The flags of [__convert_to_html] with at most one style active, the
    closing tag such a state still owes, and a span as the helpers mark
    it. *)

Definition marker_of (s : style) : Z :=
  match s with
  | Bold => WORD_JOINER
  | Underline => DOUBLE_LOW_LINE
  | Strikethrough => TILDE_OVERLAY
  end.

Definition is_style (s : style) (o : option style) : bool :=
  match o, s with
  | Some Bold, Bold | Some Underline, Underline | Some Strikethrough, Strikethrough => true
  | _, _ => false
  end.

Definition st_of (out : str) (o : option style) (l : str) : conv :=
  Conv out (is_style Bold o) (is_style Underline o) (is_style Strikethrough o) l.

Definition pending (o : option style) : str :=
  match o with Some s => close_tag s | None => [] end.

Definition nonmarker_last (l : str) : Prop := exists x, l = [x] /\ is_marker x = false.

Definition tr (s : style) (c : Z) : Z :=
  match s with Bold => bold_char c | _ => c end.

Definition marked (s : style) (t : str) : str :=
  concat (map (fun ch => [marker_of s; tr s ch]) t).

End Styled.

(** ** Python string methods used by the sources *)

Module PyStr.

(** [str.isspace] on one character (CPython's [Py_UNICODE_ISSPACE]). *)
Definition isspace (c : Z) : bool :=
  ((9 <=? c) && (c <=? 13)) || ((28 <=? c) && (c <=? 32))
  || (c =? 0x85) || (c =? 0xA0) || (c =? 0x1680)
  || ((0x2000 <=? c) && (c <=? 0x200A))
  || (c =? 0x2028) || (c =? 0x2029) || (c =? 0x202F) || (c =? 0x205F) || (c =? 0x3000).

(** [s.rstrip(chars)] for a set of characters given as a predicate. *)
Fixpoint rstrip_by (p : Z -> bool) (s : str) : str :=
  match s with
  | [] => []
  | c :: s' =>
      match rstrip_by p s' with
      | [] => if p c then [] else [c]
      | r => c :: r
      end
  end.

Fixpoint lstrip_by (p : Z -> bool) (s : str) : str :=
  match s with
  | [] => []
  | c :: s' => if p c then lstrip_by p s' else s
  end.

(** [s.rstrip()], [s.rstrip('\n')], [s.strip()] *)
Definition rstrip : str -> str := rstrip_by isspace.
Definition rstrip_nl : str -> str := rstrip_by (Z.eqb NL).
Definition strip (s : str) : str := lstrip_by isspace (rstrip s).

(** [s.split(sep)] for a one-character separator: never empty. *)
Fixpoint split (sep : Z) (s : str) : list str :=
  match s with
  | [] => [[]]
  | c :: s' =>
      if c =? sep then [] :: split sep s'
      else match split sep s' with
           | [] => [[c]]
           | l :: ls => (c :: l) :: ls
           end
  end.

(** [s.split()]: the maximal runs of non-whitespace characters. *)
Fixpoint split_ws_from (cur : str) (s : str) : list str :=
  match s with
  | [] => match cur with [] => [] | _ => [cur] end
  | c :: s' =>
      if isspace c
      then match cur with [] => split_ws_from [] s' | _ => cur :: split_ws_from [] s' end
      else split_ws_from (cur ++ [c]) s'
  end.

Definition split_ws : str -> list str := split_ws_from [].

(** [sep.join(parts)] *)
Fixpoint join (sep : str) (parts : list str) : str :=
  match parts with
  | [] => []
  | [p] => p
  | p :: ps => p ++ sep ++ join sep ps
  end.

(** The line boundaries of [str.splitlines]. *)
Definition is_linebreak (c : Z) : bool :=
  ((10 <=? c) && (c <=? 13)) || ((28 <=? c) && (c <=? 30))
  || (c =? 0x85) || (c =? 0x2028) || (c =? 0x2029).

(** [s.splitlines()]: [after_cr] remembers a carriage return, so that the
    line feed of a CR LF pair does not open a second line. *)
Fixpoint splitlines_from (cur : str) (after_cr : bool) (s : str) : list str :=
  match s with
  | [] => match cur with [] => [] | _ => [cur] end
  | c :: s' =>
      if after_cr && (c =? 10) then splitlines_from cur false s'
      else if is_linebreak c then cur :: splitlines_from [] (c =? 13) s'
      else splitlines_from (cur ++ [c]) false s'
  end.

Definition splitlines : str -> list str := splitlines_from [] false.

Definition contains (c : Z) (s : str) : bool := existsb (Z.eqb c) s.

(** The last element of a list that is known to have one ([xs[-1]]). *)
Definition last_line (ls : list str) : str := List.last ls [].

End PyStr.

(** ** [_utils.py] *)

Module Utils.
Import PyStr.

(** [_indent_lines(string, spaces)] *)
Definition indent_lines (string : str) (spaces : nat) : str :=
  match string with
  | [] => string
  | _ =>
      let spaces := repeat 32 spaces in
      spaces ++ join ([NL] ++ spaces) (splitlines string)
  end.

(** [_indent_lines_maybe(string, spaces, no)] *)
Definition indent_lines_maybe (string : str) (spaces : nat) (no : bool) : str :=
  if no then string else [NL] ++ indent_lines string spaces.

End Utils.

(** ** [io.StringIO]: a text buffer and a stream position *)

Module StringIO.
Local Open Scope nat_scope.

Record t := Make { value : str; pos : nat }.

(** [io.StringIO(initial)] starts at position 0. *)
Definition open (initial : str) : t := Make initial 0.

Definition getvalue (f : t) : str := value f.
Definition tell (f : t) : nat := pos f.

(** A [size] argument that is absent, [None] or negative means ``all''. *)
Definition limit (size : option Z) (s : str) : str :=
  match size with
  | Some n => if (n <? 0)%Z then s else take (Z.to_nat n) s
  | None => s
  end.

(** [f.read(size)] *)
Definition read (f : t) (size : option Z) : str * t :=
  let data := limit size (drop (pos f) (value f)) in
  (data, Make (value f) (pos f + length data)).

(** The text up to and including the first newline. *)
Fixpoint first_line (s : str) : str :=
  match s with
  | [] => []
  | c :: s' => if (c =? NL)%Z then [c] else c :: first_line s'
  end.

(** [f.readline(size)] *)
Definition readline (f : t) (size : option Z) : str * t :=
  let data := limit size (first_line (drop (pos f) (value f))) in
  (data, Make (value f) (pos f + length data)).

(** [f.write(s)]: a non-empty [s] overwrites from the position on, after
    padding with NUL up to it; an empty one changes nothing. *)
Definition write (f : t) (s : str) : t :=
  match s with
  | [] => f
  | _ =>
      let padded := value f ++ repeat 0%Z (pos f - length (value f)) in
      Make (take (pos f) padded ++ s ++ drop (pos f + length s) (value f))
           (pos f + length s)
  end.

End StringIO.

(** ** The captured I/O session ([__check_input])

    The function under test is a terminating program over the operations it
    performs on the redirected streams.  [Session.prog] has the three that
    go through the helper's own code: writing to [sys.stdout], and [read]
    and [readline] on [sys.stdin]; [Streams.prog] below adds the seeks, the
    truncation, the iteration and [readlines()].  The continuations receive
    what the call returned, so a program may branch on it, and may end by
    returning or by raising. *)

Module Session.
Import PyStr Utils.
Local Open Scope nat_scope.

Inductive exn :=
| EOFError
| OtherException (name : str).

Inductive prog (R : Type) : Type :=
| Ret (retval : R)
| Raise (e : exn)
| Write (s : str) (k : prog R)
| Read (size : option Z) (k : str -> prog R)
| Readline (size : option Z) (k : str -> prog R).
Arguments Ret {R}.
Arguments Raise {R}.
Arguments Write {R}.
Arguments Read {R}.
Arguments Readline {R}.

(** The builtin [print(s)]. *)
Definition print {R} (s : str) (k : prog R) : prog R := Write (s ++ [NL]) k.

(** [s[:-1]] when [s] ends with a newline. *)
Definition chomp (s : str) : str :=
  if (List.last s 0 =? NL)%Z then removelast s else s.

(** The builtin [input(prompt)] on a redirected [sys.stdin]: the prompt is
    written, a line is read with [readline()], an empty result raises
    [EOFError], and the trailing newline is removed. *)
Definition input {R} (prompt : str) (k : str -> prog R) : prog R :=
  Write prompt (Readline None (fun data =>
    match data with
    | [] => Raise EOFError
    | _ => k (chomp data)
    end)).

(** The local variables of [__check_input] the wrapped stream methods
    close over. *)
Record session := Session {
  out : StringIO.t;
  in_ : StringIO.t;
  inpt_ranges : list (nat * nat)
}.

(** The wrapper [_read] installed as [in_.read]. *)
Definition _read (size : option Z) (ss : session) : str * session :=
  let '(data, in') := StringIO.read (in_ ss) size in
  let ranges := inpt_ranges ss ++ [(length (StringIO.getvalue (out ss)), length data)] in
  (data, Session (StringIO.write (out ss) data) in' ranges).

(** The wrapper [_readline] installed as [in_.readline]. *)
Definition _readline (size : option Z) (ss : session) : str * session :=
  let '(data, in') := StringIO.readline (in_ ss) size in
  let ranges := inpt_ranges ss ++ [(length (StringIO.getvalue (out ss)), length data)] in
  (data, Session (StringIO.write (out ss) data) in' ranges).

Inductive outcome (R : Type) : Type :=
| Returned (retval : R)
| Raised (e : exn).
Arguments Returned {R}.
Arguments Raised {R}.

(** The call of [func] under [redirect_stdout(out)] and
    [redirect_stdin(in_)]. *)
Fixpoint run {R} (p : prog R) (ss : session) : outcome R * session :=
  match p with
  | Ret retval => (Returned retval, ss)
  | Raise e => (Raised e, ss)
  | Write s k => run k (Session (StringIO.write (out ss) s) (in_ ss) (inpt_ranges ss))
  | Read size k => let '(data, ss') := _read size ss in run (k data) ss'
  | Readline size k => let '(data, ss') := _readline size ss in run (k data) ss'
  end.

(** The data the wrapped [read] and [readline] calls returned to the
    program, in call order. *)
Fixpoint reads {R} (p : prog R) (ss : session) : list str :=
  match p with
  | Ret _ | Raise _ => []
  | Write s k => reads k (Session (StringIO.write (out ss) s) (in_ ss) (inpt_ranges ss))
  | Read size k => let '(data, ss') := _read size ss in data :: reads (k data) ss'
  | Readline size k => let '(data, ss') := _readline size ss in data :: reads (k data) ss'
  end.

(** The state set up by ``Prepare the simulated standard input and
    output''. *)
Definition start (inpt : str) : session :=
  Session (StringIO.open []) (StringIO.open inpt) [].

(** What a call of a test-case method gives: its value, an assertion
    failure carrying [helpful_msg], or another exception passing through. *)
Inductive result (A : Type) : Type :=
| Pass (a : A)
| Failure (helpful_msg : str)
| Error (e : exn).
Arguments Pass {A}.
Arguments Failure {A}.
Arguments Error {A}.

Definition EOF_TEXT : str :=
  s2l "You read all information given and then kept trying to get more input.".
Definition NO_INPUT_TEXT : str := s2l "You did not read any input at all.".
Definition LEFTOVER_TEXT : str :=
  s2l "Not all of that input was used, you stopped reading input once you got:" ++ [NL].

(** The opening of the message; [call] is [__call_to_str(func, args, kwargs)]. *)
Definition input_msg (call inpt : str) : str :=
  s2l "The function call was: " ++ call ++ [NL]
  ++ s2l "The 'user' typed:" ++ [NL] ++ indent_lines inpt 4 ++ [NL].

(** [inpt[:-len(rem)]] for a non-empty [rem]. *)
Definition before_rem (inpt rem : str) : str := take (length inpt - length rem) inpt.

(** [__check_input(self, func, inpt, args, kwargs)] *)
Definition check_input {R} (call : str) (func : prog R) (inpt : str)
  : result (str * R * str * list (nat * nat)) :=
  let msg := input_msg call inpt in
  match run func (start inpt) with
  | (Raised EOFError, _) => Failure (msg ++ EOF_TEXT)
  | (Raised e, _) => Error e
  | (Returned retval, ss) =>
      if StringIO.tell (in_ ss) =? 0 then Failure (msg ++ NO_INPUT_TEXT)
      else
        let '(rem, ss) := _read None ss in
        match rem with
        | _ :: _ =>
            Failure (msg ++ LEFTOVER_TEXT
                     ++ indent_lines (last_line (split NL (rstrip_nl (before_rem inpt rem)))) 4)
        | [] => Pass (msg, retval, rstrip (StringIO.getvalue (out ss)), inpt_ranges ss)
        end
  end.

(** The ranges are in order and disjoint: each one ends before the next
    begins. *)
Fixpoint ordered_disjoint (ranges : list (nat * nat)) : Prop :=
  match ranges with
  | [] => True
  | (start, len) :: rest =>
      Forall (fun r => start + len <= fst r) rest ∧ ordered_disjoint rest
  end.

(** What holds of the session at every point of a run on input [inpt]: the
    sink is written at its end, the source holds [inpt] and its position is
    inside it, and the ranges are in order, disjoint and inside the sink. *)
Record inv (inpt : str) (ss : session) : Prop := Inv {
  inv_out_pos : StringIO.pos (out ss) = length (StringIO.value (out ss));
  inv_in_value : StringIO.value (in_ ss) = inpt;
  inv_in_pos : StringIO.pos (in_ ss) <= length inpt;
  inv_ordered : ordered_disjoint (inpt_ranges ss);
  inv_inside : Forall (fun r => fst r + snd r <= length (StringIO.value (out ss)))
                 (inpt_ranges ss)
}.

(** The verdict of the input checks in terms of what the run did: how it
    ended, and how many characters of the input it consumed. *)
Definition input_verdict {R} (call : str) (func : prog R) (inpt : str)
  : result (str * R * str * list (nat * nat)) :=
  let msg := input_msg call inpt in
  let ss := snd (run func (start inpt)) in
  let consumed := StringIO.tell (in_ ss) in
  match fst (run func (start inpt)) with
  | Raised EOFError => Failure (msg ++ EOF_TEXT)
  | Raised e => Error e
  | Returned retval =>
      if consumed =? 0 then Failure (msg ++ NO_INPUT_TEXT)
      else if consumed <? length inpt then
        Failure (msg ++ LEFTOVER_TEXT
                 ++ indent_lines (last_line (split NL (rstrip_nl (take consumed inpt)))) 4)
      else Pass (msg, retval, rstrip (StringIO.getvalue (out ss)),
                 inpt_ranges ss ++ [(length (StringIO.getvalue (out ss)), 0)])
  end.

(** The function of the read-line scenario: one [readline()], then one
    write. *)
Definition read_then_greet {R} (retval : R) : prog R :=
  Readline None (fun _ => Write (s2l "You entered 5" ++ [NL]) (Ret retval)).

End Session.

(** ** The diff renderers ([__diff_line], [__diff_lines])

    [difflib.SequenceMatcher] is the standard library's: the sources use its
    [ratio()] and [get_opcodes()], which are taken here as an interface.  A
    ratio is a finite float, compared exactly, hence a rational. *)

Module Diff.
Import Markers.

Inductive tag := equal | delete | insert | replace.

(** One element of [get_opcodes()]: [(tag, i1, i2, j1, j2)]. *)
Record opcode := Opcode { op_tag : tag; i1 : nat; i2 : nat; j1 : nat; j2 : nat }.

Record SequenceMatcher (A : Type) := {
  ratio : list A -> list A -> Q;
  get_opcodes : list A -> list A -> list opcode
}.
Arguments ratio {A}.
Arguments get_opcodes {A}.

Definition Qltb (x y : Q) : bool := negb (Qle_bool y x).

Section Renderers.
Context (chars : SequenceMatcher Z) (lines : SequenceMatcher str).

(** [__diff_line(a, b, limit)]; [None] is Python's [None]. *)
Definition diff_line (a b : str) (limit : Q) : option str :=
  if Qltb 0 limit && Qle_bool (ratio chars a b) limit then None
  else Some (fold_left (fun out op =>
    match op_tag op with
    | equal => out ++ slice a (i1 op) (i2 op)
    | delete => out ++ strikethrough (slice a (i1 op) (i2 op))
    | insert => out ++ underline (slice b (j1 op) (j2 op))
    | replace => (out ++ strikethrough (slice a (i1 op) (i2 op)))
                 ++ underline (slice b (j1 op) (j2 op))
    end) (get_opcodes chars a b) []).

(** The body of the [replace] branch of [__diff_lines]: the lines are
    paired by position, and what is left on either side is struck
    through or underlined whole. *)
Definition diff_replace (out : list str) (a b : list str) (op : opcode) : list str :=
  let out := fold_left (fun out '(a_line, b_line) =>
    match diff_line a_line b_line (1 # 2) with
    | None => (out ++ [strikethrough a_line]) ++ [underline b_line]
    | Some diff => out ++ [diff]
    end) (zip (slice a (i1 op) (i2 op)) (slice b (j1 op) (j2 op))) out in
  let out := out ++ map strikethrough (slice a (i1 op + j2 op - j1 op) (i2 op)) in
  out ++ map underline (slice b (j1 op + i2 op - i1 op) (j2 op)).

(** [__diff_lines(a, b)] *)
Definition diff_lines (a b : list str) : list str :=
  fold_left (fun out op =>
    match op_tag op with
    | equal => out ++ slice a (i1 op) (i2 op)
    | delete => out ++ map strikethrough (slice a (i1 op) (i2 op))
    | insert => out ++ map underline (slice b (j1 op) (j2 op))
    | replace => diff_replace out a b op
    end) (get_opcodes lines a b) [].

End Renderers.

(** What [get_opcodes()] gives for two equal sequences of length [n]: one
    [equal] block, or nothing when they are empty. *)
Definition identical_opcodes (n : nat) : list opcode :=
  match n with
  | O => []
  | _ => [Opcode equal 0 n 0 n]
  end.

(** What [difflib] does for a sequence compared with itself: the ratio is
    1.0, and the opcodes are [equal] blocks whose ranges make up the
    sequence. *)
Definition recognises_identical {A} (m : SequenceMatcher A) (a : list A) : Prop :=
  (ratio m a a == 1)%Q
  /\ Forall (fun op => op_tag op = equal) (get_opcodes m a a)
  /\ concat (map (fun op => slice a (i1 op) (i2 op)) (get_opcodes m a a)) = a.

(** The coarsest matcher: it recognises two sequences only when they are
    equal as a whole, and otherwise replaces one by the other. *)
Definition whole_matcher {A} `{EqDecision A} : SequenceMatcher A :=
  {| ratio a b := if decide (a = b) then 1%Q else 0%Q;
     get_opcodes a b :=
       if decide (a = b) then identical_opcodes (length a)
       else [Opcode replace 0 (length a) 0 (length b)] |}.

End Diff.

(** ** The output comparator ([__check_output]) *)

Module Comparator.
Import PyStr Utils Markers Diff.

(** The order of [list.sort()] on strings: lexicographic on code points. *)
Fixpoint str_leb (x y : str) : bool :=
  match x, y with
  | [], _ => true
  | _ :: _, [] => false
  | c :: x', d :: y' => (c <? d) || ((c =? d) && str_leb x' y')
  end.

Definition str_le (x y : str) : Prop := str_leb x y = true.

#[global] Instance str_le_dec : RelDecision str_le :=
  fun x y => decide (str_leb x y = true).

(** [lines.sort()]: the sorted arrangement of the lines, which for this
    order is unique. *)
Definition sort (lines : list str) : list str := merge_sort str_le lines.

(** The [relaxed] and [ignore] normalisations. *)
Definition relaxed (text : str) : str :=
  join [NL] (map rstrip (split NL (rstrip_nl text))).

Definition ignore (text : str) : str := concat (split_ws text).

Definition normalize (_whitespace : string) (text : str) : str :=
  if String.eqb _whitespace "relaxed" then relaxed text
  else if String.eqb _whitespace "ignore" then ignore text
  else text.

Definition LEGEND : str :=
  [NL] ++ s2l "Difference (" ++ [0x0333] ++ s2l "  are things your output is missing, "
  ++ [0x0334] ++ s2l "  are things your output has extra):" ++ [NL].

Section CheckOutput.
Context (chars : SequenceMatcher Z) (lines : SequenceMatcher str).
(** [re.search(pattern, string) is not None] *)
Context (re_search : str -> str -> bool).

(** The compared values: the two texts as line lists, after the sort
    when asked for. *)
Definition compared_lines (_ordered : bool) (text : str) : list str :=
  let l := split NL text in
  if negb _ordered then sort l else l.

(** The value of [mismatch].  The two texts are split into lines unless
    both [_ordered] and [_regexp] hold, so without [_regexp] two line lists
    are compared, with [_regexp] and without [_ordered] the sorted lines are
    searched pairwise, and otherwise the whole text is searched. *)
Definition mismatch (printed expected : str)
    (_whitespace : string) (_ordered _regexp : bool) : bool :=
  let printed := normalize _whitespace printed in
  let expected := normalize _whitespace expected in
  if negb _regexp then
    negb (bool_decide (compared_lines _ordered printed = compared_lines _ordered expected))
  else if negb _ordered then
    existsb (fun '(e, p) => negb (re_search e p))
      (zip (compared_lines _ordered expected) (compared_lines _ordered printed))
  else negb (re_search expected printed).

(** The message built under [if mismatch:]. *)
Definition mismatch_msg (msg printed_orig : str) (inpt_ranges : list (nat * nat))
    (expected_orig : str) (_whitespace : string) (_ordered _regexp : bool) : str :=
  let printed := compared_lines _ordered (normalize _whitespace printed_orig) in
  let expected := compared_lines _ordered (normalize _whitespace expected_orig) in
  let single_line := negb (contains NL expected_orig) && negb (contains NL printed_orig) in
  let expected_note :=
    if _regexp then s2l " (this is a regular-expression, so will likely look cryptic)"
    else [] in
  let printed_orig :=
    fold_left (fun p '(start, length) => bold_substr p start (start + length))
      inpt_ranges printed_orig in
  let actual_note :=
    match inpt_ranges with [] => [] | _ => s2l " (green text is user entered)" end in
  let msg := msg ++ s2l "Expected output" ++ expected_note ++ s2l ": "
             ++ indent_lines_maybe expected_orig 4 single_line in
  let msg := msg ++ [NL] ++ s2l "Actual output" ++ actual_note ++ s2l ": "
             ++ indent_lines_maybe printed_orig 4 single_line in
  let msg :=
    if negb _regexp && negb (String.eqb _whitespace "ignore") then
      let diff :=
        if single_line
        then default [] (diff_line chars (hd [] printed) (hd [] expected) 0)
        else join [NL] (diff_lines chars lines printed expected) in
      (msg ++ LEGEND) ++ indent_lines diff 4
    else msg in
  let msg := if String.eqb _whitespace "ignore"
             then msg ++ [NL] ++ s2l "Note: all whitespace is ignored" else msg in
  if negb _ordered then msg ++ [NL] ++ s2l "Note: order of the lines does not matter"
  else msg.

(** [__check_output(self, msg, printed, inpt_ranges, expected, ...)]:
    [None] when it returns, [Some m] when it raises the failure with
    [helpful_msg = m]. *)
Definition check_output (msg printed : str) (inpt_ranges : list (nat * nat))
    (expected : str) (_whitespace : string) (_ordered _regexp : bool) : option str :=
  if mismatch printed expected _whitespace _ordered _regexp
  then Some (mismatch_msg msg printed inpt_ranges expected _whitespace _ordered _regexp)
  else None.

(** [_assertOutputEqualUsingUserInput(self, inpt, output, func, ...)];
    [call] is [__call_to_str(func, args, kwargs)]. *)
Definition assertOutputEqualUsingUserInput {R} (call inpt output : str)
    (func : Session.prog R) (_whitespace : string) (_ordered _regexp : bool)
  : Session.result R :=
  match Session.check_input call func inpt with
  | Session.Pass (msg, retval, out, inpt_ranges) =>
      match check_output msg out inpt_ranges output _whitespace _ordered _regexp with
      | Some helpful_msg => Session.Failure helpful_msg
      | None => Session.Pass retval
      end
  | Session.Failure helpful_msg => Session.Failure helpful_msg
  | Session.Error e => Session.Error e
  end.

End CheckOutput.

(** The relaxed normalisation in the words of the specification: trailing
    whitespace is stripped from every line, and the blank lines that end
    the text are stripped. *)
Fixpoint drop_blank_tail (ls : list str) : list str :=
  match ls with
  | [] => []
  | l :: ls' =>
      match drop_blank_tail ls' with
      | [] => match l with [] => [] | _ => [l] end
      | r => l :: r
      end
  end.

Definition spec_relaxed_lines (text : str) : list str :=
  drop_blank_tail (map rstrip (split NL text)).

End Comparator.

(** ** The wrapped assertions ([_testcase_assert_mod.py])

    The values handed to an assertion are Python objects; the builtins
    applied to them ([repr], [str], [round], [id], [type], [isinstance]) are
    taken as an interface.  The call site found through the frame (the line
    of code and its syntax tree) is an input of the model. *)

Module AssertMod.
Import PyStr.

(** The node classes of [ast] the sources test for. *)
#[warnings="-register-all"]
Inductive node :=
| Num | Str | Bytes | NameConstant | Ellipsis
| Attribute (value : node) (attr : string)
| Name (id : string)
| List_ | Tuple | Set_ | Dict | Subscript
| Call (func : node) (args : list node)
| Expr (value : node)
| OtherNode.

(** [__is_value(node)] *)
Definition is_value (n : node) : bool :=
  match n with
  | Num | Str | Bytes | NameConstant | Ellipsis
  | Attribute _ _ | Name _
  | List_ | Tuple | Set_ | Dict | Subscript => true
  | _ => false
  end.

Definition is_Call (n : node) : bool :=
  match n with Call _ _ => true | _ => false end.

(** A parsed file: every node with the lines it spans ([lineno],
    [end_lineno]), or [None] for the nodes that have no [lineno] (the module
    itself among them), and its child nodes in the order of
    [ast.iter_child_nodes]. *)
#[warnings="-register-all"]
Inductive located :=
| Located (kind : node) (lines : option (nat * nat)) (children : list located).

Definition kind_of (t : located) : node :=
  match t with Located kind _ _ => kind end.

Definition children_of (t : located) : list located :=
  match t with Located _ _ children => children end.

(** [hasattr(node, 'lineno') and node.lineno <= line_num <= end_lineno] *)
Definition on_line (line_num : nat) (t : located) : bool :=
  match t with
  | Located _ (Some (lineno, end_lineno)) _ =>
      (lineno <=? line_num)%nat && (line_num <=? end_lineno)%nat
  | Located _ None _ => false
  end.

Fixpoint tree_size (t : located) : nat :=
  match t with
  | Located _ _ children => S (list_sum (map tree_size children))
  end.

(** The loop [for node in ast.walk(code)]: [todo] is the queue of
    [ast.walk], served at the front and extended at the back with the
    children of the node taken out; every pass takes one node out, so the
    number of nodes bounds the passes. *)
Fixpoint walk_find (passes : nat) (todo : list located) (line_num : nat) : option node :=
  match passes, todo with
  | S passes, t :: todo =>
      if on_line line_num t then Some (kind_of t)
      else walk_find passes (todo ++ children_of t) line_num
  | _, _ => None
  end.

(** [__get_ast_node_from_frame(frame)], for the parsed file and the line of
    the frame. *)
Definition get_ast_node_from_frame (code : located) (line_num : nat) : option node :=
  walk_find (tree_size code) [code] line_num.

(** A test file of the usual shape: an import on line 1, and a test class
    on lines 3 to 5 whose method, on lines 4 to 5, holds the assertion
    statement on line 5. *)
Definition usual_test_file (assertion : node) : located :=
  Located OtherNode None
    [Located OtherNode (Some (1%nat, 1%nat)) [];
     Located OtherNode (Some (3%nat, 5%nat))
       [Located OtherNode (Some (4%nat, 5%nat))
          [Located assertion (Some (5%nat, 5%nat)) []]]].

(** The Python exceptions the model can raise by itself. *)
Inductive pyexn :=
| IndexError
| KeyError (key : string)
| UnboundLocalError (name : string).

Inductive res (A : Type) : Type :=
| Ok (a : A)
| Exc (e : pyexn).
Arguments Ok {A}.
Arguments Exc {A}.

Definition bind {A B} (m : res A) (f : A -> res B) : res B :=
  match m with
  | Ok a => f a
  | Exc e => Exc e
  end.

Notation "x <- m ;; k" := (bind m (fun x => k))
  (at level 100, m at next level, right associativity).

(** [xs[i]] *)
Definition item {A} (xs : list A) (i : nat) : res A :=
  match xs !! i with
  | Some x => Ok x
  | None => Exc IndexError
  end.

(** The use of a local variable that may not have been assigned. *)
Definition local {A} (name : string) (v : option A) : res A :=
  match v with
  | Some x => Ok x
  | None => Exc (UnboundLocalError name)
  end.

(** [__indent_lines(string, spaces)] *)
Definition indent_lines (string : str) (spaces : nat) : str :=
  match string with
  | [] => string
  | _ =>
      let spaces := repeat 32%Z spaces in
      spaces ++ join ([NL] ++ spaces) (splitlines string)
  end.

(** [__NUM_ARGS.get(name, 2)] *)
Definition NUM_ARGS : gmap string nat :=
  list_to_map [("True", 1); ("False", 1); ("IsNone", 1); ("IsNotNone", 1);
               ("AlmostEqual", 3); ("NotAlmostEqual", 3)]%nat.

Definition num_args (name : string) : nat := default 2%nat (NUM_ARGS !! name).

Definition NO_FUNC_CALL : list string := ["In"; "NotIn"].

Definition is_ordering (name : string) : bool :=
  bool_decide (name ∈ ["Greater"; "GreaterEqual"; "Less"; "LessEqual"]).

(** The dictionary indexed under [if index == 0], on its four keys. *)
Definition swapped (name : string) : string :=
  if String.eqb name "Greater" then "LessEqual"
  else if String.eqb name "LessEqual" then "Greater"
  else if String.eqb name "GreaterEqual" then "Less"
  else "GreaterEqual".

(** A template: literal text and named slots. *)
Inductive piece :=
| Lit (text : str)
| Slot (key : string).

Definition T (s : string) : piece := Lit (s2l s).
Definition BR : piece := Lit [NL].

Definition TEMPLATES : gmap string (list piece) :=
  list_to_map [
    ("Equal", [T "Expected return value: "; Slot "expected"; BR;
               T "Actual return value:   "; Slot "actual"]);
    ("NotEqual", [T "Expected return value to *not* be: "; Slot "expected"; BR;
                  T "Actual return value: "; Slot "actual"]);
    ("Greater", [T "Expected return value to be greater than: "; Slot "expected"; BR;
                 T "Actual return value: "; Slot "actual"]);
    ("GreaterEqual", [T "Expected return value to be greater than or equal to: ";
                      Slot "expected"; BR; T "Actual return value: "; Slot "actual"]);
    ("Less", [T "Expected return value to be less than: "; Slot "expected"; BR;
              T "Actual return value: "; Slot "actual"]);
    ("LessEqual", [T "Expected return value to be less than or equal to: ";
                   Slot "expected"; BR; T "Actual return value: "; Slot "actual"]);
    ("AlmostEqual", [T "Expected return value: "; Slot "expected";
                     T " once rounded to "; Slot "places"; T " places"; BR;
                     T "Actual return value:   "; Slot "actual";
                     T " once rounded to "; Slot "places"; T " places"]);
    ("NotAlmostEqual", [T "Expected return value to *not* be: "; Slot "expected";
                        T " once rounded to "; Slot "places"; T " places"; BR;
                        T "Actual return value: "; Slot "actual";
                        T " once rounded to "; Slot "places"; T " places"]);
    ("AlmostEqualDelta", [T "Expected return value: "; Slot "expected"; Lit [0xB1%Z];
                          Slot "delta"; BR; T "Actual return value:   "; Slot "actual"]);
    ("NotAlmostEqualDelta", [T "Expected return value to *not* be: "; Slot "expected";
                             Lit [0xB1%Z]; Slot "delta"; BR;
                             T "Actual return value: "; Slot "actual"]);
    ("True", [T "Expected return value to be True but was: "; Slot "actual"]);
    ("False", [T "Expected return value to be False but was: "; Slot "actual"]);
    ("IsNone", [T "Expected return value to be None but was: "; Slot "actual"]);
    ("IsNotNone", [T "Expected return value to *not* be None but was: "; Slot "actual"]);
    ("Is", [T "Expected return value: "; Slot "expected"; T " with id ";
            Slot "expected_id"; BR; T "Actual return value:   "; Slot "actual";
            T " with id "; Slot "actual_id"]);
    ("IsNot", [T "Expected return value to *not* be: "; Slot "actual"; T " with id ";
               Slot "actual_id"]);
    ("IsInstance", [T "Expected return value to have type "; Slot "expected"; BR;
                    T "Actual return value:   "; Slot "actual"; T " has type ";
                    Slot "actual_type"]);
    ("NotIsInstance", [T "Expected return value to *not* have type "; Slot "expected"; BR;
                       T "Actual return value: "; Slot "actual"; T " has type ";
                       Slot "actual_type"]);
    ("In", [T "Expected return value to be in: "; Slot "second"; BR;
            T "Actual return value: "; Slot "first"]);
    ("NotIn", [T "Expected return value to *not* be in: "; Slot "second"; BR;
               T "Actual return value: "; Slot "first"]);
    ("Contains", [T "Expected return value to contain: "; Slot "first"; BR;
                  T "Actual return value: "; Slot "second"]);
    ("NotContains", [T "Expected return value to *not* contain: "; Slot "first"; BR;
                     T "Actual return value: "; Slot "second"])
  ].

(** The [assert*] methods [unittest.TestCase] has among the template
    names ([hasattr(TestCase, fullname)]). *)
Definition TESTCASE_HAS : list string :=
  ["Equal"; "NotEqual"; "Greater"; "GreaterEqual"; "Less"; "LessEqual";
   "AlmostEqual"; "NotAlmostEqual"; "True"; "False"; "IsNone"; "IsNotNone";
   "Is"; "IsNot"; "IsInstance"; "NotIsInstance"; "In"; "NotIn"].

(** The names [wrap_test_case_asserts] wraps. *)
Definition wrapped (name : string) : bool :=
  bool_decide (is_Some (TEMPLATES !! name)) && bool_decide (name ∈ TESTCASE_HAS).


Section Wrapper.
(** [astor]'s [to_source]. *)
Context (to_source : node -> str).
(** Python objects and the builtins applied to them. *)
Context {value : Type}.
Context (py_repr py_str : value -> str).
(** [isinstance(x, str)], with the characters of [x]. *)
Context (as_str : value -> option str).
(** [x is None] *)
Context (is_None : value -> bool).
(** [round(x, places)], [id(x)], [type(x).__name__], and the name or the
    tuple of names of the classes given to [assertIsInstance]. *)
Context (py_round : value -> value -> value).
Context (py_id : value -> value).
Context (type_name : value -> value).
Context (class_names : value -> value).
(** The integer [7]. *)
Context (seven : value).

(** [__extract_from_assert_call(node, max_check)]; [node] is [None] when
    the frame's line has no node. *)
Definition extract_from_assert_call (n : option node) (max_check : nat)
  : res (option str * Z) :=
  match n with
  | Some (Expr (Call (Attribute (Name id) attr) args)) =>
      if String.eqb id "self" && String.prefix "assert" attr then
        a0 <- item args 0 ;;
        first <- (if is_Call a0 then a1 <- item args 1 ;; Ok (is_value a1) else Ok false) ;;
        if first : bool then Ok (Some (strip (to_source a0)), 0%Z)
        else if (1 <? max_check)%nat then
          a1 <- item args 1 ;;
          second <- (if is_Call a1 then a0 <- item args 0 ;; Ok (is_value a0) else Ok false) ;;
          if second : bool then Ok (Some (strip (to_source a1)), 1%Z)
          else Ok (None, (-1)%Z)
        else Ok (None, (-1)%Z)
      else Ok (None, (-1)%Z)
  | _ => Ok (None, (-1)%Z)
  end.

(** [__repr(x)] *)
Definition repr_ (x : value) : str :=
  let x := match as_str x with
           | Some s => if contains NL s && (length s <? 20)%nat then s else py_repr x
           | None => py_repr x
           end in
  if contains NL x || (20 <? length x)%nat then [NL] ++ indent_lines x 4 else x.

(** An entry of the [values] dictionary: an object, or text made by
    [__repr]. *)
Inductive entry :=
| Obj (v : value)
| Text (s : str).

Definition entry_str (e : entry) : str :=
  match e with
  | Obj v => py_str v
  | Text s => s
  end.

(** [template.format] on the entries of [values]. *)
Fixpoint format (template : list piece) (values : gmap string entry) : res str :=
  match template with
  | [] => Ok []
  | Lit text :: rest => tail <- format rest values ;; Ok (text ++ tail)
  | Slot key :: rest =>
      match values !! key with
      | Some e => tail <- format rest values ;; Ok (entry_str e ++ tail)
      | None => Exc (KeyError key)
      end
  end.

(** [kwargs.get(key, None) is None] *)
Definition kwarg_is_None (kwargs : gmap string value) (key : string) : bool :=
  match kwargs !! key with
  | Some v => is_None v
  | None => true
  end.

(** The loop [for attr in ('actual', 'expected')]. *)
Definition repr_entry (values : gmap string entry) (attr : string) : gmap string entry :=
  match values !! attr with
  | Some (Obj v) => <[attr := Text (repr_ v)]> values
  | Some (Text s) => values
  | None => values
  end.

(** The ``special cases'' of [AlmostEqual] and [NotAlmostEqual]. *)
Definition almost_equal_case (name : string) (args : list value)
    (kwargs : gmap string value) (actual expected : value)
  : res (string * gmap string entry) :=
  by_places <-
    (if (length args =? 2)%nat then Ok true
     else a2 <- item args 2 ;;
          Ok (negb (is_None a2) || negb (kwarg_is_None kwargs "places"))) ;;
  if by_places : bool then
    fallback <- (if (2 <? length args)%nat then item args 2 else Ok seven) ;;
    let places := default fallback (kwargs !! "places") in
    Ok (name, {[ "places" := Obj places;
                 "actual" := Obj (py_round actual places);
                 "expected" := Obj (py_round expected places) ]})
  else
    delta <- match kwargs !! "delta" with
             | Some d => if is_None d then item args 4 else Ok d
             | None => item args 4
             end ;;
    Ok ((name +:+ "Delta")%string,
        {[ "delta" := Obj delta; "actual" := Obj actual; "expected" := Obj expected ]}).

(** The last statements of [__add_helpful_msg]: [actual] and [expected]
    are replaced by their [__repr], the template of [name] is filled and
    appended, and the message is stored. *)
Definition fill (msg : str) (name : string) (values : gmap string entry)
  : res (option str) :=
  let values := repr_entry (repr_entry values "actual") "expected" in
  match TEMPLATES !! name with
  | Some template => text <- format template values ;; Ok (Some (msg ++ text))
  | None => Exc (KeyError name)
  end.

(** [__add_helpful_msg(name, ex, args, kwargs)]: [code] is what
    [__get_verbose_code_from_frame] gave and [n] what
    [__get_ast_node_from_frame] gave.  The result is the new [helpful_msg],
    [None] when the function returns without setting it. *)
Definition add_helpful_msg (code : str) (n : option node) (name : string)
    (args : list value) (kwargs : gmap string value) : res (option str) :=
  let msg := code ++ [NL] in
  found <-
    (if bool_decide (name ∈ NO_FUNC_CALL) then Ok (msg, None)
     else
       r <- extract_from_assert_call n (num_args name) ;;
       let '(call, index) := r in
       Ok (match call with
           | Some call => msg ++ s2l "The function call was: " ++ call ++ [NL]
           | None => msg
           end, Some index)) ;;
  let '(msg, index) := found in
  if (num_args name =? 1)%nat then
    a0 <- item args 0 ;;
    fill msg name {[ "actual" := Obj a0 ]}
  else
    index <- local "index" index ;;
    a0 <- item args 0 ;;
    a1 <- item args 1 ;;
    let actual := if (index =? 0)%Z then a0 else a1 in
    let expected := if (index =? 0)%Z then a1 else a0 in
    let name := if (index =? 0)%Z && is_ordering name then swapped name else name in
    case <-
      (if bool_decide (name ∈ ["AlmostEqual"; "NotAlmostEqual"])
       then almost_equal_case name args kwargs actual expected
       else Ok (name, {[ "actual" := Obj actual; "expected" := Obj expected ]})) ;;
    let '(name, values) := case in
    let values :=
      if bool_decide (name ∈ ["Is"; "IsNot"])
      then <["actual_id" := Obj (py_id actual)]>
             (<["expected_id" := Obj (py_id expected)]> values)
      else values in
    if bool_decide (name ∈ ["IsInstance"; "IsNotInstance"]) && negb (index =? 0)%Z
    then Ok None
    else
      let values :=
        if bool_decide (name ∈ ["IsInstance"; "IsNotInstance"])
        then <["expected" := Obj (class_names expected)]>
               (<["actual_type" := Obj (type_name actual)]> values)
        else values in
      fill msg name values.

(** What a call of an assertion does: it returns, it raises an
    [AssertionError] (with the attribute [helpful_msg], when set), or it
    raises something else. *)
Inductive raised :=
| AssertionError (message : str) (helpful_msg : option str)
| OtherError (e : pyexn).

(** [__assert_wrapper(self, args, kwargs)] of
    [__make_assert_function(name)]; [underlying] is what
    [__ASSERT[name]] does on these arguments. *)
Definition assert_wrapper (code : str) (n : option node) (name : string)
    (underlying : option raised) (args : list value) (kwargs : gmap string value)
  : option raised :=
  match underlying with
  | Some (AssertionError message helpful) =>
      let n_args := num_args name in
      if kwarg_is_None kwargs "msg"
         && ((length args <=? n_args)%nat
             || match args !! n_args with Some a => is_None a | None => false end)
      then
        match add_helpful_msg code n name args kwargs with
        | Ok (Some m) => Some (AssertionError message (Some m))
        | Ok None => Some (AssertionError message helpful)
        | Exc e => Some (OtherError e)
        end
      else Some (AssertionError message helpful)
  | other => other
  end.

End Wrapper.

(** The statement [self.assertGreater(f(..), literal)], and the same with
    its two arguments exchanged. *)
Definition call_first (f : node) (fargs : list node) : option node :=
  Some (Expr (Call (Attribute (Name "self") "assertGreater") [Call f fargs; Num])).

Definition literal_first (f : node) (fargs : list node) : option node :=
  Some (Expr (Call (Attribute (Name "self") "assertGreater") [Num; Call f fargs])).

End AssertMod.

(** ** The other assertions of [_testcase_assert_add.py] *)

Module Asserts.
Import PyStr Utils Session Comparator.

(** [sub in s] for two strings. *)
Fixpoint isin (sub s : str) : bool :=
  bool_decide (sub `prefix_of` s)
  || match s with
     | [] => false
     | _ :: s' => isin sub s'
     end.

Section EqualUsingUserInput.
(** Python objects: their [repr], the characters of the ones that are
    strings, and the comparison [x != y]. *)
Context {value : Type}.
Context (py_repr : value -> str) (as_str : value -> option str).
Context (py_ne : value -> value -> bool).

(** [__call_to_str(func, args, kwargs)], for the [__module__] and the
    [__qualname__] of [func]; [kwargs] in the order of the dictionary. *)
Definition call_to_str (module qualname : str) (args : list value)
    (kwargs : list (str * value)) : str :=
  let sep := match args, kwargs with
             | _ :: _, _ :: _ => s2l ", "
             | _, _ => []
             end in
  let args := join (s2l ", ") (map py_repr args) in
  let kwargs :=
    join (s2l ", ") (map (fun '(key, value) => key ++ s2l "=" ++ py_repr value) kwargs) in
  module ++ s2l "." ++ qualname ++ s2l "(" ++ args ++ sep ++ kwargs ++ s2l ")".

(** [_repr(x)] of [_utils.py] *)
Definition _repr (x : value) : str :=
  let x := match as_str x with
           | Some s => if contains NL s && (length s <? 20)%nat then s else py_repr x
           | None => py_repr x
           end in
  if contains NL x || (20 <? length x)%nat then [NL] ++ indent_lines x 4 else x.

(** The message for an argument that is missing in the output. *)
Definition missing_arg_msg (msg arg out : str) : str :=
  (msg ++ s2l "The argument value " ++ [DQUOTE] ++ arg ++ [DQUOTE]
       ++ s2l " was supposed to appear in the output." ++ [NL])
  ++ s2l "The actual output was:" ++ [NL] ++ indent_lines out 4.

(** The loop [for arg in itertools.chain(args, kwargs.values())]: the
    message of the failure it raises, if any. *)
Fixpoint check_args (msg out : str) (args : list value) : option str :=
  match args with
  | [] => None
  | arg :: rest =>
      match as_str arg with
      | Some s => if negb (isin s out) then Some (missing_arg_msg msg s out)
                  else check_args msg out rest
      | None => check_args msg out rest
      end
  end.

End EqualUsingUserInput.

(** [_assertDoc(self, func, min_length)]: [is_module] is
    [isinstance(func, types.ModuleType)], [name] is [func.__name__] and [doc]
    is [getattr(func, '__doc__', None)].  The result is the message of the
    failure raised, [None] when the function returns. *)
Definition assertDoc (is_module : bool) (name : str) (doc : option str) (min_length : Z)
  : option str :=
  let name := if is_module then name else name ++ s2l "()" in
  match doc with
  | None => Some (s2l "No docstring provided for " ++ name)
  | Some doc =>
      if Z.of_nat (length (strip doc)) <? min_length
      then Some (s2l "Docstring for " ++ name ++ s2l " isn't very descriptive...")
      else None
  end.

End Asserts.

(** ** The context managers [_assertNoPrint] and [_assertNoInput]

    The body of the [with] statement is a terminating program over what it
    can do with the console: call the builtins [print] and [input], write to
    [sys.stdout], read from [sys.stdin], return or raise.  A body of
    [Guards.body] lets every exception through; [Guarded.body] below has the
    bodies that handle exceptions and that seek and truncate the streams. *)

Module Guards.
Import PyStr Session.

Inductive body (R : Type) : Type :=
| Done (retval : R)
| Throw (e : exn)
(** [print(...)]; [text] is what the builtin writes to [sys.stdout]. *)
| CallPrint (text : str) (k : body R)
| StdoutWrite (s : str) (k : body R)
| CallInput (prompt : str) (k : str -> body R)
| StdinRead (size : option Z) (k : str -> body R)
| StdinReadline (size : option Z) (k : str -> body R).
Arguments Done {R}.
Arguments Throw {R}.
Arguments CallPrint {R}.
Arguments StdoutWrite {R}.
Arguments CallInput {R}.
Arguments StdinRead {R}.
Arguments StdinReadline {R}.

(** What [builtins.print] and [builtins.input] are bound to: the builtin
    ([None]), or the function that raises the helpful failure with the given
    message. *)
Record builtins := Builtins {
  print_raises : option str;
  input_raises : option str
}.

(** The body run with the given builtins and streams; the result, and the
    streams afterwards. *)
Fixpoint exec {R} (bi : builtins) (b : body R) (stdout stdin : StringIO.t)
  : result R * StringIO.t * StringIO.t :=
  match b with
  | Done retval => (Pass retval, stdout, stdin)
  | Throw e => (Error e, stdout, stdin)
  | CallPrint text k =>
      match print_raises bi with
      | Some msg => (Failure msg, stdout, stdin)
      | None => exec bi k (StringIO.write stdout text) stdin
      end
  | StdoutWrite s k => exec bi k (StringIO.write stdout s) stdin
  | CallInput prompt k =>
      match input_raises bi with
      | Some msg => (Failure msg, stdout, stdin)
      | None =>
          let stdout := StringIO.write stdout prompt in
          let '(data, stdin) := StringIO.readline stdin None in
          match data with
          | [] => (Error EOFError, stdout, stdin)
          | _ => exec bi (k (chomp data)) stdout stdin
          end
      end
  | StdinRead size k =>
      let '(data, stdin) := StringIO.read stdin size in exec bi (k data) stdout stdin
  | StdinReadline size k =>
      let '(data, stdin) := StringIO.readline stdin size in exec bi (k data) stdout stdin
  end.

(** [with self.assertNoPrint(print_func_okay, msg): body] *)
Definition assertNoPrint {R} (print_func_okay : bool) (msg : str) (b : body R)
    (stdin : StringIO.t) : result R :=
  let bi := Builtins (if print_func_okay then None else Some msg) None in
  let '(r, output, _) := exec bi b (StringIO.open []) stdin in
  match StringIO.getvalue output with
  | [] => r
  | _ => Failure msg
  end.


(** Whether the body, run with the given [sys.stdin], gets to a call of
    [print] that is not allowed, or to write a non-empty text to
    [sys.stdout]: directly, through an allowed [print], or as the prompt of
    [input]. *)
Fixpoint speaks {R} (print_func_okay : bool) (b : body R) (stdin : StringIO.t) : bool :=
  match b with
  | Done _ | Throw _ => false
  | CallPrint text k =>
      negb print_func_okay || negb (bool_decide (text = []))
      || speaks print_func_okay k stdin
  | StdoutWrite s k => negb (bool_decide (s = [])) || speaks print_func_okay k stdin
  | CallInput prompt k =>
      negb (bool_decide (prompt = []))
      || (let '(data, stdin) := StringIO.readline stdin None in
          match data with
          | [] => false
          | _ => speaks print_func_okay (k (chomp data)) stdin
          end)
  | StdinRead size k =>
      let '(data, stdin) := StringIO.read stdin size in speaks print_func_okay (k data) stdin
  | StdinReadline size k =>
      let '(data, stdin) := StringIO.readline stdin size in
      speaks print_func_okay (k data) stdin
  end.


End Guards.

(** ** The nodes [ast.walk] goes through *)

Module Walk.
Import AssertMod.

(** The nodes of a tree: the tree and the nodes of its children. *)
Fixpoint nodes_of (t : located) : list located :=
  match t with
  | Located _ _ children => t :: concat (map nodes_of children)
  end.

(** The number of nodes in a queue of trees. *)
Definition total_size (todo : list located) : nat := list_sum (map tree_size todo).

End Walk.

(** ** Spans that touch, and the document of a diff *)

Module Touching.
Import Markers Html Styled Diff.

(** The place of a style in the three calls of [__styling] for one
    character: bold, underline, strikethrough. *)
Definition rank (s : style) : nat :=
  match s with Bold => 0 | Underline => 1 | Strikethrough => 2 end.

(** A styled span may follow another one directly when its style comes
    earlier in that order; [prev] is the style of the span the text so far
    ends in.  Empty segments do not separate anything. *)
Fixpoint well_ordered_from (prev : option style) (segs : list segment) : bool :=
  match segs with
  | [] => true
  | (_, []) :: rest => well_ordered_from prev rest
  | (None, t) :: rest => marker_free t && well_ordered_from None rest
  | (Some s, t) :: rest =>
      marker_free t
      && match prev with
         | Some s' => (rank s <? rank s')%nat
         | None => true
         end
      && well_ordered_from (Some s) rest
  end.

Definition well_ordered : list segment -> bool := well_ordered_from None.

(** What [__diff_line] appends for one opcode, as segments. *)
Definition segments_of_opcode (a b : str) (op : opcode) : list segment :=
  match op_tag op with
  | equal => [(None, slice a (i1 op) (i2 op))]
  | delete => [(Some Strikethrough, slice a (i1 op) (i2 op))]
  | insert => [(Some Underline, slice b (j1 op) (j2 op))]
  | replace => [(Some Strikethrough, slice a (i1 op) (i2 op));
                (Some Underline, slice b (j1 op) (j2 op))]
  end.

Definition document (a b : str) (ops : list opcode) : list segment :=
  concat (map (segments_of_opcode a b) ops).

(** The opcodes are an edit script from [a] to [b], as [get_opcodes]
    documents them: the ranges follow one another from 0 to the two lengths,
    an [equal] block holds the same text on both sides, a [delete] takes
    nothing from [b] and an [insert] nothing from [a]. *)
Fixpoint edit_script_from (a b : str) (i j : nat) (ops : list opcode) : Prop :=
  match ops with
  | [] => i = length a ∧ j = length b
  | op :: rest =>
      i1 op = i ∧ j1 op = j ∧ (i <= i2 op)%nat ∧ (j <= j2 op)%nat
      ∧ match op_tag op with
        | equal => slice a (i1 op) (i2 op) = slice b (j1 op) (j2 op)
        | delete => j2 op = j
        | insert => i2 op = i
        | replace => True
        end
      ∧ edit_script_from a b (i2 op) (j2 op) rest
  end.

Definition edit_script (a b : str) (ops : list opcode) : Prop := edit_script_from a b 0 0 ops.

(** Between two changes [get_opcodes] always has a non-empty [equal]
    block; [after_change] tells whether the opcode before was a change. *)
Fixpoint alternating_from (a : str) (after_change : bool) (ops : list opcode) : bool :=
  match ops with
  | [] => true
  | op :: rest =>
      match op_tag op with
      | equal =>
          negb (bool_decide (slice a (i1 op) (i2 op) = [])) && alternating_from a false rest
      | _ => negb after_change && alternating_from a true rest
      end
  end.

Definition alternating (a : str) : list opcode -> bool := alternating_from a false.

(** The segments that are not of the given style. *)
Definition without (s : style) (segs : list segment) : list segment :=
  List.filter (fun sg => negb (is_style s sg.1)) segs.

End Touching.

(** ** Functions that also move the streams

    The two redirected streams are [io.StringIO] objects, so the function
    under test can do more with them than append and read: it can seek and
    truncate [sys.stdout], seek [sys.stdin], and read [sys.stdin] by
    iteration or with [readlines()], which do not go through the wrappers
    that [__check_input] installs as the attributes [read] and [readline]. *)

Module Streams.
Import PyStr Utils Session.
Local Open Scope nat_scope.

(** [f.seek(pos)] *)
Definition seek (f : StringIO.t) (pos : nat) : StringIO.t :=
  StringIO.Make (StringIO.value f) pos.

(** [f.truncate(size)]: the text is cut at [size], the position when
    [size] is absent; it is never made longer, and the position stays. *)
Definition truncate (f : StringIO.t) (size : option nat) : StringIO.t :=
  StringIO.Make (take (default (StringIO.pos f) size) (StringIO.value f)) (StringIO.pos f).

(** [next(f)]: the next line, [None] for [StopIteration]. *)
Definition next (f : StringIO.t) : option str * StringIO.t :=
  let '(line, f') := StringIO.readline f None in
  match line with
  | [] => (None, f')
  | _ => (Some line, f')
  end.

(** The lines of a text, each with the newline that ends it. *)
Fixpoint lines_from (cur : str) (s : str) : list str :=
  match s with
  | [] => match cur with [] => [] | _ => [cur] end
  | c :: s' => if (c =? NL)%Z then (cur ++ [c]) :: lines_from [] s'
               else lines_from (cur ++ [c]) s'
  end.

(** [f.readlines()] *)
Definition readlines (f : StringIO.t) : list str * StringIO.t :=
  let rest := drop (StringIO.pos f) (StringIO.value f) in
  (lines_from [] rest, StringIO.Make (StringIO.value f) (StringIO.pos f + length rest)).

(** What the function under test does with the two streams: on
    [sys.stdout] it writes, seeks and truncates; on [sys.stdin] it calls
    [read] and [readline], which are the wrappers, takes the next line by
    iteration, calls [readlines()] and seeks; it can look at both streams
    ([tell], [getvalue]); it ends by returning or by raising. *)
Inductive prog (R : Type) : Type :=
| Return (retval : R)
| Abort (e : exn)
| OutWrite (s : str) (k : prog R)
| OutSeek (pos : nat) (k : prog R)
| OutTruncate (size : option nat) (k : prog R)
| InRead (size : option Z) (k : str -> prog R)
| InReadline (size : option Z) (k : str -> prog R)
| InNext (k : option str -> prog R)
| InReadlines (k : list str -> prog R)
| InSeek (pos : nat) (k : prog R)
| Inspect (k : StringIO.t -> StringIO.t -> prog R).
Arguments Return {R}.
Arguments Abort {R}.
Arguments OutWrite {R}.
Arguments OutSeek {R}.
Arguments OutTruncate {R}.
Arguments InRead {R}.
Arguments InReadline {R}.
Arguments InNext {R}.
Arguments InReadlines {R}.
Arguments InSeek {R}.
Arguments Inspect {R}.

(** The builtin [input(prompt)], as in [Session.input]. *)
Definition input {R} (prompt : str) (k : str -> prog R) : prog R :=
  OutWrite prompt (InReadline None (fun data =>
    match data with
    | [] => Abort EOFError
    | _ => k (chomp data)
    end)).

Definition with_out (ss : session) (o : StringIO.t) : session :=
  Session o (in_ ss) (inpt_ranges ss).

Definition with_in (ss : session) (i : StringIO.t) : session :=
  Session (out ss) i (inpt_ranges ss).

(** The call of [func] under [redirect_stdout(out)] and
    [redirect_stdin(in_)], with the wrappers [_read] and [_readline] of
    [__check_input]. *)
Fixpoint run {R} (p : prog R) (ss : session) : outcome R * session :=
  match p with
  | Return retval => (Returned retval, ss)
  | Abort e => (Raised e, ss)
  | OutWrite s k => run k (with_out ss (StringIO.write (out ss) s))
  | OutSeek pos k => run k (with_out ss (seek (out ss) pos))
  | OutTruncate size k => run k (with_out ss (truncate (out ss) size))
  | InRead size k => let '(data, ss') := _read size ss in run (k data) ss'
  | InReadline size k => let '(data, ss') := _readline size ss in run (k data) ss'
  | InNext k => let '(line, i) := next (in_ ss) in run (k line) (with_in ss i)
  | InReadlines k => let '(ls, i) := readlines (in_ ss) in run (k ls) (with_in ss i)
  | InSeek pos k => run k (with_in ss (seek (in_ ss) pos))
  | Inspect k => run (k (out ss) (in_ ss)) ss
  end.

(** The data the wrapped [read] and [readline] calls returned, in call
    order. *)
Fixpoint reads {R} (p : prog R) (ss : session) : list str :=
  match p with
  | Return _ | Abort _ => []
  | OutWrite s k => reads k (with_out ss (StringIO.write (out ss) s))
  | OutSeek pos k => reads k (with_out ss (seek (out ss) pos))
  | OutTruncate size k => reads k (with_out ss (truncate (out ss) size))
  | InRead size k => let '(data, ss') := _read size ss in data :: reads (k data) ss'
  | InReadline size k => let '(data, ss') := _readline size ss in data :: reads (k data) ss'
  | InNext k => let '(line, i) := next (in_ ss) in reads (k line) (with_in ss i)
  | InReadlines k => let '(ls, i) := readlines (in_ ss) in reads (k ls) (with_in ss i)
  | InSeek pos k => reads k (with_in ss (seek (in_ ss) pos))
  | Inspect k => reads (k (out ss) (in_ ss)) ss
  end.

(** Whether the run leaves the position and the length of [sys.stdout] to
    its writes: it gets to no [seek] and no [truncate] of it. *)
Fixpoint only_appends {R} (p : prog R) (ss : session) : bool :=
  match p with
  | Return _ | Abort _ => true
  | OutWrite s k => only_appends k (with_out ss (StringIO.write (out ss) s))
  | OutSeek _ _ | OutTruncate _ _ => false
  | InRead size k => let '(data, ss') := _read size ss in only_appends (k data) ss'
  | InReadline size k => let '(data, ss') := _readline size ss in only_appends (k data) ss'
  | InNext k => let '(line, i) := next (in_ ss) in only_appends (k line) (with_in ss i)
  | InReadlines k => let '(ls, i) := readlines (in_ ss) in only_appends (k ls) (with_in ss i)
  | InSeek pos k => only_appends k (with_in ss (seek (in_ ss) pos))
  | Inspect k => only_appends (k (out ss) (in_ ss)) ss
  end.

(** Whether the run gets to no [seek] of [sys.stdin]. *)
Fixpoint never_seeks_input {R} (p : prog R) (ss : session) : bool :=
  match p with
  | Return _ | Abort _ => true
  | OutWrite s k => never_seeks_input k (with_out ss (StringIO.write (out ss) s))
  | OutSeek pos k => never_seeks_input k (with_out ss (seek (out ss) pos))
  | OutTruncate size k => never_seeks_input k (with_out ss (truncate (out ss) size))
  | InRead size k => let '(data, ss') := _read size ss in never_seeks_input (k data) ss'
  | InReadline size k =>
      let '(data, ss') := _readline size ss in never_seeks_input (k data) ss'
  | InNext k => let '(line, i) := next (in_ ss) in never_seeks_input (k line) (with_in ss i)
  | InReadlines k =>
      let '(ls, i) := readlines (in_ ss) in never_seeks_input (k ls) (with_in ss i)
  | InSeek _ _ => false
  | Inspect k => never_seeks_input (k (out ss) (in_ ss)) ss
  end.

(** Whether the run reads [sys.stdin] through [read] and [readline] alone:
    it gets to no iteration, no [readlines()] and no [seek] of it. *)
Fixpoint reads_by_wrappers {R} (p : prog R) (ss : session) : bool :=
  match p with
  | Return _ | Abort _ => true
  | OutWrite s k => reads_by_wrappers k (with_out ss (StringIO.write (out ss) s))
  | OutSeek pos k => reads_by_wrappers k (with_out ss (seek (out ss) pos))
  | OutTruncate size k => reads_by_wrappers k (with_out ss (truncate (out ss) size))
  | InRead size k => let '(data, ss') := _read size ss in reads_by_wrappers (k data) ss'
  | InReadline size k =>
      let '(data, ss') := _readline size ss in reads_by_wrappers (k data) ss'
  | InNext _ | InReadlines _ | InSeek _ _ => false
  | Inspect k => reads_by_wrappers (k (out ss) (in_ ss)) ss
  end.

(** What holds of a sink that has only been appended to: it stands at its
    end, and the ranges are in order, disjoint and inside it. *)
Record appended (ss : session) : Prop := Appended {
  appended_pos : StringIO.pos (out ss) = length (StringIO.value (out ss));
  appended_ordered : ordered_disjoint (inpt_ranges ss);
  appended_inside : Forall (fun r => r.1 + r.2 <= length (StringIO.value (out ss)))
                      (inpt_ranges ss)
}.

(** [__check_input(self, func, inpt, args, kwargs)] for such a function. *)
Definition check_input {R} (call : str) (func : prog R) (inpt : str)
  : result (str * R * str * list (nat * nat)) :=
  let msg := input_msg call inpt in
  match run func (start inpt) with
  | (Raised EOFError, _) => Failure (msg ++ EOF_TEXT)
  | (Raised e, _) => Error e
  | (Returned retval, ss) =>
      if StringIO.tell (in_ ss) =? 0 then Failure (msg ++ NO_INPUT_TEXT)
      else
        let '(rem, ss) := _read None ss in
        match rem with
        | _ :: _ =>
            Failure (msg ++ LEFTOVER_TEXT
                     ++ indent_lines (last_line (split NL (rstrip_nl (before_rem inpt rem)))) 4)
        | [] => Pass (msg, retval, rstrip (StringIO.getvalue (out ss)), inpt_ranges ss)
        end
  end.

(** The verdict of the input checks in terms of how the run ended and of
    where it left the position of [sys.stdin]. *)
Definition verdict {R} (call : str) (func : prog R) (inpt : str)
  : result (str * R * str * list (nat * nat)) :=
  let msg := input_msg call inpt in
  let ss := (run func (start inpt)).2 in
  let position := StringIO.tell (in_ ss) in
  match (run func (start inpt)).1 with
  | Raised EOFError => Failure (msg ++ EOF_TEXT)
  | Raised e => Error e
  | Returned retval =>
      if position =? 0 then Failure (msg ++ NO_INPUT_TEXT)
      else if position <? length inpt then
        Failure (msg ++ LEFTOVER_TEXT
                 ++ indent_lines (last_line (split NL (rstrip_nl (take position inpt)))) 4)
      else
        Pass (msg, retval, rstrip (StringIO.getvalue (out ss)),
              inpt_ranges ss ++ [(length (StringIO.getvalue (out ss)), 0)])
  end.

(** A function of [Session.prog] as one that does no more than that. *)
Fixpoint embed {R} (p : Session.prog R) : prog R :=
  match p with
  | Ret retval => Return retval
  | Raise e => Abort e
  | Write s k => OutWrite s (embed k)
  | Read size k => InRead size (fun data => embed (k data))
  | Readline size k => InReadline size (fun data => embed (k data))
  end.

(** The call of [func] under [redirect_stdout(out)] alone: [stdin] is the
    stream that [sys.stdin] was, read without wrappers. *)
Fixpoint run_stdout {R} (p : prog R) (out stdin : StringIO.t)
  : outcome R * StringIO.t * StringIO.t :=
  match p with
  | Return retval => (Returned retval, out, stdin)
  | Abort e => (Raised e, out, stdin)
  | OutWrite s k => run_stdout k (StringIO.write out s) stdin
  | OutSeek pos k => run_stdout k (seek out pos) stdin
  | OutTruncate size k => run_stdout k (truncate out size) stdin
  | InRead size k =>
      let '(data, stdin) := StringIO.read stdin size in run_stdout (k data) out stdin
  | InReadline size k =>
      let '(data, stdin) := StringIO.readline stdin size in run_stdout (k data) out stdin
  | InNext k => let '(line, stdin) := next stdin in run_stdout (k line) out stdin
  | InReadlines k => let '(ls, stdin) := readlines stdin in run_stdout (k ls) out stdin
  | InSeek pos k => run_stdout k out (seek stdin pos)
  | Inspect k => run_stdout (k out stdin) out stdin
  end.

(** The texts written to [sys.stdout] during that call, in order. *)
Fixpoint written {R} (p : prog R) (out stdin : StringIO.t) : list str :=
  match p with
  | Return _ | Abort _ => []
  | OutWrite s k => s :: written k (StringIO.write out s) stdin
  | OutSeek pos k => written k (seek out pos) stdin
  | OutTruncate size k => written k (truncate out size) stdin
  | InRead size k =>
      let '(data, stdin) := StringIO.read stdin size in written (k data) out stdin
  | InReadline size k =>
      let '(data, stdin) := StringIO.readline stdin size in written (k data) out stdin
  | InNext k => let '(line, stdin) := next stdin in written (k line) out stdin
  | InReadlines k => let '(ls, stdin) := readlines stdin in written (k ls) out stdin
  | InSeek pos k => written k out (seek stdin pos)
  | Inspect k => written (k out stdin) out stdin
  end.

(** Whether that call gets to no [seek] and no [truncate] of
    [sys.stdout]. *)
Fixpoint appends_to_stdout {R} (p : prog R) (out stdin : StringIO.t) : bool :=
  match p with
  | Return _ | Abort _ => true
  | OutWrite s k => appends_to_stdout k (StringIO.write out s) stdin
  | OutSeek _ _ | OutTruncate _ _ => false
  | InRead size k =>
      let '(data, stdin) := StringIO.read stdin size in appends_to_stdout (k data) out stdin
  | InReadline size k =>
      let '(data, stdin) := StringIO.readline stdin size in
      appends_to_stdout (k data) out stdin
  | InNext k => let '(line, stdin) := next stdin in appends_to_stdout (k line) out stdin
  | InReadlines k => let '(ls, stdin) := readlines stdin in appends_to_stdout (k ls) out stdin
  | InSeek pos k => appends_to_stdout k out (seek stdin pos)
  | Inspect k => appends_to_stdout (k out stdin) out stdin
  end.

(** A function that prints, reads a line, empties [sys.stdout] with
    [seek(0)] and [truncate()], and reads a second line. *)
Definition rewinds_the_sink : prog unit :=
  OutWrite (s2l "xxxx") (InReadline None (fun _ =>
    OutSeek 0 (OutTruncate None (InReadline None (fun _ => Return tt))))).



(** A function that reads nothing and moves [sys.stdin] with [seek(1)]. *)
Definition seeks_the_source : prog unit := InSeek 1 (Return tt).

Section Assertions.
Context (chars : Diff.SequenceMatcher Z) (lines : Diff.SequenceMatcher str).
Context (re_search : str -> str -> bool).

(** [_assertOutputEqual(self, expected, func, ...)] for such a function;
    [call] is [__call_to_str(func, args, kwargs)]. *)
Definition assertOutputEqual {R} (call expected : str) (func : prog R) (stdin : StringIO.t)
    (_whitespace : string) (_ordered _regexp : bool) : result R :=
  let msg := s2l "The function call was: " ++ call ++ [NL] in
  match run_stdout func (StringIO.open []) stdin with
  | (Raised e, _, _) => Error e
  | (Returned retval, out, _) =>
      match Comparator.check_output chars lines re_search msg (StringIO.getvalue out) []
              expected _whitespace _ordered _regexp with
      | Some helpful_msg => Failure helpful_msg
      | None => Pass retval
      end
  end.

End Assertions.

Section EqualUsingUserInput.
Context {value : Type}.
Context (py_repr : value -> str) (as_str : value -> option str).
Context (py_ne : value -> value -> bool).

(** [_assertEqualUsingUserInput(self, inpt, expected, func, ...)] for such
    a function. *)
Definition assertEqualUsingUserInput (module qualname : str) (inpt : str) (expected : value)
    (func : prog value) (args : list value) (kwargs : list (str * value))
    (_must_output_args : bool) : result unit :=
  match check_input (Asserts.call_to_str py_repr module qualname args kwargs) func inpt with
  | Pass (msg, retval, out, _) =>
      if py_ne retval expected then
        Failure (msg ++ s2l "Expected return value: " ++ Asserts._repr py_repr as_str expected
                     ++ [NL] ++ s2l "Actual return value:   "
                     ++ Asserts._repr py_repr as_str retval)
      else if _must_output_args then
        match Asserts.check_args as_str msg out (args ++ map snd kwargs) with
        | Some helpful_msg => Failure helpful_msg
        | None => Pass tt
        end
      else Pass tt
  | Failure helpful_msg => Failure helpful_msg
  | Error e => Error e
  end.

End EqualUsingUserInput.

End Streams.

(** ** Guarded blocks that handle exceptions and move the streams

    The body of a [with] block as a program that is told how each guarded
    call ended, so that it may handle the exception (a [try] around the
    call) or let it through, and that may also seek and truncate
    [sys.stdout] and read [sys.stdin] by iteration, [readlines()] and
    [seek]. *)

Module Guarded.
Import PyStr Session.
Local Open Scope nat_scope.

(** How a call of [input(prompt)] ended: with the line read, with an
    [EOFError], or with the helpful failure of the function that replaces
    the builtin. *)
Inductive input_result :=
| Line (data : str)
| AtEnd
| Refused (helpful_msg : str).

Inductive body (R : Type) : Type :=
| Done (retval : R)
| Throw (e : exn)
(** an assertion failure with this message gets out of the body *)
| Fail (helpful_msg : str)
(** [print(...)]; [text] is what the builtin writes to [sys.stdout]; the
    continuation gets the message of the failure when the call raised *)
| CallPrint (text : str) (k : option str -> body R)
| StdoutWrite (s : str) (k : body R)
| StdoutSeek (pos : nat) (k : body R)
| StdoutTruncate (size : option nat) (k : body R)
| CallInput (prompt : str) (k : input_result -> body R)
| StdinRead (size : option Z) (k : str -> body R)
| StdinReadline (size : option Z) (k : str -> body R)
| StdinNext (k : option str -> body R)
| StdinReadlines (k : list str -> body R)
| StdinSeek (pos : nat) (k : body R)
| Inspect (k : StringIO.t -> StringIO.t -> body R).
Arguments Done {R}.
Arguments Throw {R}.
Arguments Fail {R}.
Arguments CallPrint {R}.
Arguments StdoutWrite {R}.
Arguments StdoutSeek {R}.
Arguments StdoutTruncate {R}.
Arguments CallInput {R}.
Arguments StdinRead {R}.
Arguments StdinReadline {R}.
Arguments StdinNext {R}.
Arguments StdinReadlines {R}.
Arguments StdinSeek {R}.
Arguments Inspect {R}.

(** The body run with the given builtins and streams; the result, and the
    streams afterwards. *)
Fixpoint exec {R} (bi : Guards.builtins) (b : body R) (stdout stdin : StringIO.t)
  : result R * StringIO.t * StringIO.t :=
  match b with
  | Done retval => (Pass retval, stdout, stdin)
  | Throw e => (Error e, stdout, stdin)
  | Fail helpful_msg => (Failure helpful_msg, stdout, stdin)
  | CallPrint text k =>
      match Guards.print_raises bi with
      | Some msg => exec bi (k (Some msg)) stdout stdin
      | None => exec bi (k None) (StringIO.write stdout text) stdin
      end
  | StdoutWrite s k => exec bi k (StringIO.write stdout s) stdin
  | StdoutSeek pos k => exec bi k (Streams.seek stdout pos) stdin
  | StdoutTruncate size k => exec bi k (Streams.truncate stdout size) stdin
  | CallInput prompt k =>
      match Guards.input_raises bi with
      | Some msg => exec bi (k (Refused msg)) stdout stdin
      | None =>
          let stdout := StringIO.write stdout prompt in
          let '(data, stdin) := StringIO.readline stdin None in
          match data with
          | [] => exec bi (k AtEnd) stdout stdin
          | _ => exec bi (k (Line (chomp data))) stdout stdin
          end
      end
  | StdinRead size k =>
      let '(data, stdin) := StringIO.read stdin size in exec bi (k data) stdout stdin
  | StdinReadline size k =>
      let '(data, stdin) := StringIO.readline stdin size in exec bi (k data) stdout stdin
  | StdinNext k => let '(line, stdin) := Streams.next stdin in exec bi (k line) stdout stdin
  | StdinReadlines k =>
      let '(ls, stdin) := Streams.readlines stdin in exec bi (k ls) stdout stdin
  | StdinSeek pos k => exec bi k stdout (Streams.seek stdin pos)
  | Inspect k => exec bi (k stdout stdin) stdout stdin
  end.

(** [with self.assertNoPrint(print_func_okay, msg): body] *)
Definition assertNoPrint {R} (print_func_okay : bool) (msg : str) (b : body R)
    (stdin : StringIO.t) : result R :=
  let bi := Guards.Builtins (if print_func_okay then None else Some msg) None in
  let '(r, output, _) := exec bi b (StringIO.open []) stdin in
  match StringIO.getvalue output with
  | [] => r
  | _ => Failure msg
  end.

(** Whether the run gets to write a non-empty text to [sys.stdout]: by
    [write], through a [print] that is the builtin, or as the prompt of an
    [input] that is the builtin. *)
Fixpoint writes_text {R} (bi : Guards.builtins) (b : body R) (stdout stdin : StringIO.t)
  : bool :=
  match b with
  | Done _ | Throw _ | Fail _ => false
  | CallPrint text k =>
      match Guards.print_raises bi with
      | Some msg => writes_text bi (k (Some msg)) stdout stdin
      | None =>
          negb (bool_decide (text = []))
          || writes_text bi (k None) (StringIO.write stdout text) stdin
      end
  | StdoutWrite s k =>
      negb (bool_decide (s = [])) || writes_text bi k (StringIO.write stdout s) stdin
  | StdoutSeek pos k => writes_text bi k (Streams.seek stdout pos) stdin
  | StdoutTruncate size k => writes_text bi k (Streams.truncate stdout size) stdin
  | CallInput prompt k =>
      match Guards.input_raises bi with
      | Some msg => writes_text bi (k (Refused msg)) stdout stdin
      | None =>
          negb (bool_decide (prompt = []))
          || (let stdout := StringIO.write stdout prompt in
              let '(data, stdin) := StringIO.readline stdin None in
              match data with
              | [] => writes_text bi (k AtEnd) stdout stdin
              | _ => writes_text bi (k (Line (chomp data))) stdout stdin
              end)
      end
  | StdinRead size k =>
      let '(data, stdin) := StringIO.read stdin size in writes_text bi (k data) stdout stdin
  | StdinReadline size k =>
      let '(data, stdin) := StringIO.readline stdin size in
      writes_text bi (k data) stdout stdin
  | StdinNext k =>
      let '(line, stdin) := Streams.next stdin in writes_text bi (k line) stdout stdin
  | StdinReadlines k =>
      let '(ls, stdin) := Streams.readlines stdin in writes_text bi (k ls) stdout stdin
  | StdinSeek pos k => writes_text bi k stdout (Streams.seek stdin pos)
  | Inspect k => writes_text bi (k stdout stdin) stdout stdin
  end.

(** Whether the run gets to no [truncate] of [sys.stdout]. *)
Fixpoint never_truncates {R} (bi : Guards.builtins) (b : body R) (stdout stdin : StringIO.t)
  : bool :=
  match b with
  | Done _ | Throw _ | Fail _ => true
  | CallPrint text k =>
      match Guards.print_raises bi with
      | Some msg => never_truncates bi (k (Some msg)) stdout stdin
      | None => never_truncates bi (k None) (StringIO.write stdout text) stdin
      end
  | StdoutWrite s k => never_truncates bi k (StringIO.write stdout s) stdin
  | StdoutSeek pos k => never_truncates bi k (Streams.seek stdout pos) stdin
  | StdoutTruncate _ _ => false
  | CallInput prompt k =>
      match Guards.input_raises bi with
      | Some msg => never_truncates bi (k (Refused msg)) stdout stdin
      | None =>
          let stdout := StringIO.write stdout prompt in
          let '(data, stdin) := StringIO.readline stdin None in
          match data with
          | [] => never_truncates bi (k AtEnd) stdout stdin
          | _ => never_truncates bi (k (Line (chomp data))) stdout stdin
          end
      end
  | StdinRead size k =>
      let '(data, stdin) := StringIO.read stdin size in
      never_truncates bi (k data) stdout stdin
  | StdinReadline size k =>
      let '(data, stdin) := StringIO.readline stdin size in
      never_truncates bi (k data) stdout stdin
  | StdinNext k =>
      let '(line, stdin) := Streams.next stdin in never_truncates bi (k line) stdout stdin
  | StdinReadlines k =>
      let '(ls, stdin) := Streams.readlines stdin in never_truncates bi (k ls) stdout stdin
  | StdinSeek pos k => never_truncates bi k stdout (Streams.seek stdin pos)
  | Inspect k => never_truncates bi (k stdout stdin) stdout stdin
  end.

(** A body of [Guards.body] as one that lets every exception through. *)
Fixpoint embed {R} (b : Guards.body R) : body R :=
  match b with
  | Guards.Done retval => Done retval
  | Guards.Throw e => Throw e
  | Guards.CallPrint text k =>
      CallPrint text (fun raised =>
        match raised with
        | Some helpful_msg => Fail helpful_msg
        | None => embed k
        end)
  | Guards.StdoutWrite s k => StdoutWrite s (embed k)
  | Guards.CallInput prompt k =>
      CallInput prompt (fun r =>
        match r with
        | Line data => embed (k data)
        | AtEnd => Throw EOFError
        | Refused helpful_msg => Fail helpful_msg
        end)
  | Guards.StdinRead size k => StdinRead size (fun data => embed (k data))
  | Guards.StdinReadline size k => StdinReadline size (fun data => embed (k data))
  end.

(** A body that calls [print] inside a [try] that swallows every
    exception, and returns. *)
Definition print_in_try : body unit := CallPrint (s2l "hi" ++ [NL]) (fun _ => Done tt).

(** A body that writes to [sys.stdout] and then empties it with
    [truncate(0)]. *)
Definition write_then_truncate : body unit :=
  StdoutWrite (s2l "hi") (StdoutTruncate (Some 0) (Done tt)).

(** A body that writes to [sys.stdout], moves it, handles the failure of
    [print], and raises. *)
Definition write_seek_raise : body unit :=
  StdoutWrite (s2l "hi") (StdoutSeek 0 (CallPrint (s2l "x") (fun _ =>
    Throw (OtherException (s2l "ValueError"))))).

End Guarded.

(** * Part II: theorems *)


Lemma str_eqb_refl (x : str) : str_eqb x x = true.
Proof. unfold str_eqb. by apply bool_decide_eq_true_2. Qed.

Lemma str_eqb_false (x y : str) : x ≠ y → str_eqb x y = false.
Proof. intros H. unfold str_eqb. by apply bool_decide_eq_false_2. Qed.

Module StyledFacts.
Import Markers Html Styled.

(** The loop of [__bold] as a comprehension. *)
Lemma bold_with_concat (c : Z) (t : str) :
  bold_with c t = concat (map (fun ch => [c; bold_char ch]) t).
Proof.
  unfold bold_with.
  enough (H : ∀ acc, fold_left (fun output ch => output ++ [c] ++ [bold_char ch]) t acc
                     = acc ++ concat (map (fun ch => [c; bold_char ch]) t))
    by apply (H []).
  induction t as [|x t IH]; intros acc; simpl.
  - by rewrite app_nil_r.
  - rewrite IH. by rewrite <- app_assoc.
Qed.

Lemma is_marker_of (s : style) : is_marker (marker_of s) = true.
Proof. by destruct s. Qed.

Lemma is_marker_false (c : Z) :
  is_marker c = false → c ≠ WORD_JOINER ∧ c ≠ DOUBLE_LOW_LINE ∧ c ≠ TILDE_OVERLAY.
Proof.
  unfold is_marker. rewrite !orb_false_iff, !Z.eqb_neq. tauto.
Qed.

Lemma bold_char_not_marker (c : Z) : is_marker c = false → is_marker (bold_char c) = false.
Proof.
  intros H. unfold bold_char.
  repeat case_match; try done; clear H;
    unfold is_marker, WORD_JOINER, DOUBLE_LOW_LINE, TILDE_OVERLAY; lia.
Qed.

Lemma escape_bold_char (c : Z) : escape_char (bold_char c) = escape_char c.
Proof.
  unfold escape_char, ch_map, bold_char, debold.
  repeat case_match; simplify_eq; try done; try (exfalso; lia); try (f_equal; lia).
Qed.

Lemma escape_char_not_marker (c m : Z) :
  is_marker c = false → is_marker m = true → escape_char c ≠ [m].
Proof.
  intros Hc Hm. apply is_marker_false in Hc.
  unfold is_marker in Hm. rewrite !orb_true_iff, !Z.eqb_eq in Hm.
  unfold WORD_JOINER, DOUBLE_LOW_LINE, TILDE_OVERLAY in *.
  unfold escape_char, ch_map, debold.
  repeat case_match; simplify_eq; try done; intros [=]; lia.
Qed.

Lemma encode_segment_marked (s : style) (t : str) :
  encode_segment (Some s, t) = marked s t.
Proof.
  destruct s; simpl; try done.
  unfold bold. by rewrite bold_with_concat.
Qed.

Lemma tr_not_marker (s : style) (c : Z) : is_marker c = false → is_marker (tr s c) = false.
Proof. destruct s; simpl; auto using bold_char_not_marker. Qed.

Lemma escape_tr (s : style) (c : Z) : escape_char (tr s c) = escape_char c.
Proof. destruct s; simpl; auto using escape_bold_char. Qed.

Lemma nonmarker_last_neq (l : str) (s : style) : nonmarker_last l → l ≠ [marker_of s].
Proof.
  intros (x & -> & Hx) [= ->]. by rewrite is_marker_of in Hx.
Qed.

Lemma conv_finish_st_of (out : str) (o : option style) (l : str) :
  conv_finish (st_of out o l) = out ++ pending o ++ s2l "</pre>".
Proof.
  destruct o as [[]|]; unfold conv_finish; simpl; by rewrite <- ?app_assoc.
Qed.

Ltac fold_escape c :=
  change (match ch_map c with Some r => r | None => [debold c] end) with (escape_char c).

(** A character of the plain text closes the style that is still open. *)
Lemma plain_step (out : str) (o : option style) (l : str) (c : Z) :
  is_marker c = false →
  (∀ s, o = Some s → l ≠ [marker_of s]) →
  conv_step (st_of out o l) c = st_of (out ++ pending o ++ escape_char c) None [c].
Proof.
  intros Hc Hl.
  pose proof (escape_char_not_marker c WORD_JOINER Hc eq_refl) as E1.
  pose proof (escape_char_not_marker c DOUBLE_LOW_LINE Hc eq_refl) as E2.
  pose proof (escape_char_not_marker c TILDE_OVERLAY Hc eq_refl) as E3.
  unfold conv_step. fold_escape c. unfold styling, st_of; simpl.
  destruct o as [[]|]; simpl.
  - specialize (Hl Bold eq_refl). simpl in Hl.
    rewrite (str_eqb_false _ _ E1), (str_eqb_false _ _ Hl). simpl.
    done.
  - specialize (Hl Underline eq_refl). simpl in Hl.
    rewrite (str_eqb_false _ _ E1), (str_eqb_false _ _ E2), (str_eqb_false _ _ Hl). simpl.
    done.
  - specialize (Hl Strikethrough eq_refl). simpl in Hl.
    rewrite (str_eqb_false _ _ E1), (str_eqb_false _ _ E2), (str_eqb_false _ _ E3),
      (str_eqb_false _ _ Hl). done.
  - by rewrite (str_eqb_false _ _ E1), (str_eqb_false _ _ E2), (str_eqb_false _ _ E3).
Qed.

(** A marker met while no style is active opens its style. *)
Lemma marker_step_open (out : str) (s : style) (l : str) :
  conv_step (st_of out None l) (marker_of s)
  = st_of (out ++ open_tag s) (Some s) [marker_of s].
Proof. by destruct s. Qed.

(** A marker of the active style emits nothing. *)
Lemma marker_step_cont (out : str) (s : style) (l : str) :
  conv_step (st_of out (Some s) l) (marker_of s) = st_of out (Some s) [marker_of s].
Proof.
  destruct s; unfold conv_step, st_of; simpl; by rewrite ?app_nil_r.
Qed.

(** The character that follows a marker of the active style is emitted
    escaped, and the style stays active. *)
Lemma char_after_marker (out : str) (s : style) (c : Z) :
  is_marker c = false →
  conv_step (st_of out (Some s) [marker_of s]) c
  = st_of (out ++ escape_char c) (Some s) [c].
Proof.
  intros Hc.
  pose proof (escape_char_not_marker c WORD_JOINER Hc eq_refl) as E1.
  pose proof (escape_char_not_marker c DOUBLE_LOW_LINE Hc eq_refl) as E2.
  pose proof (escape_char_not_marker c TILDE_OVERLAY Hc eq_refl) as E3.
  unfold conv_step. fold_escape c. unfold styling, st_of.
  destruct s; simpl;
    by rewrite (str_eqb_false _ _ E1), (str_eqb_false _ _ E2), (str_eqb_false _ _ E3),
      ?str_eqb_refl.
Qed.

Lemma conv_loop_app (st : conv) (t1 t2 : str) :
  conv_loop st (t1 ++ t2) = conv_loop (conv_loop st t1) t2.
Proof. apply fold_left_app. Qed.

Lemma escape_cons (c : Z) (t : str) : escape (c :: t) = escape_char c ++ escape t.
Proof. reflexivity. Qed.

Lemma plain_run_idle (t : str) : ∀ (out l : str),
  marker_free t = true →
  ∃ l', conv_loop (st_of out None l) t = st_of (out ++ escape t) None l'.
Proof.
  induction t as [|c t IH]; intros out l Hfree.
  - exists l. simpl. by rewrite app_nil_r.
  - simpl in Hfree. apply andb_true_iff in Hfree as [Hc Hfree].
    apply negb_true_iff in Hc.
    simpl. rewrite (plain_step out None l c Hc) by done.
    destruct (IH (out ++ pending None ++ escape_char c) [c] Hfree) as [l' ->].
    exists l'. rewrite escape_cons. simpl. by rewrite <- app_assoc.
Qed.

Lemma plain_run (t : str) (out : str) (o : option style) (l : str) :
  t ≠ [] → marker_free t = true →
  (∀ s, o = Some s → l ≠ [marker_of s]) →
  ∃ l', conv_loop (st_of out o l) t = st_of (out ++ pending o ++ escape t) None l'.
Proof.
  destruct t as [|c t]; [done|]. intros _ Hfree Hl.
  simpl in Hfree. apply andb_true_iff in Hfree as [Hc Hfree].
  apply negb_true_iff in Hc.
  simpl. rewrite (plain_step _ _ _ _ Hc Hl).
  destruct (plain_run_idle t (out ++ pending o ++ escape_char c) [c] Hfree) as [l' ->].
  exists l'. rewrite escape_cons. by rewrite <- !app_assoc.
Qed.

(** Inside a span: every marked character is emitted escaped. *)
Lemma marked_run_cont (s : style) (t : str) : ∀ (out l : str),
  marker_free t = true → nonmarker_last l →
  ∃ l', conv_loop (st_of out (Some s) l) (marked s t) = st_of (out ++ escape t) (Some s) l'
        ∧ nonmarker_last l'.
Proof.
  induction t as [|c t IH]; intros out l Hfree Hl.
  - exists l. simpl. by rewrite app_nil_r.
  - simpl in Hfree. apply andb_true_iff in Hfree as [Hc Hfree].
    apply negb_true_iff in Hc.
    unfold marked. simpl. fold (marked s t).
    rewrite marker_step_cont.
    rewrite (char_after_marker _ _ _ (tr_not_marker s c Hc)), escape_tr.
    destruct (IH (out ++ escape_char c) [tr s c] Hfree) as (l' & -> & Hl').
    { exists (tr s c). split; [done|]. by apply tr_not_marker. }
    exists l'. split; [|done]. rewrite escape_cons. by rewrite <- app_assoc.
Qed.

(** A whole non-empty span met while no style is active. *)
Lemma marked_run (s : style) (t : str) (out l : str) :
  t ≠ [] → marker_free t = true →
  ∃ l', conv_loop (st_of out None l) (marked s t)
        = st_of (out ++ open_tag s ++ escape t) (Some s) l'
        ∧ nonmarker_last l'.
Proof.
  destruct t as [|c t]; [done|]. intros _ Hfree.
  simpl in Hfree. apply andb_true_iff in Hfree as [Hc Hfree].
  apply negb_true_iff in Hc.
  unfold marked. simpl. fold (marked s t).
  rewrite marker_step_open.
  rewrite (char_after_marker _ _ _ (tr_not_marker s c Hc)), escape_tr.
  destruct (marked_run_cont s t ((out ++ open_tag s) ++ escape_char c) [tr s c] Hfree)
    as (l' & -> & Hl').
  { exists (tr s c). split; [done|]. by apply tr_not_marker. }
  exists l'. split; [|done]. rewrite escape_cons. by rewrite <- !app_assoc.
Qed.

(** The decoder on an encoded document, from any state the scan of a
    well-formed document can be in. *)
Lemma convert_encode_from (segs : list segment) : ∀ (adjacent : bool) (out : str)
    (o : option style) (l : str),
  (if adjacent then is_Some o ∧ nonmarker_last l else o = None) →
  well_formed_from adjacent segs = true →
  conv_finish (conv_loop (st_of out o l) (encode segs))
  = out ++ pending o ++ concat (map render_segment segs) ++ s2l "</pre>".
Proof.
  induction segs as [|[os t] segs IH]; intros adjacent out o l Hst Hwf.
  - simpl. apply conv_finish_st_of.
  - change (encode ((os, t) :: segs)) with (encode_segment (os, t) ++ encode segs).
    change (concat (map render_segment ((os, t) :: segs)))
      with (render_segment (os, t) ++ concat (map render_segment segs)).
    rewrite conv_loop_app.
    destruct t as [|c t].
    + assert (encode_segment (os, []) = []) as -> by by destruct os as [[]|].
      assert (render_segment (os, []) = []) as -> by by destruct os as [[]|].
      simpl. apply (IH adjacent); [done|]. by destruct os.
    + destruct os as [s|].
      * simpl in Hwf. apply andb_true_iff in Hwf as [Hwf Hrest].
        apply andb_true_iff in Hwf as [Hfree Hadj].
        apply negb_true_iff in Hadj. subst adjacent o.
        rewrite encode_segment_marked.
        destruct (marked_run s (c :: t) out l) as (l' & -> & Hl'); [done..|].
        rewrite (IH true); [|by eauto|done].
        change (render_segment (Some s, c :: t))
          with (open_tag s ++ escape (c :: t) ++ close_tag s).
        simpl pending. by rewrite <- !app_assoc.
      * simpl in Hwf. apply andb_true_iff in Hwf as [Hfree Hrest].
        change (encode_segment (None, c :: t)) with (c :: t).
        destruct (plain_run (c :: t) out o l) as [l' ->]; [done..| |].
        { intros s ->. destruct adjacent; [|done].
          destruct Hst as [_ Hl]. by apply nonmarker_last_neq. }
        rewrite (IH false); [|done..].
        change (render_segment (None, c :: t)) with (escape (c :: t)).
        simpl pending. by rewrite <- !app_assoc.
Qed.

(** Text without markers is only escaped. *)
Lemma convert_to_html_plain (t : str) :
  marker_free t = true →
  convert_to_html t = s2l "<pre>" ++ escape t ++ s2l "</pre>".
Proof.
  intros Hfree. unfold convert_to_html.
  change conv_init with (st_of (s2l "<pre>") None []).
  destruct (plain_run_idle t (s2l "<pre>") [] Hfree) as [l' ->].
  rewrite conv_finish_st_of. simpl pending. by rewrite <- app_assoc.
Qed.

(** The text between the tags of a rendered document is the escaped plain
    text. *)
Lemma escape_plain_of (segs : list segment) :
  concat (map (fun sg => escape (snd sg)) segs) = escape (plain_of segs).
Proof.
  unfold escape, plain_of. induction segs as [|[o t] segs IH]; simpl; [done|].
  by rewrite map_app, concat_app, IH.
Qed.

(** C1. Round trip of the style-marker codec: a document whose text holds
    none of the three marker characters and whose styled spans (bold,
    underline, strikethrough) never touch, once encoded with the marker
    helpers and decoded by the HTML converter, gives back its plain text
    character for character through the fixed escaping map, each
    non-empty span between the opening and closing tag of its style, the
    whole inside a pre block. *)
Theorem convert_to_html_encode_roundtrip (segs : list segment) :
  well_formed segs = true →
  convert_to_html (encode segs) = render segs.
Proof.
  intros Hwf. unfold convert_to_html, render.
  change conv_init with (st_of (s2l "<pre>") None []).
  by rewrite (convert_encode_from segs false).
Qed.

Lemma convert_to_html_encode_roundtrip_witness :
  well_formed [(None, s2l "a<b"); (Some Bold, s2l "x1"); (None, s2l "-");
               (Some Underline, s2l "uu"); (None, [NL]);
               (Some Strikethrough, s2l "z")] = true
  ∧ convert_to_html (encode [(None, s2l "a<b"); (Some Bold, s2l "x1"); (None, s2l "-");
               (Some Underline, s2l "uu"); (None, [NL]);
               (Some Strikethrough, s2l "z")])
    = render [(None, s2l "a<b"); (Some Bold, s2l "x1"); (None, s2l "-");
               (Some Underline, s2l "uu"); (None, [NL]);
               (Some Strikethrough, s2l "z")].
Proof.
  split; [reflexivity|].
  apply convert_to_html_encode_roundtrip. reflexivity.
Defined.

(** Without the separation the round trip is lost: after a bold span the
    marker of an underlined span closes the bold style and is then emitted
    as it is, so the underline is never opened. *)
Lemma adjacent_spans_lose_the_second :
  well_formed [(Some Bold, s2l "x"); (Some Underline, s2l "u")] = false
  ∧ convert_to_html (encode [(Some Bold, s2l "x"); (Some Underline, s2l "u")])
    = s2l "<pre>" ++ b_ ++ s2l "x</b>" ++ [DOUBLE_LOW_LINE] ++ s2l "u</pre>".
Proof. split; reflexivity. Qed.

End StyledFacts.

Module StringIOFacts.
Import StringIO.
Local Open Scope nat_scope.

(** Writing at the end of the buffer appends. *)
Lemma write_at_end (f : t) (s : str) :
  pos f = length (value f) →
  write f s = Make (value f ++ s) (length (value f ++ s)).
Proof.
  intros Hpos. unfold write. destruct s as [|c s].
  { rewrite app_nil_r, <- Hpos. by destruct f. }
  rewrite Hpos, Nat.sub_diag. simpl repeat.
  rewrite app_nil_r, take_ge, drop_ge, app_nil_r, length_app by lia.
  done.
Qed.

Lemma limit_prefix (size : option Z) (s : str) : limit size s `prefix_of` s.
Proof.
  unfold limit. destruct size as [n|]; [|done].
  destruct (n <? 0)%Z; [done|]. apply prefix_take.
Qed.

Lemma first_line_prefix (s : str) : first_line s `prefix_of` s.
Proof.
  induction s as [|c s IH]; simpl; [done|].
  destruct (c =? NL)%Z.
  - by apply prefix_cons, prefix_nil.
  - by apply prefix_cons.
Qed.

(** Both kinds of read return text that stands at the position, leave
    the buffer alone and advance by what they returned. *)
Lemma read_spec (f : t) (size : option Z) :
  let '(data, f') := read f size in
  value f' = value f ∧ pos f' = pos f + length data
  ∧ data `prefix_of` drop (pos f) (value f).
Proof. simpl. split_and!; [done..|]. apply limit_prefix. Qed.

Lemma readline_spec (f : t) (size : option Z) :
  let '(data, f') := readline f size in
  value f' = value f ∧ pos f' = pos f + length data
  ∧ data `prefix_of` drop (pos f) (value f).
Proof.
  simpl. split_and!; [done..|].
  etrans; [apply limit_prefix|apply first_line_prefix].
Qed.

(** Reading everything from a position inside the buffer. *)
Lemma read_all (f : t) :
  read f None = (drop (pos f) (value f), Make (value f) (pos f + length (drop (pos f) (value f)))).
Proof. reflexivity. Qed.

End StringIOFacts.

Module SessionFacts.
Import PyStr Utils Session StringIOFacts.
Local Open Scope nat_scope.

#[local] Arguments _read : simpl never.
#[local] Arguments _readline : simpl never.

Lemma ordered_disjoint_snoc (ranges : list (nat * nat)) (start len : nat) :
  ordered_disjoint ranges →
  Forall (fun r => fst r + snd r <= start) ranges →
  ordered_disjoint (ranges ++ [(start, len)]).
Proof.
  induction ranges as [|[s l] ranges IH]; simpl; intros Hord Hin.
  - by split.
  - destruct Hord as [Hall Hord]. apply Forall_cons in Hin as [Hsl Hin]. simpl in Hsl.
    split; [|by apply IH].
    apply Forall_app. split; [done|]. by apply Forall_singleton.
Qed.

Lemma ordered_disjoint_sorted (ranges : list (nat * nat)) :
  ordered_disjoint ranges → StronglySorted (fun r1 r2 => fst r1 <= fst r2) ranges.
Proof.
  induction ranges as [|[s l] ranges IH]; simpl; intros Hord.
  - constructor.
  - destruct Hord as [Hall Hord]. constructor; [by apply IH|].
    eapply Forall_impl; [exact Hall|]. simpl. intros r Hr. lia.
Qed.

Lemma start_inv (inpt : str) : inv inpt (start inpt).
Proof. split; simpl; try done. lia. Qed.

Lemma write_inv (inpt : str) (ss : session) (s : str) :
  inv inpt ss →
  inv inpt (Session (StringIO.write (out ss) s) (in_ ss) (inpt_ranges ss)).
Proof.
  intros [Ho Hv Hp Hord Hin].
  rewrite (write_at_end _ _ Ho). split; simpl; try done.
  eapply Forall_impl; [exact Hin|]. simpl. intros r Hr. rewrite length_app. lia.
Qed.

(** The step shared by [_read] and [_readline]: echo [data] into the
    sink and record where it went. *)
Lemma echo_inv (inpt : str) (ss : session) (data : str) (in' : StringIO.t) :
  inv inpt ss →
  StringIO.value in' = StringIO.value (in_ ss) →
  StringIO.pos in' = StringIO.pos (in_ ss) + length data →
  data `prefix_of` drop (StringIO.pos (in_ ss)) (StringIO.value (in_ ss)) →
  inv inpt (Session (StringIO.write (out ss) data) in'
              (inpt_ranges ss ++ [(length (StringIO.getvalue (out ss)), length data)])).
Proof.
  intros [Ho Hv Hp Hord Hin] Hv' Hp' Hpre.
  rewrite (write_at_end _ _ Ho). split; simpl.
  - done.
  - congruence.
  - apply prefix_length in Hpre. rewrite length_drop, Hv in Hpre. lia.
  - by apply ordered_disjoint_snoc.
  - apply Forall_app. split.
    + eapply Forall_impl; [exact Hin|]. simpl. intros r Hr. rewrite length_app. lia.
    + apply Forall_singleton. simpl. unfold StringIO.getvalue. by rewrite length_app.
Qed.

Lemma _read_inv (inpt : str) (ss : session) (size : option Z) :
  inv inpt ss → inv inpt (_read size ss).2.
Proof.
  intros Hinv. unfold _read.
  pose proof (read_spec (in_ ss) size) as Hspec.
  destruct (StringIO.read (in_ ss) size) as [data in'].
  destruct Hspec as (Hv & Hp & Hpre). simpl. by apply echo_inv.
Qed.

Lemma _readline_inv (inpt : str) (ss : session) (size : option Z) :
  inv inpt ss → inv inpt (_readline size ss).2.
Proof.
  intros Hinv. unfold _readline.
  pose proof (readline_spec (in_ ss) size) as Hspec.
  destruct (StringIO.readline (in_ ss) size) as [data in'].
  destruct Hspec as (Hv & Hp & Hpre). simpl. by apply echo_inv.
Qed.

Lemma _read_ranges (ss : session) (size : option Z) :
  inpt_ranges (_read size ss).2
  = inpt_ranges ss ++ [(length (StringIO.getvalue (out ss)), length (_read size ss).1)].
Proof. unfold _read. by destruct (StringIO.read (in_ ss) size). Qed.

Lemma _readline_ranges (ss : session) (size : option Z) :
  inpt_ranges (_readline size ss).2
  = inpt_ranges ss ++ [(length (StringIO.getvalue (out ss)), length (_readline size ss).1)].
Proof. unfold _readline. by destruct (StringIO.readline (in_ ss) size). Qed.

(** The invariant is kept by every program. *)
Lemma run_inv {R} (inpt : str) (p : prog R) : ∀ ss, inv inpt ss → inv inpt (run p ss).2.
Proof.
  induction p as [r|e|s k IH|size k IH|size k IH]; intros ss Hinv; cbn [run reads fst snd].
  - done.
  - done.
  - by apply IH, write_inv.
  - pose proof (_read_inv inpt ss size Hinv) as H'.
    destruct (_read size ss) as [data ss']. apply IH, H'.
  - pose proof (_readline_inv inpt ss size Hinv) as H'.
    destruct (_readline size ss) as [data ss']. apply IH, H'.
Qed.

(** The ranges a run appends, one for each call, with the length of what
    the call returned. *)
Lemma run_ranges {R} (p : prog R) : ∀ ss,
  ∃ new, inpt_ranges (run p ss).2 = inpt_ranges ss ++ new
         ∧ Forall2 (fun r data => snd r = length data) new (reads p ss).
Proof.
  induction p as [r|e|s k IH|size k IH|size k IH]; intros ss; cbn [run reads fst snd].
  - exists []. by rewrite app_nil_r.
  - exists []. by rewrite app_nil_r.
  - destruct (IH (Session (StringIO.write (out ss) s) (in_ ss) (inpt_ranges ss)))
      as (new & Heq & Hall). by exists new.
  - pose proof (_read_ranges ss size) as Hr.
    destruct (_read size ss) as [data ss']. simpl in Hr.
    destruct (IH data ss') as (new & Heq & Hall).
    exists ((length (StringIO.getvalue (out ss)), length data) :: new). split.
    + rewrite Heq, Hr. by rewrite <- app_assoc.
    + by constructor.
  - pose proof (_readline_ranges ss size) as Hr.
    destruct (_readline size ss) as [data ss']. simpl in Hr.
    destruct (IH data ss') as (new & Heq & Hall).
    exists ((length (StringIO.getvalue (out ss)), length data) :: new). split.
    + rewrite Heq, Hr. by rewrite <- app_assoc.
    + by constructor.
Qed.

(** The helper's own [in_.read()] goes through the wrapper too: it
    returns what the function left unread, echoes it and records it. *)
Lemma final_read (inpt : str) (ss : session) :
  inv inpt ss →
  _read None ss
  = (drop (StringIO.pos (in_ ss)) inpt,
     Session (StringIO.Make
                (StringIO.value (out ss) ++ drop (StringIO.pos (in_ ss)) inpt)
                (length (StringIO.value (out ss) ++ drop (StringIO.pos (in_ ss)) inpt)))
             (StringIO.Make inpt
                (StringIO.pos (in_ ss) + length (drop (StringIO.pos (in_ ss)) inpt)))
             (inpt_ranges ss
              ++ [(length (StringIO.value (out ss)),
                   length (drop (StringIO.pos (in_ ss)) inpt))])).
Proof.
  intros [Ho Hv Hp Hord Hin]. unfold _read. rewrite read_all, Hv.
  by rewrite (write_at_end _ _ Ho).
Qed.

(** The ranges [__check_input] hands on are those of the run and the one of
    its own last read; they are in order and disjoint as well. *)
Lemma check_input_ranges {R} (call : str) (func : prog R) (inpt : str) :
  match check_input call func inpt with
  | Pass (_, _, _, ranges) => ordered_disjoint ranges
  | _ => True
  end.
Proof.
  unfold check_input.
  pose proof (run_inv inpt func (start inpt) (start_inv inpt)) as Hinv.
  destruct (run func (start inpt)) as [[retval|[|e]] ss]; cbn [fst snd] in *; try done.
  destruct (StringIO.tell (in_ ss) =? 0); [done|].
  pose proof (_read_inv inpt ss None Hinv) as Hinv'.
  destruct (_read None ss) as [[|c rem] ss']; [|done].
  apply Hinv'.
Qed.

Lemma before_rem_consumed (inpt : str) (n : nat) :
  n <= length inpt → before_rem inpt (drop n inpt) = take n inpt.
Proof.
  intros Hn. unfold before_rem. rewrite length_drop. f_equal. lia.
Qed.

Lemma check_input_verdict {R} (call : str) (func : prog R) (inpt : str) :
  check_input call func inpt = input_verdict call func inpt.
Proof.
  unfold check_input, input_verdict.
  pose proof (run_inv inpt func (start inpt) (start_inv inpt)) as Hinv.
  destruct (run func (start inpt)) as [[retval|e] ss]; cbn [fst snd] in *; [|done].
  destruct (StringIO.tell (in_ ss) =? 0) eqn:Hzero; [done|].
  rewrite (final_read inpt ss Hinv).
  pose proof (inv_in_pos _ _ Hinv) as Hpos. unfold StringIO.tell in *.
  destruct (StringIO.pos (in_ ss) <? length inpt) eqn:Hlt.
  - apply Nat.ltb_lt in Hlt.
    destruct (drop (StringIO.pos (in_ ss)) inpt) as [|c rem] eqn:Hrem.
    + apply (f_equal length) in Hrem. rewrite length_drop in Hrem. simpl in Hrem. lia.
    + rewrite <- Hrem, before_rem_consumed by done. done.
  - apply Nat.ltb_ge in Hlt. rewrite drop_ge by done. simpl.
    by rewrite app_nil_r.
Qed.

Lemma input_at_end {R} (prompt : str) (k : str → prog R) (ss : session) :
  length (StringIO.value (in_ ss)) <= StringIO.pos (in_ ss) →
  (run (input prompt k) ss).1 = Raised EOFError.
Proof.
  intros Hend. unfold input. cbn [run]. unfold _readline, StringIO.readline.
  cbn [in_ out inpt_ranges]. rewrite drop_ge by done. done.
Qed.

(** C2, as the code has it: in the session whose function reads once with
    read-line, receiving [5\n], and then writes [You entered 5\n], the sink
    holds [5\nYou entered 5\n] and the one range (0, 2) is recorded when the
    function returns; the helper then hands on the output with its trailing
    whitespace stripped, and the ranges with the empty range (16, 0) that
    its own read of the leftover input records. *)
Theorem read_line_scenario {R} (call : str) (retval : R) :
  let inpt := s2l "5" ++ [NL] in
  reads (read_then_greet retval) (start inpt) = [inpt]
  ∧ run (read_then_greet retval) (start inpt)
    = (Returned retval,
       Session (StringIO.Make (s2l "5" ++ [NL] ++ s2l "You entered 5" ++ [NL]) 16)
               (StringIO.Make inpt 2) [(0, 2)])
  ∧ check_input call (read_then_greet retval) inpt
    = Pass (input_msg call inpt, retval, s2l "5" ++ [NL] ++ s2l "You entered 5",
            [(0, 2); (16, 0)]).
Proof. split_and!; reflexivity. Qed.

(** C2 as stated fails on what the helper returns: it is not the unstripped
    text with the single range. *)
Lemma read_line_scenario_not_as_stated :
  ¬ ∃ msg : str,
      check_input [] (read_then_greet tt) (s2l "5" ++ [NL])
      = Pass (msg, tt, s2l "5" ++ [NL] ++ s2l "You entered 5" ++ [NL], [(0, 2)]).
Proof. intros [msg H]. vm_compute in H. discriminate H. Qed.

End SessionFacts.

Module DiffFacts.
Import Markers Diff.

Lemma Qltb_lt (x y : Q) : Qltb x y = true ↔ (x < y)%Q.
Proof.
  unfold Qltb. rewrite negb_true_iff. split.
  - intros H. apply Qnot_le_lt. intros Hle. apply Qle_bool_iff in Hle. congruence.
  - intros H. destruct (Qle_bool y x) eqn:E; [|done].
    apply Qle_bool_iff in E. by apply Qlt_not_le in H.
Qed.

Section RendererFacts.
Context (chars : SequenceMatcher Z).

(** C4. The single-span diff returns the sentinel [None] exactly when the
    threshold is greater than 0 and the similarity ratio of the two strings
    is at most the threshold; with threshold 0 it never returns it. *)
Theorem diff_line_none_iff (a b : str) :
  (∀ limit : Q,
     diff_line chars a b limit = None ↔ (0 < limit)%Q ∧ (ratio chars a b <= limit)%Q)
  ∧ diff_line chars a b 0 ≠ None.
Proof.
  assert (H : ∀ limit : Q,
    diff_line chars a b limit = None ↔ (0 < limit)%Q ∧ (ratio chars a b <= limit)%Q).
  { intros limit. unfold diff_line.
    rewrite <- Qltb_lt, <- Qle_bool_iff, <- andb_true_iff.
    by destruct (Qltb 0 limit && Qle_bool (ratio chars a b) limit). }
  split; [exact H|].
  intros Hnone. apply H in Hnone as [Hlt _]. by apply Qlt_irrefl in Hlt.
Qed.

(** Rendering opcodes that are all [equal] copies their ranges of [a]. *)
Lemma render_equal_opcodes (a b : str) (ops : list opcode) : ∀ out : str,
  Forall (fun op => op_tag op = equal) ops →
  fold_left (fun out op =>
    match op_tag op with
    | equal => out ++ slice a (i1 op) (i2 op)
    | delete => out ++ strikethrough (slice a (i1 op) (i2 op))
    | insert => out ++ underline (slice b (j1 op) (j2 op))
    | replace => (out ++ strikethrough (slice a (i1 op) (i2 op)))
                 ++ underline (slice b (j1 op) (j2 op))
    end) ops out
  = out ++ concat (map (fun op => slice a (i1 op) (i2 op)) ops).
Proof.
  induction ops as [|op ops IH]; intros out Hall; simpl.
  - by rewrite app_nil_r.
  - apply Forall_cons in Hall as [Hop Hall]. rewrite Hop, IH by done.
    by rewrite <- app_assoc.
Qed.

(** C5. Diffing a string against itself gives the string back, with no
    strikethrough or underline marker, for every threshold below 1, the
    matcher recognising identical sequences as [difflib]'s does. *)
Theorem diff_line_identical (a : str) (t : Q) :
  (t < 1)%Q →
  recognises_identical chars a →
  diff_line chars a a t = Some a.
Proof.
  intros Ht (Hratio & Hequal & Hcover). unfold diff_line.
  assert (Qle_bool (ratio chars a a) t = false) as ->.
  { destruct (Qle_bool (ratio chars a a) t) eqn:E; [|done].
    apply Qle_bool_iff in E. rewrite Hratio in E. by apply Qlt_not_le in Ht. }
  rewrite andb_false_r. rewrite render_equal_opcodes by done.
  simpl. by rewrite Hcover.
Qed.

End RendererFacts.

Lemma diff_line_identical_witness :
  (1 # 2 < 1)%Q
  ∧ recognises_identical whole_matcher (s2l "cat")
  ∧ diff_line whole_matcher (s2l "cat") (s2l "cat") (1 # 2) = Some (s2l "cat").
Proof.
  split; [reflexivity|].
  split; [split_and!; [reflexivity|repeat constructor|reflexivity]|].
  apply (diff_line_identical whole_matcher (s2l "cat") (1 # 2)).
  - reflexivity.
  - split_and!; [reflexivity|repeat constructor|reflexivity].
Defined.

End DiffFacts.

Module ComparatorFacts.
Import PyStr Utils Markers Diff Comparator.

(** The order of [sort] is a total order on strings. *)
Lemma str_leb_total (x : str) : ∀ y, str_leb x y = true ∨ str_leb y x = true.
Proof.
  induction x as [|c x IH]; intros [|d y]; simpl; auto.
  destruct (IH y) as [H|H]; rewrite H; lia.
Qed.

Lemma str_leb_antisym (x : str) : ∀ y, str_leb x y = true → str_leb y x = true → x = y.
Proof.
  induction x as [|c x IH]; intros [|d y]; simpl; try done.
  intros H1 H2.
  assert (c = d) as -> by lia.
  rewrite Z.ltb_irrefl, Z.eqb_refl in H1, H2. simpl in H1, H2.
  f_equal. by apply IH.
Qed.

Lemma str_leb_trans (x : str) : ∀ y z,
  str_leb x y = true → str_leb y z = true → str_leb x z = true.
Proof.
  induction x as [|c x IH]; intros [|d y] [|e z]; simpl; try done.
  intros H1 H2.
  destruct (Z.ltb_spec c d), (Z.ltb_spec d e), (Z.ltb_spec c e);
    simpl in *; try done; try lia.
  assert (c = d) as -> by lia. assert (d = e) as -> by lia.
  rewrite Z.eqb_refl in *. simpl in *. eauto.
Qed.

#[local] Instance str_le_total : Total str_le.
Proof. intros x y. apply str_leb_total. Qed.

#[local] Instance str_le_antisym : AntiSymm (=) str_le.
Proof. intros x y. apply str_leb_antisym. Qed.

#[local] Instance str_le_trans : Transitive str_le.
Proof. intros x y z. apply str_leb_trans. Qed.

(** [sort] gives the sorted arrangement of its argument. *)
Lemma sort_sorted (l : list str) : Sorted str_le (sort l).
Proof. apply Sorted_merge_sort. apply _. Qed.

Lemma sort_permutation (l : list str) : sort l ≡ₚ l.
Proof. apply merge_sort_Permutation. Qed.

(** Two lists have the same sorted arrangement exactly when one is a
    rearrangement of the other. *)
Lemma sort_eq_iff (l1 l2 : list str) : sort l1 = sort l2 ↔ l1 ≡ₚ l2.
Proof.
  split.
  - intros Heq. rewrite <- (sort_permutation l1), <- (sort_permutation l2). by rewrite Heq.
  - intros Hperm. apply (Sorted_unique str_le); [apply sort_sorted..|].
    by rewrite !sort_permutation.
Qed.

Section CheckOutputFacts.
Context (chars : SequenceMatcher Z) (lines : SequenceMatcher str).
Context (re_search : str -> str -> bool).

(** C8. With [ordered=False] both normalised texts are split into lines
    and each list is sorted on its own before the two are compared for
    equality, so the comparison succeeds exactly when the lines of one text
    are a rearrangement of the lines of the other; the outputs
    [3\n1\n2\n] and [1\n2\n3\n] match in relaxed mode. *)
Theorem unordered_compares_sorted_lines (printed expected : str) (_whitespace : string)
    (msg : str) (inpt_ranges : list (nat * nat)) :
  mismatch re_search printed expected _whitespace false false
  = negb (bool_decide (sort (split NL (normalize _whitespace printed))
                       = sort (split NL (normalize _whitespace expected))))
  ∧ (check_output chars lines re_search msg printed inpt_ranges expected
       _whitespace false false = None
     ↔ split NL (normalize _whitespace printed)
       ≡ₚ split NL (normalize _whitespace expected))
  ∧ check_output chars lines re_search msg
      (s2l "3" ++ [NL] ++ s2l "1" ++ [NL] ++ s2l "2" ++ [NL]) inpt_ranges
      (s2l "1" ++ [NL] ++ s2l "2" ++ [NL] ++ s2l "3" ++ [NL]) "relaxed" false false
    = None.
Proof.
  split_and!.
  - reflexivity.
  - unfold check_output, mismatch, compared_lines. simpl.
    rewrite <- sort_eq_iff.
    case_bool_decide; simpl; split; done.
  - reflexivity.
Qed.

(** The input-aware assertion runs the comparator on what the input checks
    hand on, and fails with their message otherwise. *)
Lemma assertOutputEqualUsingUserInput_after_checks {R} (call inpt output : str)
    (func : Session.prog R) (_whitespace : string) (_ordered _regexp : bool) :
  assertOutputEqualUsingUserInput chars lines re_search call inpt output func
    _whitespace _ordered _regexp
  = match Session.input_verdict call func inpt with
    | Session.Pass (msg, retval, out, inpt_ranges) =>
        match check_output chars lines re_search msg out inpt_ranges output
                _whitespace _ordered _regexp with
        | Some helpful_msg => Session.Failure helpful_msg
        | None => Session.Pass retval
        end
    | Session.Failure helpful_msg => Session.Failure helpful_msg
    | Session.Error e => Session.Error e
    end.
Proof.
  unfold assertOutputEqualUsingUserInput.
  by rewrite SessionFacts.check_input_verdict.
Qed.

(** The scenario of the relaxed mode: trailing blanks of a line and the
    final newline are not compared. *)
Lemma relaxed_scenario_matches (msg : str) (inpt_ranges : list (nat * nat)) :
  check_output chars lines re_search msg
    (s2l "Hello" ++ [NL] ++ s2l "World  " ++ [NL]) inpt_ranges
    (s2l "Hello" ++ [NL] ++ s2l "World") "relaxed" true false
  = None.
Proof. reflexivity. Qed.

(** C6, on the code: in relaxed mode a last line that holds only blanks
    is compared as an empty line, not dropped with the blank lines that end
    the text.  An output [Hello\nWorld\n  \n] is a mismatch for the expected
    texts [Hello\nWorld] and [Hello\nWorld\n\n], although stripping the
    trailing whitespace of each line and the trailing blank lines makes the
    three texts the same. *)
Theorem relaxed_blank_last_line_mismatch (msg : str) (inpt_ranges : list (nat * nat)) :
  let printed := s2l "Hello" ++ [NL] ++ s2l "World" ++ [NL] ++ s2l "  " ++ [NL] in
  let expected := s2l "Hello" ++ [NL] ++ s2l "World" in
  let expected' := s2l "Hello" ++ [NL] ++ s2l "World" ++ [NL] ++ [NL] in
  mismatch re_search printed expected "relaxed" true false = true
  ∧ mismatch re_search printed expected' "relaxed" true false = true
  ∧ is_Some (check_output chars lines re_search msg printed inpt_ranges expected
               "relaxed" true false)
  ∧ relaxed printed = s2l "Hello" ++ [NL] ++ s2l "World" ++ [NL]
  ∧ relaxed expected = s2l "Hello" ++ [NL] ++ s2l "World"
  ∧ spec_relaxed_lines printed = spec_relaxed_lines expected
  ∧ spec_relaxed_lines printed = spec_relaxed_lines expected'.
Proof.
  split_and!; try reflexivity.
  unfold check_output.
  change (mismatch _ _ _ _ _ _) with true. by eexists.
Qed.

End CheckOutputFacts.
End ComparatorFacts.

Module AssertModFacts.
Import PyStr AssertMod.

(** The walk is breadth first: a node of the queue that spans the line is
    found before anything behind it and before every child. *)
Lemma walk_find_first (line_num : nat) (before : list located) : ∀ (passes : nat)
    (t : located) (behind : list located),
  (length before < passes)%nat →
  forallb (fun t => negb (on_line line_num t)) before = true →
  on_line line_num t = true →
  walk_find passes (before ++ t :: behind) line_num = Some (kind_of t).
Proof.
  induction before as [|b before IH]; intros passes t behind Hlen Hnot Hon.
  - destruct passes as [|passes]; [simpl in Hlen; lia|]. simpl. by rewrite Hon.
  - destruct passes as [|passes]; [simpl in Hlen; lia|].
    simpl in Hnot. apply andb_true_iff in Hnot as [Hb Hnot].
    apply negb_true_iff in Hb. simpl. rewrite Hb.
    rewrite <- app_assoc. simpl. apply IH; [simpl in Hlen; lia|done..].
Qed.

Lemma list_sum_tree_size_length (ts : list located) :
  (length ts <= list_sum (map tree_size ts))%nat.
Proof.
  induction ts as [|[k l c] ts IH]; simpl; lia.
Qed.

(** X23. For a line inside a statement of the module's body, the node found is
    that statement as a whole, the first one that spans the line: for an
    assertion in a method of a test class, the class. *)
Lemma get_ast_node_is_top_level_statement (module_kind : node) (line_num : nat)
    (before : list located) (stmt : located) (behind : list located) :
  forallb (fun t => negb (on_line line_num t)) before = true →
  on_line line_num stmt = true →
  get_ast_node_from_frame (Located module_kind None (before ++ stmt :: behind)) line_num
  = Some (kind_of stmt).
Proof.
  intros Hnot Hon. unfold get_ast_node_from_frame. simpl.
  rewrite (walk_find_first line_num before); [done| |done..].
  pose proof (list_sum_tree_size_length (before ++ stmt :: behind)) as Hlen.
  rewrite length_app in Hlen. simpl in Hlen. lia.
Qed.

Lemma node_of_assertion_in_test_class (assertion : node) :
  get_ast_node_from_frame (usual_test_file assertion) 5%nat = Some OtherNode.
Proof. reflexivity. Qed.

Section WrapperFacts.
Context (to_source : node -> str).
Context {value : Type}.
Context (py_repr py_str : value -> str).
Context (as_str : value -> option str).
Context (is_None : value -> bool).
Context (py_round : value -> value -> value).
Context (py_id type_name class_names : value -> value).
Context (seven : value).

Local Abbreviation repr_ := (repr_ py_repr as_str).
Local Abbreviation fill := (fill py_repr py_str as_str).
Local Abbreviation format := (format py_str).
Local Abbreviation add_helpful_msg :=
  (add_helpful_msg to_source py_repr py_str as_str is_None py_round py_id type_name
     class_names seven).
Local Abbreviation assert_wrapper :=
  (assert_wrapper to_source py_repr py_str as_str is_None py_round py_id type_name
     class_names seven).

(** The templates of the comparisons have two slots. *)
Lemma format_comparison (p q : string) (values : gmap string (entry (value:=value)))
    (expected actual : str) :
  values !! "expected"%string = Some (Text expected) →
  values !! "actual"%string = Some (Text actual) →
  format [T p; Slot "expected"; BR; T q; Slot "actual"] values
  = Ok (s2l p ++ expected ++ [NL] ++ s2l q ++ actual).
Proof.
  intros He Ha. simpl. rewrite He, Ha. simpl. by rewrite app_nil_r.
Qed.

Lemma fill_comparison (msg : str) (name p q : string) (a e : value) :
  TEMPLATES !! name = Some [T p; Slot "expected"; BR; T q; Slot "actual"] →
  fill msg name {[ "actual"%string := Obj a; "expected"%string := Obj e ]}
  = Ok (Some (msg ++ s2l p ++ repr_ e ++ [NL] ++ s2l q ++ repr_ a)).
Proof.
  intros Ht. unfold fill. rewrite Ht.
  rewrite (format_comparison p q _ (repr_ e) (repr_ a)); [done|..].
  - unfold repr_entry. rewrite lookup_insert_eq.
    rewrite lookup_insert_ne by done. rewrite lookup_insert_ne by done.
    rewrite lookup_singleton_eq. by rewrite lookup_insert_eq.
  - unfold repr_entry. rewrite lookup_insert_eq.
    rewrite lookup_insert_ne by done. rewrite lookup_insert_ne by done.
    rewrite lookup_singleton_eq. rewrite lookup_insert_ne by done.
    by rewrite lookup_insert_eq.
Qed.

(** C9, on the code: for [assertGreater] the described comparison is
    exchanged when the function call is the left-hand argument (the message
    then reads ``less than or equal to''), and kept as written when the
    literal is the left-hand argument, as it is when the node found for the
    line is no assertion statement (a class or a function enclosing it). *)
Theorem ordering_direction_swapped_for_call_first (code : str) (f : node)
    (fargs : list node) (first second : value) :
  add_helpful_msg code (call_first f fargs) "Greater" [first; second] ∅
  = Ok (Some (code ++ [NL] ++ s2l "The function call was: "
              ++ strip (to_source (Call f fargs)) ++ [NL]
              ++ s2l "Expected return value to be less than or equal to: "
              ++ repr_ second ++ [NL]
              ++ s2l "Actual return value: " ++ repr_ first))
  ∧ add_helpful_msg code (literal_first f fargs) "Greater" [first; second] ∅
    = Ok (Some (code ++ [NL] ++ s2l "The function call was: "
                ++ strip (to_source (Call f fargs)) ++ [NL]
                ++ s2l "Expected return value to be greater than: "
                ++ repr_ first ++ [NL]
                ++ s2l "Actual return value: " ++ repr_ second))
  ∧ add_helpful_msg code (Some OtherNode) "Greater" [first; second] ∅
    = Ok (Some (code ++ [NL]
                ++ s2l "Expected return value to be greater than: "
                ++ repr_ first ++ [NL]
                ++ s2l "Actual return value: " ++ repr_ second)).
Proof.
  split_and!.
  - unfold add_helpful_msg, call_first. cbn.
    change (bool_decide ("Greater"%string ∈ NO_FUNC_CALL)) with false.
    change (num_args "Greater") with 2%nat.
    change (is_ordering "Greater") with true.
    cbn.
    change (bool_decide ("LessEqual"%string ∈ ["AlmostEqual"; "NotAlmostEqual"]%string)) with false.
    cbn.
    change (bool_decide ("LessEqual"%string ∈ ["Is"; "IsNot"]%string)) with false.
    change (bool_decide ("LessEqual"%string ∈ ["IsInstance"; "IsNotInstance"]%string)) with false.
    cbn.
    rewrite (fill_comparison _ "LessEqual" "Expected return value to be less than or equal to: "
               "Actual return value: ") by reflexivity.
    by rewrite <- !app_assoc.
  - unfold add_helpful_msg, literal_first. cbn.
    change (bool_decide ("Greater"%string ∈ NO_FUNC_CALL)) with false.
    change (num_args "Greater") with 2%nat.
    cbn.
    change (bool_decide ("Greater"%string ∈ ["AlmostEqual"; "NotAlmostEqual"]%string)) with false.
    cbn.
    change (bool_decide ("Greater"%string ∈ ["Is"; "IsNot"]%string)) with false.
    change (bool_decide ("Greater"%string ∈ ["IsInstance"; "IsNotInstance"]%string)) with false.
    cbn.
    rewrite (fill_comparison _ "Greater" "Expected return value to be greater than: "
               "Actual return value: ") by reflexivity.
    by rewrite <- !app_assoc.
  - unfold add_helpful_msg. cbn.
    change (bool_decide ("Greater"%string ∈ NO_FUNC_CALL)) with false.
    change (num_args "Greater") with 2%nat.
    cbn.
    change (bool_decide ("Greater"%string ∈ ["AlmostEqual"; "NotAlmostEqual"]%string)) with false.
    cbn.
    change (bool_decide ("Greater"%string ∈ ["Is"; "IsNot"]%string)) with false.
    change (bool_decide ("Greater"%string ∈ ["IsInstance"; "IsNotInstance"]%string)) with false.
    cbn.
    rewrite (fill_comparison _ "Greater" "Expected return value to be greater than: "
               "Actual return value: ") by reflexivity.
    by rewrite <- !app_assoc.
Qed.
(** The wrapper returns exactly when the wrapped assertion returns. *)
Lemma assert_wrapper_returns_iff (code : str) (n : option node) (name : string)
    (underlying : option raised) (args : list value) (kwargs : gmap string value) :
  assert_wrapper code n name underlying args kwargs = None ↔ underlying = None.
Proof.
  unfold assert_wrapper. split.
  - destruct underlying as [[message helpful|e]|]; [|done..].
    destruct (_ && _); [|done].
    by destruct (add_helpful_msg code n name args kwargs) as [[m|]|e].
  - by intros ->.
Qed.

(** An exception that is no [AssertionError] passes through unchanged, and
    so does an [AssertionError] when the caller gave a message of its own. *)
Lemma assert_wrapper_other_error (code : str) (n : option node) (name : string)
    (e : pyexn) (args : list value) (kwargs : gmap string value) :
  assert_wrapper code n name (Some (OtherError e)) args kwargs = Some (OtherError e).
Proof. reflexivity. Qed.

Lemma assert_wrapper_custom_msg (code : str) (n : option node) (name : string)
    (message : str) (helpful : option str) (args : list value)
    (kwargs : gmap string value) (m : value) :
  kwargs !! "msg"%string = Some m → is_None m = false →
  assert_wrapper code n name (Some (AssertionError message helpful)) args kwargs
  = Some (AssertionError message helpful).
Proof.
  intros Hm Hnone. unfold assert_wrapper, kwarg_is_None. by rewrite Hm, Hnone.
Qed.

(** C10, on the code: when [assertIn] fails and the caller gave no
    message, the wrapper does not raise the assertion's error again: reading
    the local [index], which is never assigned for [In], raises
    [UnboundLocalError] inside the handler. *)
Theorem assert_wrapper_In_raises_unbound_local (code : str) (n : option node)
    (message : str) (helpful : option str) (member container : value) :
  assert_wrapper code n "In" (Some (AssertionError message helpful))
    [member; container] ∅
  = Some (OtherError (UnboundLocalError "index")).
Proof. reflexivity. Qed.

(** Two more ways out of the handler: the template of [NotIsInstance]
    names a slot that is filled for [IsInstance] only, and a one-argument
    assertion whose argument is a call makes the extraction index a second
    argument. *)
Lemma assert_wrapper_NotIsInstance_raises_key_error (code : str)
    (message : str) (helpful : option str) (obj cls : value) :
  assert_wrapper code None "NotIsInstance" (Some (AssertionError message helpful))
    [obj; cls] ∅
  = Some (OtherError (KeyError "actual_type")).
Proof. reflexivity. Qed.

Lemma extract_from_assertTrue_of_call (f : node) (fargs : list node) :
  extract_from_assert_call to_source
    (Some (Expr (Call (Attribute (Name "self") "assertTrue") [Call f fargs]))) 1
  = Exc IndexError.
Proof. reflexivity. Qed.

End WrapperFacts.
End AssertModFacts.

Module PyStrFacts.
Import PyStr.

(** Joining the pieces of a split with the separator gives the text back. *)
Lemma join_split (sep : Z) (s : str) : join [sep] (split sep s) = s.
Proof.
  induction s as [|c s IH]; [done|].
  simpl. destruct (c =? sep) eqn:E.
  - apply Z.eqb_eq in E. subst c.
    destruct (split sep s) as [|l ls] eqn:Hs; simpl in *; [by subst|].
    by rewrite IH.
  - destruct (split sep s) as [|l ls] eqn:Hs; simpl in *; [by subst|].
    destruct ls; simpl in *; by rewrite <- IH.
Qed.

Lemma split_not_nil (sep : Z) (s : str) : split sep s ≠ [].
Proof.
  destruct s as [|c s]; [done|]. simpl.
  destruct (c =? sep); [done|]. by destruct (split sep s).
Qed.

Lemma split_inj (sep : Z) (s1 s2 : str) : split sep s1 = split sep s2 → s1 = s2.
Proof.
  intros H. by rewrite <- (join_split sep s1), <- (join_split sep s2), H.
Qed.

(** No piece of a split holds the separator. *)
Lemma split_no_sep (sep : Z) (s : str) : Forall (fun l => sep ∉ l) (split sep s).
Proof.
  induction s as [|c s IH]; simpl.
  - constructor; [|done]. apply not_elem_of_nil.
  - destruct (c =? sep) eqn:E.
    + constructor; [apply not_elem_of_nil|done].
    + apply Z.eqb_neq in E.
      destruct (split sep s) as [|l ls].
      { constructor; [|done]. intros Hin%list_elem_of_singleton. congruence. }
      apply Forall_cons in IH as [Hl Hls]. constructor; [|done].
      rewrite elem_of_cons. intros [Heq|H]; [congruence|done].
Qed.

Lemma split_no_sep_one (sep : Z) (l : str) : sep ∉ l → split sep l = [l].
Proof.
  induction l as [|c l IH]; intros Hl; [done|].
  apply not_elem_of_cons in Hl as [Hc Hl]. simpl.
  assert ((c =? sep) = false) as -> by (apply Z.eqb_neq; congruence).
  by rewrite IH.
Qed.

Lemma split_app_sep (sep : Z) (l : str) (s : str) :
  sep ∉ l → split sep (l ++ sep :: s) = l :: split sep s.
Proof.
  induction l as [|c l IH]; intros Hl; simpl.
  - by rewrite Z.eqb_refl.
  - apply not_elem_of_cons in Hl as [Hc Hl].
    assert ((c =? sep) = false) as -> by (apply Z.eqb_neq; congruence).
    by rewrite IH.
Qed.

(** Splitting a join of separator-free pieces gives the pieces back. *)
Lemma split_join (sep : Z) (ls : list str) :
  ls ≠ [] → Forall (fun l => sep ∉ l) ls → split sep (join [sep] ls) = ls.
Proof.
  induction ls as [|l ls IH]; [done|]. intros _ Hall.
  apply Forall_cons in Hall as [Hl Hls].
  destruct ls as [|l' ls].
  - simpl. by apply split_no_sep_one.
  - change (join [sep] (l :: l' :: ls)) with (l ++ sep :: join [sep] (l' :: ls)).
    rewrite split_app_sep by done. by rewrite IH.
Qed.

(** What [rstrip] keeps is a prefix, without the stripped characters at its
    end. *)
Lemma rstrip_by_prefix (p : Z → bool) (s : str) : rstrip_by p s `prefix_of` s.
Proof.
  induction s as [|c s IH]; simpl; [done|].
  destruct (rstrip_by p s) as [|d r].
  - destruct (p c); [apply prefix_nil|]. apply prefix_cons, prefix_nil.
  - by apply prefix_cons.
Qed.

Lemma rstrip_by_nil_iff (p : Z → bool) (s : str) :
  rstrip_by p s = [] ↔ forallb p s = true.
Proof.
  induction s as [|c s IH]; simpl; [done|].
  destruct (rstrip_by p s) as [|d r].
  - destruct (p c); simpl; [tauto|]. split; [done|]. intros [=].
  - split; [done|]. intros [_ H]%andb_true_iff. by apply IH in H.
Qed.

Lemma rstrip_by_app_strippable (p : Z → bool) (s ws : str) :
  forallb p ws = true → rstrip_by p (s ++ ws) = rstrip_by p s.
Proof.
  intros Hws. induction s as [|c s IH]; simpl.
  - by apply rstrip_by_nil_iff.
  - by rewrite IH.
Qed.

Lemma rstrip_by_cons_keep (p : Z → bool) (c : Z) (s : str) :
  rstrip_by p s ≠ [] → rstrip_by p (c :: s) = c :: rstrip_by p s.
Proof. simpl. by destruct (rstrip_by p s). Qed.

Lemma rstrip_by_app_keep (p : Z → bool) (s1 s2 : str) :
  rstrip_by p s2 ≠ [] → rstrip_by p (s1 ++ s2) = s1 ++ rstrip_by p s2.
Proof.
  intros H. induction s1 as [|c s1 IH]; [done|].
  simpl app. rewrite rstrip_by_cons_keep; [by rewrite IH|].
  rewrite IH. by destruct s1.
Qed.

Lemma rstrip_by_idemp (p : Z → bool) (s : str) :
  rstrip_by p (rstrip_by p s) = rstrip_by p s.
Proof.
  induction s as [|c s IH]; [done|]. simpl.
  destruct (rstrip_by p s) as [|d r] eqn:E.
  - destruct (p c) eqn:Hc; [done|]. simpl. by rewrite Hc.
  - rewrite rstrip_by_cons_keep; by rewrite IH.
Qed.

Lemma lstrip_by_app_strippable (p : Z → bool) (ws s : str) :
  forallb p ws = true → lstrip_by p (ws ++ s) = lstrip_by p s.
Proof.
  induction ws as [|c ws IH]; [done|]. simpl.
  intros [Hc Hws]%andb_true_iff. rewrite Hc. by apply IH.
Qed.

(** Whitespace around a text does not change what [strip] gives. *)
Lemma strip_padding (ws1 s ws2 : str) :
  forallb isspace ws1 = true → forallb isspace ws2 = true →
  strip (ws1 ++ s ++ ws2) = strip s.
Proof.
  intros H1 H2. unfold strip, rstrip.
  rewrite app_assoc, rstrip_by_app_strippable by done.
  destruct (rstrip_by isspace s) as [|d r] eqn:E.
  - assert (rstrip_by isspace (ws1 ++ s) = []) as ->; [|done].
    apply rstrip_by_nil_iff. rewrite forallb_app, H1. simpl.
    by apply rstrip_by_nil_iff.
  - rewrite rstrip_by_app_keep by by rewrite E.
    rewrite lstrip_by_app_strippable by done. by rewrite E.
Qed.

(** [s.split()] keeps the characters that are no whitespace, in order. *)
Lemma concat_split_ws_from (s : str) : ∀ cur : str,
  forallb (fun c => negb (isspace c)) cur = true →
  concat (split_ws_from cur s) = cur ++ filter (fun c => isspace c = false) s.
Proof.
  induction s as [|c s IH]; intros cur Hcur; simpl.
  - destruct cur; simpl; by rewrite ?app_nil_r.
  - destruct (isspace c) eqn:Hc.
    + rewrite filter_cons_False by (by rewrite Hc).
      destruct cur as [|d cur]; simpl; rewrite (IH []); done.
    + rewrite filter_cons_True by done.
      rewrite IH.
      * by rewrite <- app_assoc.
      * rewrite forallb_app, Hcur. simpl. by rewrite Hc.
Qed.

Lemma concat_split_ws (s : str) :
  concat (split_ws s) = filter (fun c => isspace c = false) s.
Proof. apply (concat_split_ws_from s []). done. Qed.

End PyStrFacts.

Module ModeFacts.
Import PyStr Utils Markers Diff Comparator PyStrFacts ComparatorFacts.

Lemma isspace_NL : isspace NL = true.
Proof. reflexivity. Qed.

Lemma sort_singleton (l : str) : sort [l] = [l].
Proof.
  pose proof (sort_permutation [l]) as H.
  by apply Permutation_singleton_r in H.
Qed.

Lemma rstrip_no_NL (l : str) : NL ∉ l → NL ∉ rstrip l.
Proof.
  intros Hl Hin. apply Hl.
  destruct (rstrip_by_prefix isspace l) as [rest Hrest].
  rewrite Hrest. apply elem_of_app. by left.
Qed.

(** The lines that are compared in relaxed mode: the text without its
    final newlines, split into lines, each without its trailing
    whitespace. *)
Lemma relaxed_lines (text : str) :
  split NL (relaxed text) = map rstrip (split NL (rstrip_nl text)).
Proof.
  unfold relaxed. apply split_join.
  - pose proof (split_not_nil NL (rstrip_nl text)). by destruct (split NL (rstrip_nl text)).
  - apply Forall_map. eapply Forall_impl; [apply split_no_sep|].
    intros l Hl. by apply rstrip_no_NL.
Qed.

Lemma ignore_no_NL (text : str) : NL ∉ ignore text.
Proof.
  unfold ignore. rewrite concat_split_ws.
  intros [H _]%list_elem_of_filter. by rewrite isspace_NL in H.
Qed.

Section ModeFactsSection.
Context (chars : SequenceMatcher Z) (lines : SequenceMatcher str).
Context (re_search : str -> str -> bool).

(** In strict mode the two texts are a mismatch unless they are the
    same. *)
Lemma strict_mismatch (printed expected : str) :
  mismatch re_search printed expected "strict" true false
  = negb (bool_decide (printed = expected)).
Proof.
  unfold mismatch, compared_lines. simpl. f_equal.
  apply bool_decide_ext. split; [apply (split_inj NL)|by intros ->].
Qed.

(** X4. In strict mode the comparison passes exactly when the two texts are
    the same, character for character. *)
Theorem strict_passes_iff_same_text (msg printed expected : str)
    (inpt_ranges : list (nat * nat)) :
  check_output chars lines re_search msg printed inpt_ranges expected "strict" true false = None
  ↔ printed = expected.
Proof.
  unfold check_output. rewrite strict_mismatch.
  case_bool_decide as H; simpl; split; done.
Qed.

(** X7. With [_whitespace='ignore'] the comparison passes exactly when the two
    texts hold the same characters once every whitespace character is left
    out, and [_ordered] changes nothing: no line break is left to split
    at. *)
Theorem ignore_compares_non_whitespace (msg printed expected : str)
    (inpt_ranges : list (nat * nat)) (_ordered : bool) :
  check_output chars lines re_search msg printed inpt_ranges expected "ignore" _ordered false
  = None
  ↔ filter (fun c => isspace c = false) printed = filter (fun c => isspace c = false) expected.
Proof.
  unfold check_output, mismatch, compared_lines.
  change (normalize "ignore" printed) with (ignore printed).
  change (normalize "ignore" expected) with (ignore expected).
  rewrite !(split_no_sep_one NL) by apply ignore_no_NL.
  assert ((if negb _ordered then sort [ignore printed] else [ignore printed])
          = [ignore printed]) as -> by (destruct _ordered; simpl; by rewrite ?sort_singleton).
  assert ((if negb _ordered then sort [ignore expected] else [ignore expected])
          = [ignore expected]) as -> by (destruct _ordered; simpl; by rewrite ?sort_singleton).
  unfold ignore. rewrite !concat_split_ws. simpl.
  case_bool_decide as H; simpl.
  - split; [|done]. intros _. by injection H.
  - split; [done|]. intros Heq. by rewrite Heq in H.
Qed.

(** X5. In relaxed mode the comparison passes exactly when the two texts,
    their final newlines left out, have the same number of lines and
    corresponding lines agree up to their trailing whitespace. *)
Theorem relaxed_passes_iff_lines_agree (msg printed expected : str)
    (inpt_ranges : list (nat * nat)) :
  check_output chars lines re_search msg printed inpt_ranges expected "relaxed" true false
  = None
  ↔ Forall2 (fun p e => rstrip p = rstrip e)
      (split NL (rstrip_nl printed)) (split NL (rstrip_nl expected)).
Proof.
  unfold check_output, mismatch, compared_lines.
  change (normalize "relaxed" printed) with (relaxed printed).
  change (normalize "relaxed" expected) with (relaxed expected).
  simpl. rewrite !relaxed_lines.
  assert (Hmap : ∀ l1 l2 : list str,
            map rstrip l1 = map rstrip l2 ↔ Forall2 (fun p e => rstrip p = rstrip e) l1 l2).
  { induction l1 as [|x l1 IH]; intros [|y l2]; simpl; split; try done.
    - intros H. inversion H.
    - intros H. inversion H.
    - intros [= Hx Hl]. constructor; [done|]. by apply IH.
    - intros H. inversion H; subst. f_equal; [done|]. by apply IH. }
  rewrite <- Hmap.
  case_bool_decide as H; simpl; split; done.
Qed.

(** X6. Newlines at the end of either text are never compared in relaxed
    mode. *)
Theorem relaxed_ignores_final_newlines (msg printed expected : str)
    (inpt_ranges : list (nat * nat)) (_ordered _regexp : bool) (m n : nat) :
  mismatch re_search (printed ++ repeat NL m) (expected ++ repeat NL n)
    "relaxed" _ordered _regexp
  = mismatch re_search printed expected "relaxed" _ordered _regexp.
Proof.
  assert (H : ∀ (text : str) (k : nat), relaxed (text ++ repeat NL k) = relaxed text).
  { intros text k. unfold relaxed, rstrip_nl.
    rewrite rstrip_by_app_strippable; [done|].
    induction k; simpl; [done|]. by rewrite IHk. }
  unfold mismatch.
  change (normalize "relaxed" ?t) with (relaxed t).
  by rewrite !H.
Qed.

End ModeFactsSection.
End ModeFacts.

Module HighlightFacts.
Import Markers StyledFacts.
Local Open Scope nat_scope.

Lemma length_bold (t : str) : length (bold t) = 2 * length t.
Proof.
  unfold bold. rewrite bold_with_concat.
  induction t as [|c t IH]; simpl; [done|]. rewrite IH. lia.
Qed.

Lemma slice_empty {A} (xs : list A) (i : nat) : slice xs i i = [].
Proof. unfold slice. by rewrite Nat.sub_diag. Qed.

(** An empty range, as the one recorded by the helper's read of the
    leftover input, marks nothing. *)
Lemma bold_substr_empty (t : str) (start : nat) : bold_substr t start (start + 0) = t.
Proof.
  unfold bold_substr. rewrite Nat.add_0_r, slice_empty. simpl. apply take_drop.
Qed.

(** X8. The ranges are marked one after the other in the text as it has become,
    while their offsets are those of the captured output: the marking of a
    range makes its part twice as long, so a later range that starts at
    least that much further on is marked [len1] characters too early. *)
Theorem second_input_range_marked_early (t : str) (start1 len1 start2 len2 : nat) :
  start1 + len1 <= length t →
  start1 + 2 * len1 <= start2 →
  fold_left (fun p '(start, length) => bold_substr p start (start + length))
    [(start1, len1); (start2, len2)] t
  = take start1 t ++ bold (slice t start1 (start1 + len1))
    ++ slice t (start1 + len1) (start2 - len1)
    ++ bold (slice t (start2 - len1) (start2 - len1 + len2))
    ++ drop (start2 - len1 + len2) t.
Proof.
  intros H1 H2. cbn [fold_left].
  set (marked := bold (slice t start1 (start1 + len1))).
  assert (Hm : length marked = 2 * len1).
  { unfold marked. rewrite length_bold. unfold slice.
    rewrite length_take, length_drop. lia. }
  unfold bold_substr at 2. fold marked.
  set (pre := take start1 t ++ marked).
  assert (Hpre : length pre = start1 + 2 * len1).
  { unfold pre. rewrite length_app, length_take, Hm. lia. }
  assert (Hshape : take start1 t ++ marked ++ drop (start1 + len1) t
                   = pre ++ drop (start1 + len1) t) by (unfold pre; by rewrite <- app_assoc).
  rewrite Hshape. unfold bold_substr.
  assert (Htake : take start2 (pre ++ drop (start1 + len1) t)
                  = pre ++ slice t (start1 + len1) (start2 - len1)).
  { rewrite take_app, take_ge by lia. unfold slice. do 2 f_equal. lia. }
  assert (Hdrop : ∀ n, start1 + 2 * len1 <= n →
            drop n (pre ++ drop (start1 + len1) t) = drop (n - len1) t).
  { intros n Hn. rewrite drop_app, drop_ge by lia. simpl. rewrite drop_drop.
    f_equal. lia. }
  rewrite Htake. unfold slice at 2. rewrite Hdrop by lia. rewrite Hdrop by lia.
  unfold pre. rewrite <- !app_assoc. do 3 f_equal.
  unfold slice. do 3 f_equal; lia.
Qed.

Lemma second_input_range_marked_early_witness :
  0 + 1 <= length (s2l "a, b? c") ∧ 0 + 2 * 1 <= 6
  ∧ fold_left (fun p '(start, length) => bold_substr p start (start + length))
      [(0, 1); (6, 1)] (s2l "a, b? c")
    = take 0 (s2l "a, b? c") ++ bold (slice (s2l "a, b? c") 0 (0 + 1))
      ++ slice (s2l "a, b? c") (0 + 1) (6 - 1)
      ++ bold (slice (s2l "a, b? c") (6 - 1) (6 - 1 + 1))
      ++ drop (6 - 1 + 1) (s2l "a, b? c").
Proof.
  split; [vm_compute; lia|]. split; [lia|].
  apply (second_input_range_marked_early (s2l "a, b? c") 0 1 6 1).
  - vm_compute. lia.
  - lia.
Defined.

End HighlightFacts.

Module OutputEqualFacts.
Import PyStr Utils Session Comparator Asserts PyStrFacts StringIOFacts SessionFacts ModeFacts.
Local Open Scope nat_scope.

Section OutputEqualFactsSection.
Context (chars : Diff.SequenceMatcher Z) (lines : Diff.SequenceMatcher str).
Context (re_search : str -> str -> bool).

(** X10. The input-aware assertion compares the captured output without its
    trailing whitespace: in strict mode it cannot pass for an expected text
    that ends in whitespace. *)
Theorem strict_after_input_needs_stripped_expected {R} (call inpt output : str)
    (func : prog R) (retval : R) :
  assertOutputEqualUsingUserInput chars lines re_search call inpt output func
    "strict" true false = Pass retval →
  rstrip output = output.
Proof.
  unfold assertOutputEqualUsingUserInput, check_input.
  destruct (run func (start inpt)) as [[r|[|e]] ss]; try done.
  destruct (_ =? 0); [done|].
  destruct (_read None ss) as [[|c rem] ss']; [|done].
  unfold check_output. rewrite strict_mismatch.
  case_bool_decide as Heq; simpl; [|done].
  intros _. rewrite <- Heq. apply rstrip_by_idemp.
Qed.

End OutputEqualFactsSection.

Lemma strict_after_input_needs_stripped_expected_witness :
  assertOutputEqualUsingUserInput Diff.whole_matcher Diff.whole_matcher (fun _ _ => true)
    [] (s2l "5" ++ [NL]) (s2l "5" ++ [NL] ++ s2l "You entered 5") (read_then_greet tt)
    "strict" true false = Pass tt
  ∧ rstrip (s2l "5" ++ [NL] ++ s2l "You entered 5") = s2l "5" ++ [NL] ++ s2l "You entered 5".
Proof.
  split; [reflexivity|].
  apply (strict_after_input_needs_stripped_expected Diff.whole_matcher Diff.whole_matcher
           (fun _ _ => true) [] (s2l "5" ++ [NL]) (s2l "5" ++ [NL] ++ s2l "You entered 5")
           (read_then_greet tt) tt).
  reflexivity.
Defined.

End OutputEqualFacts.

Module AssertsFacts.
Import PyStr Utils Session Comparator Asserts PyStrFacts StringIOFacts SessionFacts.
Local Open Scope nat_scope.

(** [sub in s] holds exactly when [s] is some text, [sub], and some text. *)
Lemma isin_spec (sub s : str) : isin sub s = true ↔ ∃ pre post, s = pre ++ sub ++ post.
Proof.
  induction s as [|c s IH]; simpl.
  - rewrite orb_false_r, bool_decide_eq_true. split.
    + intros [post Hpost]. by exists [], post.
    + intros (pre & post & H). symmetry in H.
      apply app_eq_nil in H as [-> [-> ->]%app_eq_nil]. done.
  - rewrite orb_true_iff, bool_decide_eq_true, IH. split.
    + intros [[post Hpost]|(pre & post & ->)].
      * by exists [], post.
      * by exists (c :: pre), post.
    + intros (pre & post & H). destruct pre as [|d pre].
      * left. exists post. done.
      * right. injection H as -> ->. by exists pre, post.
Qed.

Section EqualUsingUserInputFacts.
Context {value : Type}.
Context (py_repr : value -> str) (as_str : value -> option str).
Context (py_ne : value -> value -> bool).

(** The loop over the arguments raises nothing exactly when every argument
    that is a string occurs in the output. *)
Lemma check_args_none_iff (msg out : str) (args : list value) :
  check_args as_str msg out args = None
  ↔ ∀ arg s, arg ∈ args → as_str arg = Some s → ∃ pre post, out = pre ++ s ++ post.
Proof.
  induction args as [|arg args IH]; simpl.
  - split; [|done]. intros _ arg s Hin. by apply elem_of_nil in Hin.
  - destruct (as_str arg) as [s|] eqn:Harg.
    + destruct (isin s out) eqn:Hin; simpl.
      * rewrite IH. split.
        -- intros H arg' s' [->|Hin']%elem_of_cons Hs'; [|by eauto].
           rewrite Harg in Hs'. injection Hs' as <-. by apply isin_spec.
        -- intros H arg' s' Hin' Hs'. apply (H arg' s'); [|done].
           apply elem_of_cons. by right.
      * split; [done|]. intros H.
        assert (isin s out = true) as Htrue; [|congruence].
        apply isin_spec. apply (H arg s); [|done]. apply elem_of_cons. by left.
    + rewrite IH. split.
      * intros H arg' s' [->|Hin']%elem_of_cons Hs'; [congruence|by eauto].
      * intros H arg' s' Hin' Hs'. apply (H arg' s'); [|done].
        apply elem_of_cons. by right.
Qed.

End EqualUsingUserInputFacts.

(** X13. Whitespace before and after a docstring does not count for its
    length: padding never changes what [assertDoc] does. *)
Theorem assertDoc_ignores_padding (is_module : bool) (name ws1 doc ws2 : str)
    (min_length : Z) :
  forallb isspace ws1 = true → forallb isspace ws2 = true →
  assertDoc is_module name (Some (ws1 ++ doc ++ ws2)) min_length
  = assertDoc is_module name (Some doc) min_length.
Proof.
  intros H1 H2. unfold assertDoc. by rewrite strip_padding.
Qed.

Lemma assertDoc_ignores_padding_witness :
  forallb isspace (s2l "  ") = true ∧ forallb isspace [NL] = true
  ∧ assertDoc false (s2l "area") (Some (s2l "  " ++ s2l "Area." ++ [NL])) 16
    = assertDoc false (s2l "area") (Some (s2l "Area.")) 16.
Proof.
  split; [reflexivity|]. split; [reflexivity|].
  apply (assertDoc_ignores_padding false (s2l "area") (s2l "  ") (s2l "Area.") [NL] 16);
    reflexivity.
Defined.

End AssertsFacts.

Module GuardsFacts.
Import PyStr Session Guards StringIOFacts.
Local Open Scope nat_scope.

Lemma write_nonempty (f : StringIO.t) (s : str) :
  StringIO.pos f = length (StringIO.value f) →
  StringIO.value f ≠ [] ∨ s ≠ [] → StringIO.value (StringIO.write f s) ≠ [].
Proof.
  intros Hpos Hne. rewrite (write_at_end _ _ Hpos). simpl.
  intros [H1 H2]%app_eq_nil. by destruct Hne.
Qed.

Lemma write_keeps_end (f : StringIO.t) (s : str) :
  StringIO.pos f = length (StringIO.value f) →
  StringIO.pos (StringIO.write f s) = length (StringIO.value (StringIO.write f s)).
Proof. intros Hpos. by rewrite (write_at_end _ _ Hpos). Qed.

(** What was written stays: a buffer that holds something at some point of
    the run holds something at its end. *)
Lemma exec_output_stays {R} (bi : builtins) (b : body R) : ∀ (stdout stdin : StringIO.t),
  StringIO.pos stdout = length (StringIO.value stdout) →
  StringIO.value stdout ≠ [] →
  StringIO.value (exec bi b stdout stdin).1.2 ≠ [].
Proof.
  induction b as [r|e|text k IH|s k IH|prompt k IH|size k IH|size k IH];
    intros stdout stdin Hpos Hne; cbn [exec].
  - done.
  - done.
  - destruct (print_raises bi); [done|].
    apply IH; [by apply write_keeps_end|apply write_nonempty; auto].
  - apply IH; [by apply write_keeps_end|apply write_nonempty; auto].
  - destruct (input_raises bi); [done|].
    destruct (StringIO.readline stdin None) as [[|c data] stdin'].
    + cbn. apply write_nonempty; auto.
    + apply IH; [by apply write_keeps_end|apply write_nonempty; auto].
  - destruct (StringIO.read stdin size) as [data stdin']. by apply IH.
  - destruct (StringIO.readline stdin size) as [data stdin']. by apply IH.
Qed.

Lemma write_empty (f : StringIO.t) : StringIO.write f [] = f.
Proof. reflexivity. Qed.

(** A body that speaks ends with a buffer that holds something, or with
    the failure raised by the replaced [print]; one that does not leaves the
    buffer as it was. *)
Lemma exec_speaks {R} (print_func_okay : bool) (msg : str) (b : body R) :
  ∀ (stdout stdin : StringIO.t),
  StringIO.pos stdout = length (StringIO.value stdout) →
  let bi := Builtins (if print_func_okay then None else Some msg) None in
  if speaks print_func_okay b stdin
  then StringIO.value (exec bi b stdout stdin).1.2 ≠ []
       ∨ (exec bi b stdout stdin).1.1 = Failure msg
  else (exec bi b stdout stdin).1.2 = stdout.
Proof.
  induction b as [r|e|text k IH|s k IH|prompt k IH|size k IH|size k IH];
    intros stdout stdin Hpos; cbn [exec speaks print_raises input_raises].
  - done.
  - done.
  - destruct print_func_okay; cbn [negb orb].
    + case_bool_decide as Htext; cbn [negb orb].
      * subst text. rewrite write_empty. by apply IH.
      * pose proof (exec_output_stays (Builtins None None) k
                      (StringIO.write stdout text) stdin) as Hstay.
        assert (Hok : StringIO.value (exec (Builtins None None) k
                                        (StringIO.write stdout text) stdin).1.2 ≠ []).
        { apply Hstay; [by apply write_keeps_end|apply write_nonempty; auto]. }
        destruct (speaks true k stdin); by left.
    + by right.
  - case_bool_decide as Hs; cbn [negb orb].
    + subst s. rewrite write_empty. by apply IH.
    + left. apply exec_output_stays; [by apply write_keeps_end|apply write_nonempty; auto].
  - case_bool_decide as Hprompt; cbn [negb orb].
    + subst prompt. rewrite write_empty.
      destruct (StringIO.readline stdin None) as [[|c data] stdin']; [done|].
      by apply IH.
    + left. destruct (StringIO.readline stdin None) as [[|c data] stdin'].
      * cbn. apply write_nonempty; auto.
      * apply exec_output_stays; [by apply write_keeps_end|apply write_nonempty; auto].
  - destruct (StringIO.read stdin size) as [data stdin']. by apply IH.
  - destruct (StringIO.readline stdin size) as [data stdin']. by apply IH.
Qed.

(** X15. A body that does not speak gets its own result through
    [assertNoPrint]. *)
Theorem assertNoPrint_silent_body_passes_through {R} (print_func_okay : bool) (msg : str)
    (b : body R) (stdin : StringIO.t) :
  speaks print_func_okay b stdin = false →
  assertNoPrint print_func_okay msg b stdin
  = (exec (Builtins (if print_func_okay then None else Some msg) None) b
       (StringIO.open []) stdin).1.1.
Proof.
  intros Hsp. unfold assertNoPrint.
  pose proof (exec_speaks print_func_okay msg b (StringIO.open []) stdin eq_refl) as H.
  cbv zeta in H. rewrite Hsp in H.
  destruct (exec _ b (StringIO.open []) stdin) as [[r output] stdin'].
  cbn [fst snd] in *. by subst output.
Qed.

Lemma assertNoPrint_silent_body_passes_through_witness :
  speaks false (StdinReadline None (fun data => Done data)) (StringIO.open (s2l "x")) = false
  ∧ assertNoPrint false (s2l "no print") (StdinReadline None (fun data => Done data))
      (StringIO.open (s2l "x"))
    = (exec (Builtins (if false then None else Some (s2l "no print")) None)
         (StdinReadline None (fun data => Done data)) (StringIO.open []) 
         (StringIO.open (s2l "x"))).1.1.
Proof.
  split; [reflexivity|].
  apply (assertNoPrint_silent_body_passes_through false (s2l "no print")
           (StdinReadline None (fun data => Done data)) (StringIO.open (s2l "x"))).
  reflexivity.
Defined.



End GuardsFacts.

Module WalkFacts.
Import PyStr AssertMod Walk AssertModFacts.
Local Open Scope nat_scope.

Lemma get_ast_node_is_top_level_statement_witness :
  forallb (fun t => negb (on_line 5 t)) [Located OtherNode (Some (1, 1)) []] = true
  ∧ on_line 5 (Located OtherNode (Some (3, 5))
                 [Located OtherNode (Some (4, 5)) [Located Num (Some (5, 5)) []]]) = true
  ∧ get_ast_node_from_frame (usual_test_file Num) 5 = Some OtherNode.
Proof.
  split; [reflexivity|]. split; [reflexivity|].
  apply (get_ast_node_is_top_level_statement OtherNode 5
           [Located OtherNode (Some (1, 1)) []]
           (Located OtherNode (Some (3, 5))
              [Located OtherNode (Some (4, 5)) [Located Num (Some (5, 5)) []]])
           []); reflexivity.
Defined.

Lemma total_size_app (l1 l2 : list located) :
  total_size (l1 ++ l2) = total_size l1 + total_size l2.
Proof. unfold total_size. by rewrite map_app, list_sum_app. Qed.

Lemma tree_size_children (t : located) : tree_size t = S (total_size (children_of t)).
Proof. by destruct t. Qed.

Lemma nodes_of_children (t : located) :
  nodes_of t = t :: concat (map nodes_of (children_of t)).
Proof. by destruct t. Qed.

(** The walk with enough passes goes through every node of the queue:
    it finds nothing exactly when no node is on the line, and what it finds
    is the kind of a node on the line. *)
Lemma walk_find_complete (line_num : nat) : ∀ (passes : nat) (todo : list located),
  total_size todo <= passes →
  (walk_find passes todo line_num = None
   ↔ Forall (fun t => on_line line_num t = false) (concat (map nodes_of todo)))
  ∧ ∀ kind, walk_find passes todo line_num = Some kind →
      ∃ t, t ∈ concat (map nodes_of todo) ∧ on_line line_num t = true ∧ kind_of t = kind.
Proof.
  induction passes as [|passes IH]; intros todo Hsize.
  - destruct todo as [|t todo].
    + simpl. split; [done|]. intros kind [=].
    + unfold total_size in Hsize. simpl in Hsize. rewrite tree_size_children in Hsize. lia.
  - destruct todo as [|t todo].
    + simpl. split; [done|]. intros kind [=].
    + cbn [walk_find]. cbn [map concat]. rewrite nodes_of_children.
      destruct (on_line line_num t) eqn:Hon.
      * split.
        -- split; [done|]. intros H. apply Forall_app in H as [H _].
           apply Forall_cons in H as [H _]. congruence.
        -- intros kind [= <-]. exists t. split_and!; [|done..].
           apply elem_of_app. left. apply elem_of_cons. by left.
      * destruct (IH (todo ++ children_of t)) as [Hnone Hsome].
        { rewrite total_size_app. unfold total_size in *. simpl in Hsize.
          rewrite tree_size_children in Hsize. unfold total_size in Hsize. lia. }
        rewrite map_app, concat_app in Hnone, Hsome.
        split.
        -- rewrite Hnone. rewrite !Forall_app, Forall_cons. tauto.
        -- intros kind Hk. destruct (Hsome kind Hk) as (t' & Hin & Hon' & Hkind).
           exists t'. split_and!; [|done..].
           apply elem_of_app in Hin as [Hin|Hin].
           ++ apply elem_of_app. by right.
           ++ apply elem_of_app. left. apply elem_of_cons. by right.
Qed.

(** X24. The lookup of the node for a line returns [None] exactly when no node
    of the parsed file spans the line, and otherwise it returns a node
    that spans it. *)
Theorem get_ast_node_none_iff_no_node_on_line (code : located) (line_num : nat) :
  (get_ast_node_from_frame code line_num = None
   ↔ Forall (fun t => on_line line_num t = false) (nodes_of code))
  ∧ ∀ kind, get_ast_node_from_frame code line_num = Some kind →
      ∃ t, t ∈ nodes_of code ∧ on_line line_num t = true ∧ kind_of t = kind.
Proof.
  unfold get_ast_node_from_frame.
  destruct (walk_find_complete line_num (tree_size code) [code]) as [Hnone Hsome].
  { unfold total_size. simpl. lia. }
  simpl in Hnone, Hsome. rewrite app_nil_r in Hnone, Hsome. done.
Qed.

End WalkFacts.

Module EnrichFacts.
Import PyStr AssertMod AssertModFacts.

Section EnrichFactsSection.
Context (to_source : node -> str).
Context {value : Type}.
Context (py_repr py_str : value -> str).
Context (as_str : value -> option str).
Context (is_None : value -> bool).
Context (py_round : value -> value -> value).
Context (py_id type_name class_names : value -> value).
Context (seven : value).

Local Abbreviation repr_ := (repr_ py_repr as_str).
Local Abbreviation fill := (fill py_repr py_str as_str).
Local Abbreviation format := (format py_str).
Local Abbreviation extract_from_assert_call := (extract_from_assert_call to_source).
Local Abbreviation add_helpful_msg :=
  (add_helpful_msg to_source py_repr py_str as_str is_None py_round py_id type_name
     class_names seven).
Local Abbreviation assert_wrapper :=
  (assert_wrapper to_source py_repr py_str as_str is_None py_round py_id type_name
     class_names seven).

(** A node that is no expression statement gives no call and the index
    -1. *)
Lemma extract_from_other_statement (k : node) (max_check : nat) :
  (∀ v, k ≠ Expr v) → extract_from_assert_call (Some k) max_check = Ok (None, (-1)%Z).
Proof.
  intros Hk. destruct k; try done. by destruct (Hk k).
Qed.

(** X25. When the extraction finds no call, as for every assertion inside a
    class or a function, the comparison assertions describe their first
    argument as the expected value and their second as the actual one. *)
Theorem first_argument_reported_as_expected (code : str) (n : option node)
    (name p q : string) (first second : value) (rest : list value)
    (kwargs : gmap string value) :
  extract_from_assert_call n 2 = Ok (None, (-1)%Z) →
  name ∈ ["Equal"; "NotEqual"; "Greater"; "GreaterEqual"; "Less"; "LessEqual"]%string →
  TEMPLATES !! name = Some [T p; Slot "expected"; BR; T q; Slot "actual"] →
  add_helpful_msg code n name (first :: second :: rest) kwargs
  = Ok (Some (code ++ [NL] ++ s2l p ++ repr_ first ++ [NL] ++ s2l q ++ repr_ second)).
Proof.
  intros Hex Hname Ht. unfold add_helpful_msg.
  assert (Hn : num_args name = 2%nat ∧ bool_decide (name ∈ NO_FUNC_CALL) = false
               ∧ bool_decide (name ∈ ["AlmostEqual"; "NotAlmostEqual"]%string) = false
               ∧ bool_decide (name ∈ ["Is"; "IsNot"]%string) = false
               ∧ bool_decide (name ∈ ["IsInstance"; "IsNotInstance"]%string) = false).
  { repeat (apply elem_of_cons in Hname as [->|Hname]; [by vm_compute|]).
    by apply elem_of_nil in Hname. }
  destruct Hn as (-> & -> & Ha & Hi & Hinst).
  rewrite Hex. cbn. rewrite Ha. cbn. rewrite Hi, Hinst. cbn.
  rewrite (fill_comparison py_repr py_str as_str _ name p q) by done.
  by rewrite <- !app_assoc.
Qed.

(** X26. [assertIsInstance] gets no helpful message unless the extraction finds
    the call as the first argument of the assertion statement: the wrapper
    raises the error as it came. *)
Theorem IsInstance_not_enriched_without_call (code : str) (n : option node)
    (call : option str) (index : Z) (message : str) (helpful : option str)
    (obj cls : value) :
  extract_from_assert_call n 2 = Ok (call, index) →
  index ≠ 0%Z →
  assert_wrapper code n "IsInstance" (Some (AssertionError message helpful)) [obj; cls] ∅
  = Some (AssertionError message helpful).
Proof.
  intros Hex Hindex. unfold assert_wrapper, AssertMod.add_helpful_msg.
  change (num_args "IsInstance") with 2%nat.
  change (bool_decide ("IsInstance"%string ∈ NO_FUNC_CALL)) with false.
  rewrite Hex. cbn.
  assert ((index =? 0)%Z = false) as -> by by apply Z.eqb_neq.
  cbn.
  change (bool_decide ("IsInstance"%string ∈ ["AlmostEqual"; "NotAlmostEqual"]%string))
    with false.
  cbn.
  change (bool_decide ("IsInstance"%string ∈ ["IsInstance"; "IsNotInstance"]%string))
    with true.
  by destruct call.
Qed.

(** X30. A message of the caller, given by keyword or by position, switches the
    enrichment off: the wrapper raises the error as it came. *)
Theorem assert_wrapper_keeps_error_with_own_message (code : str) (n : option node)
    (name : string) (message : str) (helpful : option str) (args : list value)
    (kwargs : gmap string value) (m : value) :
  is_None m = false →
  kwargs !! "msg"%string = Some m ∨ args !! num_args name = Some m →
  assert_wrapper code n name (Some (AssertionError message helpful)) args kwargs
  = Some (AssertionError message helpful).
Proof.
  intros Hm [Hkw|Hpos]; unfold assert_wrapper, kwarg_is_None.
  - by rewrite Hkw, Hm.
  - rewrite Hpos, Hm.
    assert ((length args <=? num_args name)%nat = false) as ->.
    { apply Nat.leb_gt. by apply lookup_lt_Some in Hpos. }
    by rewrite andb_false_r.
Qed.

(** X27. A failing [assertNotIsInstance] without a message of the caller never
    gets its helpful message: the template names the slot [actual_type],
    which is filled for [IsInstance] only, so the handler ends in a
    [KeyError] that takes the place of the assertion's error. *)
Theorem NotIsInstance_ends_in_key_error (code : str) (n : option node)
    (r : option str * Z) (message : str) (helpful : option str) (obj cls : value) :
  extract_from_assert_call n 2 = Ok r →
  assert_wrapper code n "NotIsInstance" (Some (AssertionError message helpful)) [obj; cls] ∅
  = Some (OtherError (KeyError "actual_type")).
Proof.
  intros Hex. unfold assert_wrapper, AssertMod.add_helpful_msg.
  change (num_args "NotIsInstance") with 2%nat.
  change (bool_decide ("NotIsInstance"%string ∈ NO_FUNC_CALL)) with false.
  rewrite Hex. destruct r as [call index]. cbn.
  change (is_ordering "NotIsInstance") with false. rewrite andb_false_r.
  change (bool_decide ("NotIsInstance"%string ∈ ["AlmostEqual"; "NotAlmostEqual"]%string))
    with false.
  cbn.
  change (bool_decide ("NotIsInstance"%string ∈ ["Is"; "IsNot"]%string)) with false.
  change (bool_decide ("NotIsInstance"%string ∈ ["IsInstance"; "IsNotInstance"]%string))
    with false.
  cbn. unfold AssertMod.fill.
  change (TEMPLATES !! "NotIsInstance"%string)
    with (Some [T "Expected return value to *not* have type "; Slot "expected"; BR;
                T "Actual return value: "; Slot "actual"; T " has type ";
                Slot "actual_type"]).
  set (values := repr_entry _ _ _ "expected").
  assert (Hv : values !! "actual_type"%string = None).
  { unfold values, repr_entry.
    repeat (case_match; rewrite ?lookup_insert_ne by done); by simplify_map_eq. }
  assert (He : is_Some (values !! "expected"%string)).
  { unfold values, repr_entry.
    repeat (case_match; simplify_map_eq; try by eexists). }
  assert (Ha : is_Some (values !! "actual"%string)).
  { unfold values, repr_entry.
    repeat (case_match; simplify_map_eq; try by eexists). }
  destruct He as [e He], Ha as [a Ha].
  cbn. rewrite He, Ha, Hv. done.
Qed.

(** X28. A one-argument assertion whose argument is a call, found as the
    statement of the line, makes the extraction index a second argument:
    the handler ends in an [IndexError] that takes the place of the
    assertion's error. *)
Theorem one_argument_assertion_of_call_ends_in_index_error (code : str) (attr name : string)
    (f : node) (fargs : list node) (message : str) (helpful : option str) (x : value) :
  String.prefix "assert" attr = true →
  name ∈ ["True"; "False"; "IsNone"; "IsNotNone"]%string →
  assert_wrapper code (Some (Expr (Call (Attribute (Name "self") attr) [Call f fargs])))
    name (Some (AssertionError message helpful)) [x] ∅
  = Some (OtherError IndexError).
Proof.
  intros Hattr Hname.
  assert (Hn : num_args name = 1%nat ∧ bool_decide (name ∈ NO_FUNC_CALL) = false).
  { repeat (apply elem_of_cons in Hname as [->|Hname]; [by vm_compute|]).
    by apply elem_of_nil in Hname. }
  destruct Hn as [Hnum Hno].
  unfold assert_wrapper, AssertMod.add_helpful_msg. rewrite Hnum, Hno.
  cbn. by rewrite Hattr.
Qed.


End EnrichFactsSection.

Lemma first_argument_reported_as_expected_witness :
  extract_from_assert_call (fun _ => []) (Some OtherNode) 2 = Ok (None, (-1)%Z)
  ∧ "Equal"%string
    ∈ ["Equal"; "NotEqual"; "Greater"; "GreaterEqual"; "Less"; "LessEqual"]%string
  ∧ TEMPLATES !! "Equal"%string
    = Some [T "Expected return value: "; Slot "expected"; BR;
            T "Actual return value:   "; Slot "actual"]
  ∧ add_helpful_msg (fun _ => []) (fun v : str => v) (fun v => v) (fun _ => None)
      (fun v => bool_decide (v = [])) (fun x _ => x) (fun x => x) (fun x => x) (fun x => x)
      (s2l "7") (s2l "code") (Some OtherNode) "Equal" [s2l "4"; s2l "5"] ∅
    = Ok (Some (s2l "code" ++ [NL] ++ s2l "Expected return value: "
                ++ repr_ (fun v : str => v) (fun _ => None) (s2l "4") ++ [NL]
                ++ s2l "Actual return value:   "
                ++ repr_ (fun v : str => v) (fun _ => None) (s2l "5"))).
Proof.
  split; [reflexivity|]. split; [constructor|]. split; [reflexivity|].
  apply (first_argument_reported_as_expected (fun _ => []) (fun v : str => v) (fun v => v)
           (fun _ => None) (fun v => bool_decide (v = [])) (fun x _ => x) (fun x => x)
           (fun x => x) (fun x => x) (s2l "7") (s2l "code") (Some OtherNode) "Equal"
           "Expected return value: " "Actual return value:   " (s2l "4") (s2l "5") [] ∅).
  - reflexivity.
  - constructor.
  - reflexivity.
Defined.

Lemma IsInstance_not_enriched_without_call_witness :
  extract_from_assert_call (fun _ => []) (Some OtherNode) 2 = Ok (None, (-1)%Z)
  ∧ (-1)%Z ≠ 0%Z
  ∧ assert_wrapper (fun _ => []) (fun v : str => v) (fun v => v) (fun _ => None)
      (fun v => bool_decide (v = [])) (fun x _ => x) (fun x => x) (fun x => x) (fun x => x)
      (s2l "7") (s2l "code") (Some OtherNode) "IsInstance"
      (Some (AssertionError (s2l "not an instance") None)) [s2l "4"; s2l "int"] ∅
    = Some (AssertionError (s2l "not an instance") None).
Proof.
  split; [reflexivity|]. split; [lia|].
  apply (IsInstance_not_enriched_without_call (fun _ => []) (fun v : str => v) (fun v => v)
           (fun _ => None) (fun v => bool_decide (v = [])) (fun x _ => x) (fun x => x)
           (fun x => x) (fun x => x) (s2l "7") (s2l "code") (Some OtherNode) None (-1)
           (s2l "not an instance") None (s2l "4") (s2l "int")).
  - reflexivity.
  - lia.
Defined.

Lemma assert_wrapper_keeps_error_with_own_message_witness :
  bool_decide (s2l "too small" = []) = false
  ∧ ((∅ : gmap string str) !! "msg"%string = Some (s2l "too small")
     ∨ [s2l "4"; s2l "5"; s2l "too small"] !! num_args "Equal" = Some (s2l "too small"))
  ∧ assert_wrapper (fun _ => []) (fun v : str => v) (fun v => v) (fun _ => None)
      (fun v => bool_decide (v = [])) (fun x _ => x) (fun x => x) (fun x => x) (fun x => x)
      (s2l "7") (s2l "code") (Some OtherNode) "Equal"
      (Some (AssertionError (s2l "4 != 5 : too small") None))
      [s2l "4"; s2l "5"; s2l "too small"] ∅
    = Some (AssertionError (s2l "4 != 5 : too small") None).
Proof.
  split; [reflexivity|]. split; [right; reflexivity|].
  apply (assert_wrapper_keeps_error_with_own_message (fun _ => []) (fun v : str => v)
           (fun v => v) (fun _ => None) (fun v => bool_decide (v = [])) (fun x _ => x)
           (fun x => x) (fun x => x) (fun x => x) (s2l "7") (s2l "code") (Some OtherNode)
           "Equal" (s2l "4 != 5 : too small") None [s2l "4"; s2l "5"; s2l "too small"] ∅
           (s2l "too small")).
  - reflexivity.
  - right. reflexivity.
Defined.

Lemma NotIsInstance_ends_in_key_error_witness :
  extract_from_assert_call (fun _ => []) (Some OtherNode) 2 = Ok (None, (-1)%Z)
  ∧ assert_wrapper (fun _ => []) (fun v : str => v) (fun v => v) (fun _ => None)
      (fun v => bool_decide (v = [])) (fun x _ => x) (fun x => x) (fun x => x) (fun x => x)
      (s2l "7") (s2l "code") (Some OtherNode) "NotIsInstance"
      (Some (AssertionError (s2l "is an instance") None)) [s2l "4"; s2l "int"] ∅
    = Some (OtherError (KeyError "actual_type")).
Proof.
  split; [reflexivity|].
  apply (NotIsInstance_ends_in_key_error (fun _ => []) (fun v : str => v) (fun v => v)
           (fun _ => None) (fun v => bool_decide (v = [])) (fun x _ => x) (fun x => x)
           (fun x => x) (fun x => x) (s2l "7") (s2l "code") (Some OtherNode) (None, (-1)%Z)
           (s2l "is an instance") None (s2l "4") (s2l "int")).
  reflexivity.
Defined.

Lemma one_argument_assertion_of_call_ends_in_index_error_witness :
  String.prefix "assert" "assertTrue" = true
  ∧ "True"%string ∈ ["True"; "False"; "IsNone"; "IsNotNone"]%string
  ∧ assert_wrapper (fun _ => []) (fun v : str => v) (fun v => v) (fun _ => None)
      (fun v => bool_decide (v = [])) (fun x _ => x) (fun x => x) (fun x => x) (fun x => x)
      (s2l "7") (s2l "code")
      (Some (Expr (Call (Attribute (Name "self") "assertTrue") [Call (Name "f") [Num]])))
      "True" (Some (AssertionError (s2l "False is not true") None)) [s2l "False"] ∅
    = Some (OtherError IndexError).
Proof.
  split; [reflexivity|]. split; [constructor|].
  apply (one_argument_assertion_of_call_ends_in_index_error (fun _ => []) (fun v : str => v)
           (fun v => v) (fun _ => None) (fun v => bool_decide (v = [])) (fun x _ => x)
           (fun x => x) (fun x => x) (fun x => x) (s2l "7") (s2l "code") "assertTrue" "True"
           (Name "f") [Num] (s2l "False is not true") None (s2l "False")).
  - reflexivity.
  - constructor.
Defined.


End EnrichFacts.

Module TouchingFacts.
Import Markers Html Styled Diff Touching StyledFacts.

(** The marker of a style that comes earlier in the order of the three
    [__styling] calls, met in a span of a later one: the call for the
    earlier style gives the opening tag, and the call for the later one puts
    its closing tag before it. *)
Lemma marker_step_switch (out : str) (s' s : style) (l : str) :
  (rank s < rank s')%nat → nonmarker_last l →
  conv_step (st_of out (Some s') l) (marker_of s)
  = st_of (out ++ close_tag s' ++ open_tag s) (Some s) [marker_of s].
Proof.
  intros Hrank Hl.
  pose proof (nonmarker_last_neq l s' Hl) as Hneq.
  destruct s, s'; simpl in Hrank; try lia;
    unfold conv_step, styling, st_of; simpl; simpl in Hneq;
    rewrite ?(str_eqb_false _ _ Hneq); simpl; by rewrite <- ?app_assoc.
Qed.

(** A whole non-empty span that follows a span of a later style directly. *)
Lemma marked_run_switch (s' s : style) (t : str) (out l : str) :
  t ≠ [] → marker_free t = true → (rank s < rank s')%nat → nonmarker_last l →
  ∃ l', conv_loop (st_of out (Some s') l) (marked s t)
        = st_of (out ++ close_tag s' ++ open_tag s ++ escape t) (Some s) l'
        ∧ nonmarker_last l'.
Proof.
  destruct t as [|c t]; [done|]. intros _ Hfree Hrank Hl.
  simpl in Hfree. apply andb_true_iff in Hfree as [Hc Hfree].
  apply negb_true_iff in Hc.
  unfold marked. simpl. fold (marked s t).
  rewrite marker_step_switch by done.
  rewrite (char_after_marker _ _ _ (tr_not_marker s c Hc)), escape_tr.
  destruct (marked_run_cont s t ((out ++ close_tag s' ++ open_tag s) ++ escape_char c)
              [tr s c] Hfree) as (l' & -> & Hl').
  { exists (tr s c). split; [done|]. by apply tr_not_marker. }
  exists l'. split; [|done]. rewrite escape_cons. by rewrite <- !app_assoc.
Qed.

(** The decoder on an encoded document whose spans may touch in the
    order of the styles, from any state the scan can be in. *)
Lemma convert_encode_ordered_from (segs : list segment) : ∀ (prev : option style)
    (out : str) (l : str),
  (is_Some prev → nonmarker_last l) →
  well_ordered_from prev segs = true →
  conv_finish (conv_loop (st_of out prev l) (encode segs))
  = out ++ pending prev ++ concat (map render_segment segs) ++ s2l "</pre>".
Proof.
  induction segs as [|[os t] segs IH]; intros prev out l Hst Hwf.
  - simpl. apply conv_finish_st_of.
  - change (encode ((os, t) :: segs)) with (encode_segment (os, t) ++ encode segs).
    change (concat (map render_segment ((os, t) :: segs)))
      with (render_segment (os, t) ++ concat (map render_segment segs)).
    rewrite conv_loop_app.
    destruct t as [|c t].
    + assert (encode_segment (os, []) = []) as -> by by destruct os as [[]|].
      assert (render_segment (os, []) = []) as -> by by destruct os as [[]|].
      simpl. apply (IH prev); [done|]. by destruct os.
    + destruct os as [s|].
      * simpl in Hwf. apply andb_true_iff in Hwf as [Hwf Hrest].
        apply andb_true_iff in Hwf as [Hfree Hadj].
        rewrite encode_segment_marked.
        change (render_segment (Some s, c :: t))
          with (open_tag s ++ escape (c :: t) ++ close_tag s).
        destruct prev as [s'|].
        -- apply Nat.ltb_lt in Hadj.
           destruct (marked_run_switch s' s (c :: t) out l) as (l' & -> & Hl');
             [done|done|done|by apply Hst|].
           rewrite (IH (Some s)); [|done|done].
           simpl pending. by rewrite <- !app_assoc.
        -- destruct (marked_run s (c :: t) out l) as (l' & -> & Hl'); [done..|].
           rewrite (IH (Some s)); [|done|done].
           simpl pending. by rewrite <- !app_assoc.
      * simpl in Hwf. apply andb_true_iff in Hwf as [Hfree Hrest].
        change (encode_segment (None, c :: t)) with (c :: t).
        destruct (plain_run (c :: t) out prev l) as [l' ->]; [done..| |].
        { intros s ->. apply nonmarker_last_neq. by apply Hst. }
        rewrite (IH None); [|by intros []|done].
        change (render_segment (None, c :: t)) with (escape (c :: t)).
        simpl pending. by rewrite <- !app_assoc.
Qed.

(** X18. The round trip of the codec also holds for styled spans that touch,
    as long as the later span has the style that comes earlier in the order
    bold, underline, strikethrough: a strikethrough followed at once by an
    underline, which is what a replacement in a diff looks like, is decoded
    into its two tagged spans. *)
Theorem convert_to_html_touching_spans (segs : list segment) :
  well_ordered segs = true →
  convert_to_html (encode segs) = render segs.
Proof.
  intros Hwf. unfold convert_to_html, render.
  change conv_init with (st_of (s2l "<pre>") None []).
  rewrite (convert_encode_ordered_from segs None); [done| |done].
  by intros [].
Qed.

Lemma convert_to_html_touching_spans_witness :
  well_ordered [(None, s2l "x = "); (Some Strikethrough, s2l "12");
                (Some Underline, s2l "21"); (None, [NL])] = true
  ∧ convert_to_html (encode [(None, s2l "x = "); (Some Strikethrough, s2l "12");
                             (Some Underline, s2l "21"); (None, [NL])])
    = render [(None, s2l "x = "); (Some Strikethrough, s2l "12");
              (Some Underline, s2l "21"); (None, [NL])].
Proof.
  split; [reflexivity|].
  apply convert_to_html_touching_spans. reflexivity.
Defined.

Section DocumentFacts.
Context (chars : SequenceMatcher Z).

Lemma encode_app (segs1 segs2 : list segment) :
  encode (segs1 ++ segs2) = encode segs1 ++ encode segs2.
Proof. unfold encode. by rewrite map_app, concat_app. Qed.

(** The loop of [__diff_line] gives the encoding of the document of the
    opcodes. *)
Lemma render_opcodes_document (a b : str) (ops : list opcode) : ∀ out : str,
  fold_left (fun out op =>
    match op_tag op with
    | equal => out ++ slice a (i1 op) (i2 op)
    | delete => out ++ strikethrough (slice a (i1 op) (i2 op))
    | insert => out ++ underline (slice b (j1 op) (j2 op))
    | replace => (out ++ strikethrough (slice a (i1 op) (i2 op)))
                 ++ underline (slice b (j1 op) (j2 op))
    end) ops out
  = out ++ encode (document a b ops).
Proof.
  induction ops as [|op ops IH]; intros out.
  - simpl. by rewrite app_nil_r.
  - cbn [fold_left]. rewrite IH.
    change (document a b (op :: ops))
      with (segments_of_opcode a b op ++ document a b ops).
    rewrite encode_app. unfold segments_of_opcode.
    destruct (op_tag op); unfold encode; simpl; by rewrite ?app_nil_r, <- ?app_assoc.
Qed.

Lemma diff_line_document (a b : str) :
  diff_line chars a b 0 = Some (encode (document a b (get_opcodes chars a b))).
Proof.
  unfold diff_line. simpl. by rewrite render_opcodes_document.
Qed.

Lemma plain_of_app (segs1 segs2 : list segment) :
  plain_of (segs1 ++ segs2) = plain_of segs1 ++ plain_of segs2.
Proof. unfold plain_of. by rewrite map_app, concat_app. Qed.

Lemma without_app (s : style) (segs1 segs2 : list segment) :
  without s (segs1 ++ segs2) = without s segs1 ++ without s segs2.
Proof. apply List.filter_app. Qed.

Lemma slice_slice_drop {A} (xs : list A) (i j : nat) :
  (i <= j)%nat → slice xs i j ++ drop j xs = drop i xs.
Proof.
  intros Hij. unfold slice.
  rewrite <- (take_drop (j - i) (drop i xs)) at 2.
  rewrite drop_drop. do 2 f_equal. lia.
Qed.

Lemma edit_script_sides (a b : str) (ops : list opcode) : ∀ i j : nat,
  edit_script_from a b i j ops →
  plain_of (without Underline (document a b ops)) = drop i a
  ∧ plain_of (without Strikethrough (document a b ops)) = drop j b.
Proof.
  induction ops as [|op ops IH]; intros i j Hes.
  - destruct Hes as [-> ->]. by rewrite !drop_all.
  - destruct Hes as (Hi & Hj & Hile & Hjle & Htag & Hrest).
    destruct (IH _ _ Hrest) as [IHa IHb].
    change (document a b (op :: ops))
      with (segments_of_opcode a b op ++ document a b ops).
    rewrite !without_app, !plain_of_app, IHa, IHb.
    unfold segments_of_opcode. subst i j.
    destruct (op_tag op); cbn; rewrite ?app_nil_r.
    + split; [by apply slice_slice_drop|]. rewrite Htag. by apply slice_slice_drop.
    + split; [by apply slice_slice_drop|]. by rewrite Htag.
    + split; [by rewrite Htag|]. by apply slice_slice_drop.
    + split; by apply slice_slice_drop.
Qed.

(** X19. No character of either text is lost in a diff: when the opcodes are an
    edit script, what [__diff_line] returns is the encoding of a document
    that reads as the first text when the underlined spans are left out,
    and as the second text when the struck spans are left out. *)
Theorem diff_line_keeps_both_texts (a b : str) :
  edit_script a b (get_opcodes chars a b) →
  diff_line chars a b 0 = Some (encode (document a b (get_opcodes chars a b)))
  ∧ plain_of (without Underline (document a b (get_opcodes chars a b))) = a
  ∧ plain_of (without Strikethrough (document a b (get_opcodes chars a b))) = b.
Proof.
  intros Hes. split; [apply diff_line_document|].
  by apply (edit_script_sides a b _ 0%nat 0%nat).
Qed.

Lemma marker_free_slice (t : str) (i j : nat) :
  marker_free t = true → marker_free (slice t i j) = true.
Proof.
  unfold marker_free, slice. rewrite !forallb_forall.
  intros H c Hin. apply H.
  apply list_elem_of_In in Hin. apply list_elem_of_In.
  by apply (subseteq_drop i t), (subseteq_take (j - i) (drop i t)).
Qed.

Lemma alternating_well_ordered (a b : str) (ops : list opcode) :
  marker_free a = true → marker_free b = true →
  ∀ (after_change : bool) (prev : option style),
  (after_change = false → prev = None) →
  alternating_from a after_change ops = true →
  well_ordered_from prev (document a b ops) = true.
Proof.
  intros Ha Hb. induction ops as [|op ops IH]; intros after_change prev Hprev Halt; [done|].
  change (document a b (op :: ops)) with (segments_of_opcode a b op ++ document a b ops).
  cbn [alternating_from] in Halt. unfold segments_of_opcode.
  pose proof (marker_free_slice a (i1 op) (i2 op) Ha) as Hfa.
  pose proof (marker_free_slice b (j1 op) (j2 op) Hb) as Hfb.
  destruct (op_tag op).
  - apply andb_true_iff in Halt as [Hne Halt].
    apply negb_true_iff, bool_decide_eq_false in Hne.
    cbn [app well_ordered_from].
    destruct (slice a (i1 op) (i2 op)) as [|c t] eqn:Hs; [done|].
    rewrite Hfa. simpl. by apply (IH false).
  - apply andb_true_iff in Halt as [Hac Halt]. apply negb_true_iff in Hac.
    rewrite (Hprev Hac). cbn [app well_ordered_from].
    destruct (slice a (i1 op) (i2 op)) as [|c t] eqn:Hs.
    + by apply (IH true).
    + rewrite Hfa. simpl. by apply (IH true).
  - apply andb_true_iff in Halt as [Hac Halt]. apply negb_true_iff in Hac.
    rewrite (Hprev Hac). cbn [app well_ordered_from].
    destruct (slice b (j1 op) (j2 op)) as [|c t] eqn:Hs.
    + by apply (IH true).
    + rewrite Hfb. simpl. by apply (IH true).
  - apply andb_true_iff in Halt as [Hac Halt]. apply negb_true_iff in Hac.
    rewrite (Hprev Hac). cbn [app well_ordered_from].
    destruct (slice a (i1 op) (i2 op)) as [|c t] eqn:Hs;
      destruct (slice b (j1 op) (j2 op)) as [|d u] eqn:Hs'; cbn [well_ordered_from];
      rewrite ?Hfa, ?Hfb; simpl; by apply (IH true).
Qed.

(** X20. The diff of two texts without marker characters, made from opcodes
    in which changes and non-empty equal blocks take turns, comes out of
    the HTML converter with every struck span in [del] tags, every
    underlined span in [ins] tags and the rest escaped. *)
Theorem diff_line_converts_to_html (a b : str) :
  marker_free a = true → marker_free b = true →
  alternating a (get_opcodes chars a b) = true →
  ∃ diff, diff_line chars a b 0 = Some diff
          ∧ convert_to_html diff = render (document a b (get_opcodes chars a b)).
Proof.
  intros Ha Hb Halt. eexists. split; [apply diff_line_document|].
  unfold convert_to_html, render.
  change conv_init with (st_of (s2l "<pre>") None []).
  rewrite (convert_encode_ordered_from _ None); [done|by intros []|].
  by apply (alternating_well_ordered a b _ Ha Hb false None).
Qed.

End DocumentFacts.

Lemma diff_line_keeps_both_texts_witness :
  edit_script (s2l "cat") (s2l "dog") (get_opcodes whole_matcher (s2l "cat") (s2l "dog"))
  ∧ diff_line whole_matcher (s2l "cat") (s2l "dog") 0
    = Some (encode (document (s2l "cat") (s2l "dog")
                      (get_opcodes whole_matcher (s2l "cat") (s2l "dog"))))
  ∧ plain_of (without Underline (document (s2l "cat") (s2l "dog")
                (get_opcodes whole_matcher (s2l "cat") (s2l "dog")))) = s2l "cat"
  ∧ plain_of (without Strikethrough (document (s2l "cat") (s2l "dog")
                (get_opcodes whole_matcher (s2l "cat") (s2l "dog")))) = s2l "dog".
Proof.
  split; [vm_compute; repeat split; lia|].
  apply (diff_line_keeps_both_texts whole_matcher (s2l "cat") (s2l "dog")).
  vm_compute. repeat split; lia.
Defined.

Lemma diff_line_converts_to_html_witness :
  marker_free (s2l "cat") = true ∧ marker_free (s2l "dog") = true
  ∧ alternating (s2l "cat") (get_opcodes whole_matcher (s2l "cat") (s2l "dog")) = true
  ∧ ∃ diff, diff_line whole_matcher (s2l "cat") (s2l "dog") 0 = Some diff
            ∧ convert_to_html diff
              = render (document (s2l "cat") (s2l "dog")
                          (get_opcodes whole_matcher (s2l "cat") (s2l "dog"))).
Proof.
  split; [reflexivity|]. split; [reflexivity|]. split; [reflexivity|].
  apply (diff_line_converts_to_html whole_matcher (s2l "cat") (s2l "dog")); reflexivity.
Defined.

End TouchingFacts.

Module UtilsFacts.
Import PyStr Utils PyStrFacts.

Lemma is_linebreak_NL : is_linebreak NL = true.
Proof. reflexivity. Qed.

(** The lines of [splitlines] hold no line feed. *)
Lemma splitlines_from_no_NL (s : str) : ∀ (cur : str) (after_cr : bool),
  NL ∉ cur → Forall (fun l => NL ∉ l) (splitlines_from cur after_cr s).
Proof.
  induction s as [|c s IH]; intros cur after_cr Hcur; simpl.
  - destruct cur; [constructor|]. by repeat constructor.
  - destruct (after_cr && (c =? 10)); [by apply IH|].
    destruct (is_linebreak c) eqn:Hc.
    + constructor; [done|]. apply IH, not_elem_of_nil.
    + apply IH. rewrite elem_of_app, list_elem_of_singleton.
      intros [H|H]; [done|]. subst c. by rewrite is_linebreak_NL in Hc.
Qed.

Lemma splitlines_from_not_nil (s : str) : ∀ (cur : str) (after_cr : bool),
  cur ≠ [] → splitlines_from cur after_cr s ≠ [].
Proof.
  induction s as [|c s IH]; intros cur after_cr Hcur; simpl.
  - by destruct cur.
  - destruct (after_cr && (c =? 10)); [by apply IH|].
    destruct (is_linebreak c); [done|]. apply IH. by destruct cur.
Qed.

Lemma splitlines_not_nil (s : str) : s ≠ [] → splitlines s ≠ [].
Proof.
  destruct s as [|c s]; [done|]. intros _. unfold splitlines. simpl.
  destruct (is_linebreak c); [done|]. by apply splitlines_from_not_nil.
Qed.

Lemma join_indented (spaces : str) (ls : list str) :
  ls ≠ [] →
  spaces ++ join ([NL] ++ spaces) ls = join [NL] (map (app spaces) ls).
Proof.
  induction ls as [|l ls IH]; [done|]. intros _.
  destruct ls as [|l' ls]; [done|].
  change (join ([NL] ++ spaces) (l :: l' :: ls))
    with (l ++ ([NL] ++ spaces) ++ join ([NL] ++ spaces) (l' :: ls)).
  change (join [NL] (map (app spaces) (l :: l' :: ls)))
    with ((spaces ++ l) ++ [NL] ++ join [NL] (map (app spaces) (l' :: ls))).
  rewrite <- IH by done. by rewrite <- !app_assoc.
Qed.

(** X22. The lines of an indented text are the lines of the text, as
    [splitlines] cuts them at any kind of line boundary, each after the
    indentation: the result has line feeds only, between the lines, and none
    at its end. *)
Theorem indent_lines_lines (string : str) (spaces : nat) :
  string ≠ [] →
  split NL (indent_lines string spaces) = map (app (repeat 32 spaces)) (splitlines string)
  ∧ split NL (AssertMod.indent_lines string spaces)
    = map (app (repeat 32 spaces)) (splitlines string).
Proof.
  intros Hne.
  assert (H : split NL (indent_lines string spaces)
              = map (app (repeat 32 spaces)) (splitlines string)).
  { unfold indent_lines. destruct string as [|c s]; [done|].
    rewrite join_indented by by apply splitlines_not_nil.
    apply split_join.
    - pose proof (splitlines_not_nil (c :: s) Hne). by destruct (splitlines (c :: s)).
    - apply Forall_map.
      eapply Forall_impl; [apply (splitlines_from_no_NL (c :: s) [] false), not_elem_of_nil|].
      intros l Hl. simpl. rewrite elem_of_app. intros [Hin|Hin]; [|done].
      apply list_elem_of_In, repeat_spec in Hin. discriminate Hin. }
  split; [exact H|exact H].
Qed.

Lemma indent_lines_lines_witness :
  s2l "a" ++ [13; 10] ++ s2l "b" ++ [NL] ≠ []
  ∧ split NL (indent_lines (s2l "a" ++ [13; 10] ++ s2l "b" ++ [NL]) 4)
    = map (app (repeat 32 4%nat)) (splitlines (s2l "a" ++ [13; 10] ++ s2l "b" ++ [NL]))
  ∧ split NL (AssertMod.indent_lines (s2l "a" ++ [13; 10] ++ s2l "b" ++ [NL]) 4)
    = map (app (repeat 32 4%nat)) (splitlines (s2l "a" ++ [13; 10] ++ s2l "b" ++ [NL])).
Proof.
  split; [done|].
  apply (indent_lines_lines (s2l "a" ++ [13; 10] ++ s2l "b" ++ [NL]) 4). done.
Defined.

End UtilsFacts.

Module CallFacts.
Import PyStr Asserts.

Lemma join_app (sep : str) (l1 l2 : list str) :
  join sep (l1 ++ l2)
  = join sep l1
    ++ match l1, l2 with
       | _ :: _, _ :: _ => sep
       | _, _ => []
       end
    ++ join sep l2.
Proof.
  induction l1 as [|x l1 IH]; [done|].
  destruct l1 as [|y l1].
  - destruct l2; simpl; by rewrite ?app_nil_r.
  - change (join sep ((x :: y :: l1) ++ l2)) with (x ++ sep ++ join sep ((y :: l1) ++ l2)).
    rewrite IH. change (join sep (x :: y :: l1)) with (x ++ sep ++ join sep (y :: l1)).
    destruct l2; by rewrite <- !app_assoc.
Qed.

(** X12. The text of a call lists the [repr] of the positional arguments and
    then the keyword arguments as [key=repr], all separated by a comma and a
    space, between the parentheses after the qualified name. *)
Theorem call_to_str_lists_all_arguments {value : Type} (py_repr : value → str)
    (module qualname : str) (args : list value) (kwargs : list (str * value)) :
  call_to_str py_repr module qualname args kwargs
  = module ++ s2l "." ++ qualname ++ s2l "("
    ++ join (s2l ", ")
         (map py_repr args ++ map (fun kv => kv.1 ++ s2l "=" ++ py_repr kv.2) kwargs)
    ++ s2l ")".
Proof.
  unfold call_to_str. rewrite join_app.
  assert (map (fun '(key, value) => key ++ s2l "=" ++ py_repr value) kwargs
          = map (fun kv => kv.1 ++ s2l "=" ++ py_repr kv.2) kwargs) as ->.
  { apply map_ext. by intros []. }
  destruct args, kwargs; simpl; by rewrite <- ?app_assoc.
Qed.

End CallFacts.

Module DiffLinesFacts.
Import Markers Diff.

Section DiffLinesFactsSection.
Context (chars : SequenceMatcher Z) (lines : SequenceMatcher str).

Lemma render_equal_line_opcodes (a b : list str) (ops : list opcode) : ∀ out : list str,
  Forall (fun op => op_tag op = equal) ops →
  fold_left (fun out op =>
    match op_tag op with
    | equal => out ++ slice a (i1 op) (i2 op)
    | delete => out ++ map strikethrough (slice a (i1 op) (i2 op))
    | insert => out ++ map underline (slice b (j1 op) (j2 op))
    | replace => diff_replace chars out a b op
    end) ops out
  = out ++ concat (map (fun op => slice a (i1 op) (i2 op)) ops).
Proof.
  induction ops as [|op ops IH]; intros out Hall; simpl.
  - by rewrite app_nil_r.
  - apply Forall_cons in Hall as [Hop Hall]. rewrite Hop, IH by done.
    by rewrite <- app_assoc.
Qed.

(** X21. The line diff of a list of lines against itself gives the lines back
    unmarked, the matcher recognising identical sequences as [difflib]'s
    does. *)
Theorem diff_lines_identical (a : list str) :
  recognises_identical lines a → diff_lines chars lines a a = a.
Proof.
  intros (_ & Hequal & Hcover). unfold diff_lines.
  rewrite render_equal_line_opcodes by done. by rewrite Hcover.
Qed.

End DiffLinesFactsSection.

Lemma diff_lines_identical_witness :
  recognises_identical whole_matcher [s2l "Hello"; s2l "World"]
  ∧ diff_lines whole_matcher whole_matcher [s2l "Hello"; s2l "World"]
      [s2l "Hello"; s2l "World"]
    = [s2l "Hello"; s2l "World"].
Proof.
  split; [split_and!; [reflexivity|repeat constructor|reflexivity]|].
  apply (diff_lines_identical whole_matcher whole_matcher [s2l "Hello"; s2l "World"]).
  split_and!; [reflexivity|repeat constructor|reflexivity].
Defined.

End DiffLinesFacts.

Module StreamsFacts.
Import PyStr Utils Session Streams PyStrFacts StringIOFacts SessionFacts.
Local Open Scope nat_scope.

#[local] Arguments _read : simpl never.
#[local] Arguments _readline : simpl never.

(** The two wrappers in one: what a wrapped call returns stands at the
    position of the source, which advances by it; it is written to the sink
    at the position of the sink, and the range recorded for it starts at the
    length of the sink. *)
Lemma wrapper_step (ss : session) (wrapper : session → str * session) :
  (∃ size, wrapper = _read size) ∨ (∃ size, wrapper = _readline size) →
  ∃ data in',
    wrapper ss
    = (data, Session (StringIO.write (out ss) data) in'
               (inpt_ranges ss ++ [(length (StringIO.value (out ss)), length data)]))
    ∧ StringIO.value in' = StringIO.value (in_ ss)
    ∧ StringIO.pos in' = StringIO.pos (in_ ss) + length data
    ∧ data `prefix_of` drop (StringIO.pos (in_ ss)) (StringIO.value (in_ ss)).
Proof.
  intros [[size ->]|[size ->]].
  - unfold _read. pose proof (read_spec (in_ ss) size) as Hspec.
    destruct (StringIO.read (in_ ss) size) as [data in'].
    destruct Hspec as (Hv & Hp & Hpre). by exists data, in'.
  - unfold _readline. pose proof (readline_spec (in_ ss) size) as Hspec.
    destruct (StringIO.readline (in_ ss) size) as [data in'].
    destruct Hspec as (Hv & Hp & Hpre). by exists data, in'.
Qed.

Lemma next_spec (f : StringIO.t) :
  StringIO.value (next f).2 = StringIO.value f
  ∧ StringIO.pos f <= StringIO.pos (next f).2
  ∧ (StringIO.pos f <= length (StringIO.value f) →
     StringIO.pos (next f).2 <= length (StringIO.value f)).
Proof.
  unfold next. pose proof (readline_spec f None) as Hspec.
  destruct (StringIO.readline f None) as [data f'].
  destruct Hspec as (Hv & Hp & Hpre).
  apply prefix_length in Hpre. rewrite length_drop in Hpre.
  destruct data; simpl in *; split_and!; try done; lia.
Qed.

Lemma readlines_spec (f : StringIO.t) :
  StringIO.value (readlines f).2 = StringIO.value f
  ∧ StringIO.pos f <= StringIO.pos (readlines f).2
  ∧ (StringIO.pos f <= length (StringIO.value f) →
     StringIO.pos (readlines f).2 <= length (StringIO.value f)).
Proof.
  unfold readlines. simpl. rewrite length_drop. split_and!; [done|lia|lia].
Qed.

(** No operation changes the text of the source. *)
Lemma run_in_value {R} (p : prog R) : ∀ ss,
  StringIO.value (in_ (run p ss).2) = StringIO.value (in_ ss).
Proof.
  induction p as [r|e|s k IH|pos k IH|size k IH|size k IH|size k IH|k IH|k IH|pos k IH|k IH];
    intros ss; cbn [run fst snd].
  - done.
  - done.
  - by rewrite IH.
  - by rewrite IH.
  - by rewrite IH.
  - destruct (wrapper_step ss (_read size)) as (data & in' & -> & Hv & _); [by eauto|].
    by rewrite IH.
  - destruct (wrapper_step ss (_readline size)) as (data & in' & -> & Hv & _); [by eauto|].
    by rewrite IH.
  - pose proof (next_spec (in_ ss)) as (Hv & _).
    destruct (next (in_ ss)) as [line i]. by rewrite IH.
  - pose proof (readlines_spec (in_ ss)) as (Hv & _).
    destruct (readlines (in_ ss)) as [ls i]. by rewrite IH.
  - by rewrite IH.
  - by rewrite IH.
Qed.

(** Without a seek the position of the source only advances, and stays
    inside the text. *)
Lemma run_in_pos {R} (p : prog R) : ∀ ss,
  never_seeks_input p ss = true →
  StringIO.pos (in_ ss) <= length (StringIO.value (in_ ss)) →
  StringIO.pos (in_ ss) <= StringIO.pos (in_ (run p ss).2)
  ∧ StringIO.pos (in_ (run p ss).2) <= length (StringIO.value (in_ ss)).
Proof.
  induction p as [r|e|s k IH|pos k IH|size k IH|size k IH|size k IH|k IH|k IH|pos k IH|k IH];
    intros ss Hns Hpos; cbn [run never_seeks_input fst snd] in *; try done.
  - by apply (IH (with_out ss _)).
  - by apply (IH (with_out ss _)).
  - by apply (IH (with_out ss _)).
  - destruct (wrapper_step ss (_read size)) as (data & in' & Hw & Hv & Hp & Hpre); [by eauto|].
    rewrite Hw in *. apply prefix_length in Hpre. rewrite length_drop in Hpre.
    destruct (IH data _ Hns) as [H1 H2]; cbn [in_] in *; [rewrite Hv; lia|].
    rewrite Hv in H2. lia.
  - destruct (wrapper_step ss (_readline size)) as (data & in' & Hw & Hv & Hp & Hpre);
      [by eauto|].
    rewrite Hw in *. apply prefix_length in Hpre. rewrite length_drop in Hpre.
    destruct (IH data _ Hns) as [H1 H2]; cbn [in_] in *; [rewrite Hv; lia|].
    rewrite Hv in H2. lia.
  - pose proof (next_spec (in_ ss)) as (Hv & Hle & Hin).
    destruct (next (in_ ss)) as [line i]. cbn [fst snd] in *.
    destruct (IH line (with_in ss i) Hns) as [H1 H2]; cbn [in_ with_in] in *.
    { rewrite Hv. by apply Hin. }
    rewrite Hv in H2. lia.
  - pose proof (readlines_spec (in_ ss)) as (Hv & Hle & Hin).
    destruct (readlines (in_ ss)) as [ls i]. cbn [fst snd] in *.
    destruct (IH ls (with_in ss i) Hns) as [H1 H2]; cbn [in_ with_in] in *.
    { rewrite Hv. by apply Hin. }
    rewrite Hv in H2. lia.
  - by apply (IH _ _ ss).
Qed.

(** The ranges a run appends, one for each wrapped call, with the length
    of what the call returned: this needs nothing of the function. *)
Lemma run_range_lengths {R} (p : prog R) : ∀ ss,
  ∃ new, inpt_ranges (run p ss).2 = inpt_ranges ss ++ new
         ∧ Forall2 (fun r data => r.2 = length data) new (reads p ss).
Proof.
  assert (Hnil : ∀ ss : session, ∃ new : list (nat * nat),
            inpt_ranges ss = inpt_ranges ss ++ new
            ∧ Forall2 (fun r (data : str) => r.2 = length data) new []).
  { intros ss. exists []. by rewrite app_nil_r. }
  induction p as [r|e|s k IH|pos k IH|size k IH|size k IH|size k IH|k IH|k IH|pos k IH|k IH];
    intros ss; cbn [run reads fst snd]; try apply Hnil.
  - apply (IH (with_out ss _)).
  - apply (IH (with_out ss _)).
  - apply (IH (with_out ss _)).
  - destruct (wrapper_step ss (_read size)) as (data & in' & -> & _); [by eauto|].
    destruct (IH data (Session (StringIO.write (out ss) data) in'
                         (inpt_ranges ss ++ [(length (StringIO.value (out ss)), length data)])))
      as (new & Heq & Hall).
    exists ((length (StringIO.value (out ss)), length data) :: new). split.
    + rewrite Heq. cbn [inpt_ranges]. by rewrite <- app_assoc.
    + by constructor.
  - destruct (wrapper_step ss (_readline size)) as (data & in' & -> & _); [by eauto|].
    destruct (IH data (Session (StringIO.write (out ss) data) in'
                         (inpt_ranges ss ++ [(length (StringIO.value (out ss)), length data)])))
      as (new & Heq & Hall).
    exists ((length (StringIO.value (out ss)), length data) :: new). split.
    + rewrite Heq. cbn [inpt_ranges]. by rewrite <- app_assoc.
    + by constructor.
  - destruct (next (in_ ss)) as [line i]. apply (IH line (with_in ss i)).
  - destruct (readlines (in_ ss)) as [ls i]. apply (IH ls (with_in ss i)).
  - apply (IH (with_in ss _)).
  - apply (IH _ _ ss).
Qed.

Lemma appended_start (inpt : str) : appended (start inpt).
Proof. by split. Qed.

Lemma appended_write (ss : session) (s : str) :
  appended ss → appended (with_out ss (StringIO.write (out ss) s)).
Proof.
  intros [Ho Hord Hin]. unfold with_out.
  rewrite (write_at_end _ _ Ho). split; simpl; try done.
  eapply Forall_impl; [exact Hin|]. simpl. intros r Hr. rewrite length_app. lia.
Qed.

Lemma appended_echo (ss : session) (data : str) (in' : StringIO.t) :
  appended ss →
  appended (Session (StringIO.write (out ss) data) in'
              (inpt_ranges ss ++ [(length (StringIO.value (out ss)), length data)])).
Proof.
  intros [Ho Hord Hin]. rewrite (write_at_end _ _ Ho). split; simpl.
  - done.
  - by apply ordered_disjoint_snoc.
  - apply Forall_app. split.
    + eapply Forall_impl; [exact Hin|]. simpl. intros r Hr. rewrite length_app. lia.
    + apply Forall_singleton. simpl. by rewrite length_app.
Qed.

Lemma slice_of_prefix (pre data full : str) :
  (pre ++ data) `prefix_of` full → slice full (length pre) (length pre + length data) = data.
Proof.
  intros [rest ->]. unfold slice.
  rewrite <- app_assoc, drop_app_length.
  replace (length pre + length data - length pre) with (length data) by lia.
  by rewrite take_app_length.
Qed.

(** A run that only appends keeps the sink appended, leaves what the sink
    held in place, and its new ranges hold the data of the wrapped reads. *)
Lemma run_appending {R} (p : prog R) : ∀ ss,
  only_appends p ss = true → appended ss →
  appended (run p ss).2
  ∧ StringIO.value (out ss) `prefix_of` StringIO.value (out (run p ss).2)
  ∧ ∃ new, inpt_ranges (run p ss).2 = inpt_ranges ss ++ new
      ∧ Forall2 (fun r data =>
                   slice (StringIO.value (out (run p ss).2)) r.1 (r.1 + r.2) = data)
          new (reads p ss).
Proof.
  assert (Hwrap : ∀ (k : str → prog R) (wrapper : session → str * session) (ss : session),
    (∀ data ss, only_appends (k data) ss = true → appended ss →
       appended (run (k data) ss).2
       ∧ StringIO.value (out ss) `prefix_of` StringIO.value (out (run (k data) ss).2)
       ∧ ∃ new, inpt_ranges (run (k data) ss).2 = inpt_ranges ss ++ new
           ∧ Forall2 (fun r data' =>
                slice (StringIO.value (out (run (k data) ss).2)) r.1 (r.1 + r.2) = data')
               new (reads (k data) ss)) →
    (∃ size, wrapper = _read size) ∨ (∃ size, wrapper = _readline size) →
    only_appends (k (wrapper ss).1) (wrapper ss).2 = true → appended ss →
    appended (run (k (wrapper ss).1) (wrapper ss).2).2
    ∧ StringIO.value (out ss)
      `prefix_of` StringIO.value (out (run (k (wrapper ss).1) (wrapper ss).2).2)
    ∧ ∃ new, inpt_ranges (run (k (wrapper ss).1) (wrapper ss).2).2 = inpt_ranges ss ++ new
        ∧ Forall2 (fun r data' =>
             slice (StringIO.value (out (run (k (wrapper ss).1) (wrapper ss).2).2))
               r.1 (r.1 + r.2) = data')
            new ((wrapper ss).1 :: reads (k (wrapper ss).1) (wrapper ss).2)).
  { intros k wrapper ss IH Hw Hoa Happ.
    destruct (wrapper_step ss wrapper Hw) as (data & in' & Heq & _).
    rewrite Heq in *. cbn [fst snd] in *.
    pose proof (appended_echo ss data in' Happ) as Happ'.
    destruct (IH data _ Hoa Happ') as (Hfin & Hgrow & new & Hr & Hall).
    cbn [out inpt_ranges] in Hgrow, Hr.
    assert (Hw' : StringIO.value (StringIO.write (out ss) data)
                  = StringIO.value (out ss) ++ data).
    { by rewrite (write_at_end _ _ (appended_pos _ Happ)). }
    rewrite Hw' in Hgrow.
    split_and!; [done|by etrans; [apply prefix_app_r|exact Hgrow]|].
    exists ((length (StringIO.value (out ss)), length data) :: new). split.
    - rewrite Hr. by rewrite <- app_assoc.
    - constructor; [|done]. cbn [fst snd]. by apply slice_of_prefix. }
  induction p as [r|e|s k IH|pos k IH|size k IH|size k IH|size k IH|k IH|k IH|pos k IH|k IH];
    intros ss Hoa Happ; cbn [run reads only_appends fst snd] in *; try done.
  - split_and!; [done..|]. exists []. by rewrite app_nil_r.
  - split_and!; [done..|]. exists []. by rewrite app_nil_r.
  - destruct (IH _ Hoa (appended_write ss s Happ)) as (Hfin & Hgrow & Hnew).
    split_and!; [done| |done]. etrans; [|exact Hgrow]. cbn [with_out out].
    rewrite (write_at_end _ _ (appended_pos _ Happ)). cbn. by apply prefix_app_r.
  - pose proof (Hwrap k (_read size) ss IH) as H.
    destruct (_read size ss) as [data ss']. apply H; eauto.
  - pose proof (Hwrap k (_readline size) ss IH) as H.
    destruct (_readline size ss) as [data ss']. apply H; eauto.
  - destruct (next (in_ ss)) as [line i]. apply (IH line (with_in ss i)); [done|].
    by destruct Happ.
  - destruct (readlines (in_ ss)) as [ls i]. apply (IH ls (with_in ss i)); [done|].
    by destruct Happ.
  - apply (IH (with_in ss _)); [done|]. by destruct Happ.
  - by apply (IH _ _ ss).
Qed.

(** The helper's own [in_.read()] after the run. *)
Lemma final_read_anywhere (ss : session) :
  _read None ss
  = (drop (StringIO.pos (in_ ss)) (StringIO.value (in_ ss)),
     Session (StringIO.write (out ss) (drop (StringIO.pos (in_ ss)) (StringIO.value (in_ ss))))
       (StringIO.Make (StringIO.value (in_ ss))
          (StringIO.pos (in_ ss)
           + length (drop (StringIO.pos (in_ ss)) (StringIO.value (in_ ss)))))
       (inpt_ranges ss
        ++ [(length (StringIO.getvalue (out ss)),
             length (drop (StringIO.pos (in_ ss)) (StringIO.value (in_ ss))))])).
Proof. reflexivity. Qed.

(** The input checks decide by how the run ended and by where it left the
    position of the source. *)
Lemma check_input_is_verdict {R} (call : str) (func : prog R) (inpt : str) :
  check_input call func inpt = verdict call func inpt.
Proof.
  unfold check_input, verdict.
  pose proof (run_in_value func (start inpt)) as Hv. simpl in Hv.
  destruct (run func (start inpt)) as [[retval|e] ss]; cbn [fst snd] in *; [|done].
  destruct (StringIO.tell (in_ ss) =? 0) eqn:Hzero; [done|].
  rewrite final_read_anywhere, Hv. unfold StringIO.tell in *.
  destruct (StringIO.pos (in_ ss) <? length inpt) eqn:Hlt.
  - apply Nat.ltb_lt in Hlt.
    destruct (drop (StringIO.pos (in_ ss)) inpt) as [|c rem] eqn:Hrem.
    + apply (f_equal length) in Hrem. rewrite length_drop in Hrem. simpl in Hrem. lia.
    + rewrite <- Hrem, before_rem_consumed by lia. done.
  - apply Nat.ltb_ge in Hlt. rewrite drop_ge by done. done.
Qed.


(** A function of [Session.prog] runs as its embedding does. *)
Lemma run_embed {R} (p : Session.prog R) : ∀ ss, run (embed p) ss = Session.run p ss.
Proof.
  induction p as [r|e|s k IH|size k IH|size k IH]; intros ss;
    cbn [run embed Session.run].
  - done.
  - done.
  - apply IH.
  - destruct (_read size ss) as [data ss']. apply IH.
  - destruct (_readline size ss) as [data ss']. apply IH.
Qed.

Lemma check_input_embed {R} (call : str) (p : Session.prog R) (inpt : str) :
  check_input call (embed p) inpt = Session.check_input call p inpt.
Proof. unfold check_input, Session.check_input. by rewrite run_embed. Qed.

End StreamsFacts.

Module CaptureFacts.
Import PyStr Utils Session Streams PyStrFacts StringIOFacts SessionFacts StreamsFacts.
Local Open Scope nat_scope.

(** C3, as the code has it.  In every captured I/O session each range's
    recorded length is the length of the data the corresponding wrapped read
    or read-line call returned.  When the function under test only appends
    to the standard output (it gets to no seek and no truncate of it), the
    accumulated ranges are sorted by non-decreasing offset and no two of
    them overlap, each ending before the next begins; so are the ranges the
    input checks hand on. *)
Theorem input_ranges_invariant_when_appending {R} (call : str) (p : prog R) (inpt : str) :
  Forall2 (fun r data => r.2 = length data)
    (inpt_ranges (run p (start inpt)).2) (reads p (start inpt))
  ∧ (only_appends p (start inpt) = true →
     StronglySorted (fun r1 r2 => r1.1 <= r2.1) (inpt_ranges (run p (start inpt)).2)
     ∧ ordered_disjoint (inpt_ranges (run p (start inpt)).2)
     ∧ match check_input call p inpt with
       | Pass (_, _, _, ranges) =>
           ordered_disjoint ranges ∧ StronglySorted (fun r1 r2 => r1.1 <= r2.1) ranges
       | _ => True
       end).
Proof.
  split.
  - destruct (run_range_lengths p (start inpt)) as (new & Heq & Hall). by rewrite Heq.
  - intros Hoa.
    destruct (run_appending p (start inpt) Hoa (appended_start inpt)) as (Happ & _ & _).
    pose proof (appended_ordered _ Happ) as Hord.
    split_and!; [by apply ordered_disjoint_sorted|done|].
    unfold check_input.
    destruct (run p (start inpt)) as [[retval|[|e]] ss]; cbn [fst snd] in *; try done.
    destruct (StringIO.tell (in_ ss) =? 0); [done|].
    destruct (wrapper_step ss (_read None)) as (data & in' & -> & _); [by eauto|].
    destruct data as [|c data]; [|done].
    pose proof (appended_echo ss [] in' Happ) as [_ Hord' _]. cbn [inpt_ranges] in *.
    split; [done|]. by apply ordered_disjoint_sorted.
Qed.

Lemma input_ranges_invariant_when_appending_witness :
  only_appends (embed (read_then_greet tt)) (start (s2l "5" ++ [NL])) = true
  ∧ StronglySorted (fun r1 r2 => r1.1 <= r2.1)
      (inpt_ranges (run (embed (read_then_greet tt)) (start (s2l "5" ++ [NL]))).2)
  ∧ ordered_disjoint
      (inpt_ranges (run (embed (read_then_greet tt)) (start (s2l "5" ++ [NL]))).2)
  ∧ match check_input [] (embed (read_then_greet tt)) (s2l "5" ++ [NL]) with
    | Pass (_, _, _, ranges) =>
        ordered_disjoint ranges ∧ StronglySorted (fun r1 r2 => r1.1 <= r2.1) ranges
    | _ => True
    end.
Proof.
  split; [reflexivity|].
  apply (proj2 (input_ranges_invariant_when_appending [] (embed (read_then_greet tt))
                  (s2l "5" ++ [NL]))).
  reflexivity.
Defined.

(** C3 as stated fails for a function that moves the sink: after
    printing [xxxx] and reading [ab\n], the function empties the standard
    output and reads [cd\n]; the two ranges are (4, 3) and (0, 3), which are
    neither sorted by offset nor disjoint. *)
Lemma input_ranges_unsorted_after_rewind :
  inpt_ranges (run rewinds_the_sink (start (s2l "ab" ++ [NL] ++ s2l "cd" ++ [NL]))).2
  = [(4, 3); (0, 3)]
  ∧ ¬ (StronglySorted (fun r1 r2 => r1.1 <= r2.1)
         (inpt_ranges
            (run rewinds_the_sink (start (s2l "ab" ++ [NL] ++ s2l "cd" ++ [NL]))).2)
       ∧ ordered_disjoint
           (inpt_ranges
              (run rewinds_the_sink (start (s2l "ab" ++ [NL] ++ s2l "cd" ++ [NL]))).2)).
Proof.
  split; [reflexivity|].
  change (inpt_ranges
            (run rewinds_the_sink (start (s2l "ab" ++ [NL] ++ s2l "cd" ++ [NL]))).2)
    with [(4, 3); (0, 3)].
  intros [_ [Hall _]]. apply Forall_cons in Hall as [Hall _]. simpl in Hall. lia.
Qed.



(** X1. When the function under test only appends to the standard output,
    every recorded range holds, in the captured output, exactly the data
    the corresponding wrapped read or read-line call returned. *)
Theorem appended_ranges_hold_the_echo {R} (p : prog R) (inpt : str) :
  only_appends p (start inpt) = true →
  Forall2 (fun r data =>
             slice (StringIO.getvalue (out (run p (start inpt)).2)) r.1 (r.1 + r.2) = data)
    (inpt_ranges (run p (start inpt)).2) (reads p (start inpt)).
Proof.
  intros Hoa.
  destruct (run_appending p (start inpt) Hoa (appended_start inpt))
    as (_ & _ & new & Heq & Hall).
  by rewrite Heq.
Qed.

Lemma appended_ranges_hold_the_echo_witness :
  only_appends (embed (read_then_greet tt)) (start (s2l "5" ++ [NL])) = true
  ∧ Forall2 (fun r data =>
       slice (StringIO.getvalue
                (out (run (embed (read_then_greet tt)) (start (s2l "5" ++ [NL]))).2))
         r.1 (r.1 + r.2) = data)
      (inpt_ranges (run (embed (read_then_greet tt)) (start (s2l "5" ++ [NL]))).2)
      (reads (embed (read_then_greet tt)) (start (s2l "5" ++ [NL]))).
Proof.
  split; [reflexivity|].
  apply (appended_ranges_hold_the_echo (embed (read_then_greet tt)) (s2l "5" ++ [NL])).
  reflexivity.
Defined.

(** With the source read through the wrappers alone, the reads together
    are the part of the source the run went through. *)
Lemma run_wrapped_reads {R} (p : prog R) : ∀ ss,
  reads_by_wrappers p ss = true →
  StringIO.pos (in_ ss) <= StringIO.pos (in_ (run p ss).2)
  ∧ concat (reads p ss)
    = slice (StringIO.value (in_ ss)) (StringIO.pos (in_ ss))
        (StringIO.pos (in_ (run p ss).2)).
Proof.
  assert (Hwrap : ∀ (k : str → prog R) (wrapper : session → str * session) (ss : session),
    (∀ data ss, reads_by_wrappers (k data) ss = true →
       StringIO.pos (in_ ss) <= StringIO.pos (in_ (run (k data) ss).2)
       ∧ concat (reads (k data) ss)
         = slice (StringIO.value (in_ ss)) (StringIO.pos (in_ ss))
             (StringIO.pos (in_ (run (k data) ss).2))) →
    (∃ size, wrapper = _read size) ∨ (∃ size, wrapper = _readline size) →
    reads_by_wrappers (k (wrapper ss).1) (wrapper ss).2 = true →
    StringIO.pos (in_ ss) <= StringIO.pos (in_ (run (k (wrapper ss).1) (wrapper ss).2).2)
    ∧ concat ((wrapper ss).1 :: reads (k (wrapper ss).1) (wrapper ss).2)
      = slice (StringIO.value (in_ ss)) (StringIO.pos (in_ ss))
          (StringIO.pos (in_ (run (k (wrapper ss).1) (wrapper ss).2).2))).
  { intros k wrapper ss IH Hw Hrw.
    destruct (wrapper_step ss wrapper Hw) as (data & in' & Heq & Hv & Hp & Hpre).
    rewrite Heq in *. cbn [fst snd] in *.
    destruct (IH data _ Hrw) as [Hle Hcat]. cbn [in_] in *.
    split; [lia|]. rewrite concat_cons, Hcat, Hv, Hp. unfold slice.
    destruct Hpre as [rest Hrest].
    rewrite <- (drop_drop (StringIO.value (in_ ss))), Hrest, drop_app_length.
    set (final := StringIO.pos (in_ (run (k data) _).2)) in *.
    replace (final - StringIO.pos (in_ ss))
      with (length data + (final - (StringIO.pos (in_ ss) + length data))) by lia.
    by rewrite take_app_add. }
  induction p as [r|e|s k IH|pos k IH|size k IH|size k IH|size k IH|k IH|k IH|pos k IH|k IH];
    intros ss Hrw; cbn [run reads reads_by_wrappers fst snd] in *; try done.
  - split; [done|]. unfold slice. by rewrite Nat.sub_diag.
  - split; [done|]. unfold slice. by rewrite Nat.sub_diag.
  - by apply (IH (with_out ss _)).
  - by apply (IH (with_out ss _)).
  - by apply (IH (with_out ss _)).
  - pose proof (Hwrap k (_read size) ss IH) as H.
    destruct (_read size ss) as [data ss']. apply H; eauto.
  - pose proof (Hwrap k (_readline size) ss IH) as H.
    destruct (_readline size ss) as [data ss']. apply H; eauto.
  - by apply (IH _ _ ss).
Qed.

(** X2. When the function under test reads the standard input through [read]
    and [readline] alone (no iteration, no [readlines()], no seek), what it
    received, put together in call order, is the part of the input it
    consumed, and the whole input when the input checks pass. *)
Theorem wrapped_reads_are_the_consumed_input {R} (call : str) (p : prog R) (inpt : str) :
  reads_by_wrappers p (start inpt) = true →
  concat (reads p (start inpt)) = take (StringIO.tell (in_ (run p (start inpt)).2)) inpt
  ∧ match check_input call p inpt with
    | Pass _ => concat (reads p (start inpt)) = inpt
    | _ => True
    end.
Proof.
  intros Hrw.
  destruct (run_wrapped_reads p (start inpt) Hrw) as [_ Hcat].
  assert (Hfst : concat (reads p (start inpt))
                 = take (StringIO.tell (in_ (run p (start inpt)).2)) inpt).
  { rewrite Hcat. unfold slice. simpl. by rewrite Nat.sub_0_r. }
  split; [done|].
  rewrite check_input_is_verdict. unfold verdict.
  destruct (run p (start inpt)).1 as [retval|[|e]]; try done.
  destruct (_ =? 0); [done|].
  destruct (_ <? _) eqn:Hlt; [done|].
  apply Nat.ltb_ge in Hlt. rewrite Hfst. by apply take_ge.
Qed.

Lemma wrapped_reads_are_the_consumed_input_witness :
  reads_by_wrappers (embed (read_then_greet tt)) (start (s2l "5" ++ [NL])) = true
  ∧ concat (reads (embed (read_then_greet tt)) (start (s2l "5" ++ [NL])))
    = take (StringIO.tell
              (in_ (run (embed (read_then_greet tt)) (start (s2l "5" ++ [NL]))).2))
        (s2l "5" ++ [NL])
  ∧ match check_input [] (embed (read_then_greet tt)) (s2l "5" ++ [NL]) with
    | Pass _ => concat (reads (embed (read_then_greet tt)) (start (s2l "5" ++ [NL])))
                = s2l "5" ++ [NL]
    | _ => True
    end.
Proof.
  split; [reflexivity|].
  apply (wrapped_reads_are_the_consumed_input [] (embed (read_then_greet tt))
           (s2l "5" ++ [NL])).
  reflexivity.
Defined.

(** X3. With an empty input the input checks never pass for a function that
    gets to no seek of the standard input: the position stays 0, so the run
    ends in the end-of-file failure, in the failure for not reading at all,
    or in the function's own exception.  After [sys.stdin.seek(1)] they
    pass. *)
Theorem empty_input_never_passes_without_seek {R} (call : str) (p : prog R) :
  never_seeks_input p (start []) = true →
  match check_input call p [] with
  | Pass _ => False
  | Failure m => m = input_msg call [] ++ EOF_TEXT ∨ m = input_msg call [] ++ NO_INPUT_TEXT
  | Error e => e ≠ EOFError
  end.
Proof.
  intros Hns. rewrite check_input_is_verdict. unfold verdict.
  destruct (run_in_pos p (start []) Hns) as [_ Hpos]; [simpl; lia|].
  simpl in Hpos.
  destruct (run p (start [])).1 as [retval|[|e]]; [|by left|done].
  unfold StringIO.tell.
  replace (StringIO.pos (in_ (run p (start [])).2)) with 0 by lia.
  by right.
Qed.

Lemma empty_input_never_passes_without_seek_witness :
  never_seeks_input (InReadline None (fun data => Return data)) (start []) = true
  ∧ match check_input [] (InReadline None (fun data => Return data)) [] with
    | Pass _ => False
    | Failure m => m = input_msg [] [] ++ EOF_TEXT ∨ m = input_msg [] [] ++ NO_INPUT_TEXT
    | Error e => e ≠ EOFError
    end.
Proof.
  split; [reflexivity|].
  apply (empty_input_never_passes_without_seek [] (InReadline None (fun data => Return data))).
  reflexivity.
Defined.

(** The seek is what the restriction is about. *)
Lemma empty_input_passes_after_seek :
  check_input [] seeks_the_source [] = Pass (input_msg [] [], tt, [], [(0, 0)]).
Proof. reflexivity. Qed.

End CaptureFacts.

Module StreamsAssertFacts.
Import PyStr Utils Session Comparator Streams.
Import PyStrFacts StringIOFacts SessionFacts ModeFacts AssertsFacts StreamsFacts.
Local Open Scope nat_scope.

(** The sink of [run_stdout], when it is only appended to, holds what was
    written, in order. *)
Lemma run_stdout_written {R} (p : prog R) : ∀ (out stdin : StringIO.t),
  appends_to_stdout p out stdin = true →
  StringIO.pos out = length (StringIO.value out) →
  StringIO.getvalue (run_stdout p out stdin).1.2
  = StringIO.value out ++ concat (written p out stdin).
Proof.
  induction p as [r|e|s k IH|pos k IH|size k IH|size k IH|size k IH|k IH|k IH|pos k IH|k IH];
    intros out stdin Happ Hpos; cbn [run_stdout written appends_to_stdout] in *.
  - simpl. by rewrite app_nil_r.
  - simpl. by rewrite app_nil_r.
  - rewrite IH; [|done|by rewrite (write_at_end _ _ Hpos)].
    rewrite (write_at_end _ _ Hpos). simpl. by rewrite <- app_assoc.
  - done.
  - done.
  - destruct (StringIO.read stdin size) as [data stdin']. by apply IH.
  - destruct (StringIO.readline stdin size) as [data stdin']. by apply IH.
  - destruct (next stdin) as [line stdin']. by apply IH.
  - destruct (readlines stdin) as [ls stdin']. by apply IH.
  - by apply IH.
  - by apply IH.
Qed.

Section OutputEqual.
Context (chars : Diff.SequenceMatcher Z) (lines : Diff.SequenceMatcher str).
Context (re_search : str -> str -> bool).

(** X9. For a function that only appends to the standard output (no seek and
    no truncate of it), [assertOutputEqual] in strict mode returns the
    function's return value exactly when the function returns and everything
    it wrote, put together in order, is the expected text: the newline that
    ends the last printed line has to be in the expected text too.  An
    exception of the function passes through, and only that ends in an
    error. *)
Theorem assertOutputEqual_strict_when_appending {R} (call expected : str) (func : prog R)
    (stdin : StringIO.t) :
  appends_to_stdout func (StringIO.open []) stdin = true →
  (∀ retval : R,
     assertOutputEqual chars lines re_search call expected func stdin "strict" true false
     = Pass retval
     ↔ (run_stdout func (StringIO.open []) stdin).1.1 = Returned retval
       ∧ concat (written func (StringIO.open []) stdin) = expected)
  ∧ (∀ e : exn,
       assertOutputEqual chars lines re_search call expected func stdin "strict" true false
       = Error e
       ↔ (run_stdout func (StringIO.open []) stdin).1.1 = Raised e).
Proof.
  intros Happ. unfold assertOutputEqual.
  pose proof (run_stdout_written func (StringIO.open []) stdin Happ eq_refl) as Hw.
  destruct (run_stdout func (StringIO.open []) stdin) as [[[r|e] out] stdin'];
    cbn [fst snd] in *.
  - simpl in Hw. rewrite Hw. unfold check_output. rewrite strict_mismatch.
    case_bool_decide as Heq; simpl.
    + split.
      * intros retval. split; [by intros [= ->]|by intros [[= ->] _]].
      * intros e. split; done.
    + split.
      * intros retval. split; [done|]. by intros [_ ?].
      * intros e. split; done.
  - split.
    + intros retval. split; [done|]. by intros [? _].
    + intros e'. split; by intros [= ->].
Qed.

End OutputEqual.

(** A function that prints a line and returns. *)
Lemma assertOutputEqual_strict_when_appending_witness :
  appends_to_stdout (OutWrite (s2l "hi" ++ [NL]) (Return tt)) (StringIO.open [])
    (StringIO.open []) = true
  ∧ (∀ retval : unit,
       assertOutputEqual Diff.whole_matcher Diff.whole_matcher (fun _ _ => true) []
         (s2l "hi" ++ [NL]) (OutWrite (s2l "hi" ++ [NL]) (Return tt)) (StringIO.open [])
         "strict" true false = Pass retval
       ↔ (run_stdout (OutWrite (s2l "hi" ++ [NL]) (Return tt)) (StringIO.open [])
            (StringIO.open [])).1.1 = Returned retval
         ∧ concat (written (OutWrite (s2l "hi" ++ [NL]) (Return tt)) (StringIO.open [])
                     (StringIO.open [])) = s2l "hi" ++ [NL])
  ∧ (∀ e : exn,
       assertOutputEqual Diff.whole_matcher Diff.whole_matcher (fun _ _ => true) []
         (s2l "hi" ++ [NL]) (OutWrite (s2l "hi" ++ [NL]) (Return tt)) (StringIO.open [])
         "strict" true false = Error e
       ↔ (run_stdout (OutWrite (s2l "hi" ++ [NL]) (Return tt)) (StringIO.open [])
            (StringIO.open [])).1.1 = Raised e).
Proof.
  split; [reflexivity|].
  apply (assertOutputEqual_strict_when_appending Diff.whole_matcher Diff.whole_matcher
           (fun _ _ => true) [] (s2l "hi" ++ [NL]) (OutWrite (s2l "hi" ++ [NL]) (Return tt))
           (StringIO.open [])).
  reflexivity.
Defined.

Section EqualUsingUserInputFacts.
Context {value : Type}.
Context (py_repr : value -> str) (as_str : value -> option str).
Context (py_ne : value -> value -> bool).

(** X11. [assertEqualUsingUserInput] passes exactly when the function returns,
    [sys.stdin] then stands at a position that is not 0 and not before the
    end of the input, the return value is not unequal to the expected one
    and, unless [_must_output_args] is off, every positional or keyword
    argument that is a string occurs in the captured output without its
    trailing whitespace.  For a function that gets to no seek of
    [sys.stdin] the condition on the position says that the input is not
    empty and was consumed to its end. *)
Theorem assertEqualUsingUserInput_passes_by_position (module qualname inpt : str)
    (expected : value) (func : prog value) (args : list value) (kwargs : list (str * value))
    (_must_output_args : bool) :
  (assertEqualUsingUserInput py_repr as_str py_ne module qualname inpt expected func
     args kwargs _must_output_args = Pass tt
   ↔ ∃ retval ss,
       run func (start inpt) = (Returned retval, ss)
       ∧ StringIO.tell (in_ ss) ≠ 0
       ∧ length inpt <= StringIO.tell (in_ ss)
       ∧ py_ne retval expected = false
       ∧ (_must_output_args = true →
          ∀ arg s, arg ∈ args ++ map snd kwargs → as_str arg = Some s →
            ∃ pre post, rstrip (StringIO.getvalue (out ss)) = pre ++ s ++ post))
  ∧ (never_seeks_input func (start inpt) = true →
     (StringIO.tell (in_ (run func (start inpt)).2) ≠ 0
      ∧ length inpt <= StringIO.tell (in_ (run func (start inpt)).2))
     ↔ (0 < length inpt
        ∧ StringIO.tell (in_ (run func (start inpt)).2) = length inpt)).
Proof.
  split.
  - unfold assertEqualUsingUserInput.
    rewrite check_input_is_verdict. unfold verdict.
    destruct (run func (start inpt)) as [[retval|e] ss] eqn:Hrun; cbn [fst snd] in *.
    + unfold StringIO.tell in *.
      destruct (StringIO.pos (in_ ss) =? 0) eqn:Hzero.
      { split; [done|]. intros (r & ss' & [= <- <-] & Hnz & _).
        apply Nat.eqb_eq in Hzero. lia. }
      apply Nat.eqb_neq in Hzero.
      destruct (StringIO.pos (in_ ss) <? length inpt) eqn:Hlt.
      { split; [done|]. intros (r & ss' & [= <- <-] & _ & Hle & _).
        apply Nat.ltb_lt in Hlt. lia. }
      apply Nat.ltb_ge in Hlt.
      destruct (py_ne retval expected) eqn:Hne.
      { split; [done|]. intros (r & ss' & [= <- <-] & _ & _ & Hne' & _). congruence. }
      destruct _must_output_args.
      * pose proof (check_args_none_iff as_str
                      (input_msg (Asserts.call_to_str py_repr module qualname args kwargs) inpt)
                      (rstrip (StringIO.getvalue (out ss))) (args ++ map snd kwargs)) as Hargs.
        destruct (Asserts.check_args _ _ _ _) as [m|].
        -- split; [done|]. intros (r & ss' & [= <- <-] & _ & _ & _ & Hall).
           destruct Hargs as [_ Hargs]. by specialize (Hargs (Hall eq_refl)).
        -- split; [|done]. intros _. exists retval, ss. split_and!; try done.
           intros _. by apply Hargs.
      * split; [|done]. intros _. exists retval, ss. by split_and!.
    + split; [by destruct e|]. by intros (r & ss' & [=] & _).
  - intros Hns.
    destruct (run_in_pos func (start inpt) Hns) as [_ Hpos]; [simpl; lia|].
    simpl in Hpos. unfold StringIO.tell. lia.
Qed.

End EqualUsingUserInputFacts.

(** A function that reads the one line of the input and returns it. *)
Lemma assertEqualUsingUserInput_passes_by_position_witness :
  never_seeks_input (InReadline None (fun data => Return data)) (start (s2l "5" ++ [NL]))
  = true
  ∧ ((StringIO.tell (in_ (run (InReadline None (fun data => Return data))
                            (start (s2l "5" ++ [NL]))).2) ≠ 0
      ∧ length (s2l "5" ++ [NL])
        <= StringIO.tell (in_ (run (InReadline None (fun data => Return data))
                                 (start (s2l "5" ++ [NL]))).2))
     ↔ (0 < length (s2l "5" ++ [NL])
        ∧ StringIO.tell (in_ (run (InReadline None (fun data => Return data))
                                (start (s2l "5" ++ [NL]))).2)
          = length (s2l "5" ++ [NL]))).
Proof.
  split; [reflexivity|].
  apply (proj2 (assertEqualUsingUserInput_passes_by_position (fun s : str => s) Some
                  (fun a b => negb (bool_decide (a = b))) [] (s2l "f") (s2l "5" ++ [NL])
                  (s2l "5" ++ [NL]) (InReadline None (fun data => Return data)) [] [] true)).
  reflexivity.
Defined.

End StreamsAssertFacts.

Module GuardedFacts.
Import PyStr Session Guarded.
Local Open Scope nat_scope.

(** A write, wherever the stream stands, never makes the text shorter, and
    a write of a non-empty text leaves a non-empty text. *)
Lemma write_length (f : StringIO.t) (s : str) :
  length (StringIO.value f) <= length (StringIO.value (StringIO.write f s))
  ∧ (s ≠ [] → 0 < length (StringIO.value (StringIO.write f s))).
Proof.
  destruct s as [|c s]; [done|]. unfold StringIO.write.
  cbn [StringIO.value]. rewrite !length_app, length_take, length_app, repeat_length, length_drop.
  cbn [length]. lia.
Qed.

(** Without a truncate the text of [sys.stdout] never gets shorter. *)
Lemma exec_output_grows {R} (bi : Guards.builtins) (b : body R) :
  ∀ (stdout stdin : StringIO.t),
  never_truncates bi b stdout stdin = true →
  length (StringIO.value stdout) <= length (StringIO.value (exec bi b stdout stdin).1.2).
Proof.
  induction b as [r|e|m|text k IH|s k IH|pos k IH|size k IH|prompt k IH|size k IH|size k IH
                  |k IH|k IH|pos k IH|k IH];
    intros stdout stdin Hnt; cbn [exec never_truncates] in *.
  - done.
  - done.
  - done.
  - destruct (Guards.print_raises bi) as [msg|]; [by apply IH|].
    etrans; [apply (write_length stdout text)|by apply IH].
  - etrans; [apply (write_length stdout s)|by apply IH].
  - by apply (IH (Streams.seek stdout pos)).
  - done.
  - destruct (Guards.input_raises bi) as [msg|]; [by apply IH|].
    destruct (StringIO.readline stdin None) as [[|c data] stdin'];
      (etrans; [apply (write_length stdout prompt)|by apply IH]).
  - destruct (StringIO.read stdin size) as [data stdin']. by apply IH.
  - destruct (StringIO.readline stdin size) as [data stdin']. by apply IH.
  - destruct (Streams.next stdin) as [line stdin']. by apply IH.
  - destruct (Streams.readlines stdin) as [ls stdin']. by apply IH.
  - by apply IH.
  - by apply IH.
Qed.

(** A run that writes a non-empty text and never truncates ends with a
    non-empty text in [sys.stdout]. *)
Lemma exec_output_written {R} (bi : Guards.builtins) (b : body R) :
  ∀ (stdout stdin : StringIO.t),
  writes_text bi b stdout stdin = true →
  never_truncates bi b stdout stdin = true →
  0 < length (StringIO.value (exec bi b stdout stdin).1.2).
Proof.
  assert (Hstay : ∀ (k : body R) (stdout stdin : StringIO.t) (s : str),
            s ≠ [] → never_truncates bi k (StringIO.write stdout s) stdin = true →
            0 < length (StringIO.value (exec bi k (StringIO.write stdout s) stdin).1.2)).
  { intros k stdout stdin s Hs Hnt.
    pose proof (proj2 (write_length stdout s) Hs).
    pose proof (exec_output_grows bi k _ _ Hnt). lia. }
  induction b as [r|e|m|text k IH|s k IH|pos k IH|size k IH|prompt k IH|size k IH|size k IH
                  |k IH|k IH|pos k IH|k IH];
    intros stdout stdin Hw Hnt; cbn [exec writes_text never_truncates] in *.
  - done.
  - done.
  - done.
  - destruct (Guards.print_raises bi) as [msg|]; [by apply IH|].
    case_bool_decide as Htext; cbn [negb orb] in Hw; [by apply IH|by apply Hstay].
  - case_bool_decide as Hs; cbn [negb orb] in Hw; [by apply IH|by apply Hstay].
  - by apply (IH (Streams.seek stdout pos)).
  - done.
  - destruct (Guards.input_raises bi) as [msg|]; [by apply IH|].
    case_bool_decide as Hprompt; cbn [negb orb] in Hw.
    + destruct (StringIO.readline stdin None) as [[|c data] stdin']; by apply IH.
    + destruct (StringIO.readline stdin None) as [[|c data] stdin']; by apply Hstay.
  - destruct (StringIO.read stdin size) as [data stdin']. by apply IH.
  - destruct (StringIO.readline stdin size) as [data stdin']. by apply IH.
  - destruct (Streams.next stdin) as [line stdin']. by apply IH.
  - destruct (Streams.readlines stdin) as [ls stdin']. by apply IH.
  - by apply IH.
  - by apply IH.
Qed.

(** The run of a body of [Guards.body] is the run of its embedding. *)
Lemma exec_embed {R} (bi : Guards.builtins) (b : Guards.body R) :
  ∀ (stdout stdin : StringIO.t),
  exec bi (embed b) stdout stdin = Guards.exec bi b stdout stdin.
Proof.
  induction b as [r|e|text k IH|s k IH|prompt k IH|size k IH|size k IH];
    intros stdout stdin; cbn [exec embed Guards.exec].
  - done.
  - done.
  - destruct (Guards.print_raises bi) as [msg|]; [done|apply IH].
  - apply IH.
  - destruct (Guards.input_raises bi) as [msg|]; [done|].
    destruct (StringIO.readline stdin None) as [[|c data] stdin']; [done|apply IH].
  - destruct (StringIO.read stdin size) as [data stdin']. apply IH.
  - destruct (StringIO.readline stdin size) as [data stdin']. apply IH.
Qed.

(** The guard on a body of [Guards.body] is the guard on its embedding. *)
Lemma assertNoPrint_embed {R} (print_func_okay : bool) (msg : str) (b : Guards.body R)
    (stdin : StringIO.t) :
  assertNoPrint print_func_okay msg (embed b) stdin
  = Guards.assertNoPrint print_func_okay msg b stdin.
Proof. unfold assertNoPrint, Guards.assertNoPrint. by rewrite exec_embed. Qed.

(** X14. Under [assertNoPrint], a body that writes a non-empty text to
    [sys.stdout] (by [write], through an allowed [print], or as the prompt
    of [input]) and gets to no truncate of [sys.stdout] ends in the failure
    with the guard's message, however the body itself ends: with a return
    value, with an exception of its own, which is lost, or after handling
    the failures of the calls it made. *)
Theorem assertNoPrint_fails_when_text_is_written {R} (print_func_okay : bool) (msg : str)
    (b : body R) (stdin : StringIO.t) :
  writes_text (Guards.Builtins (if print_func_okay then None else Some msg) None) b
    (StringIO.open []) stdin = true →
  never_truncates (Guards.Builtins (if print_func_okay then None else Some msg) None) b
    (StringIO.open []) stdin = true →
  assertNoPrint print_func_okay msg b stdin = Failure msg.
Proof.
  intros Hw Hnt. unfold assertNoPrint.
  pose proof (exec_output_written _ b _ _ Hw Hnt) as Hlen.
  destruct (exec _ b (StringIO.open []) stdin) as [[r output] stdin'].
  cbn [fst snd] in Hlen. unfold StringIO.getvalue.
  destruct (StringIO.value output) as [|c v]; [simpl in Hlen; lia|done].
Qed.

Lemma assertNoPrint_fails_when_text_is_written_witness :
  writes_text (Guards.Builtins (if false then None else Some (s2l "no print")) None)
    write_seek_raise (StringIO.open []) (StringIO.open []) = true
  ∧ never_truncates (Guards.Builtins (if false then None else Some (s2l "no print")) None)
      write_seek_raise (StringIO.open []) (StringIO.open []) = true
  ∧ assertNoPrint false (s2l "no print") write_seek_raise (StringIO.open [])
    = Failure (s2l "no print").
Proof.
  split; [reflexivity|]. split; [reflexivity|].
  apply (assertNoPrint_fails_when_text_is_written false (s2l "no print") write_seek_raise
           (StringIO.open [])); reflexivity.
Defined.

(** The guard does not stop a body that handles the failure of the
    replaced [print], nor one that truncates what it wrote. *)
Lemma assertNoPrint_lets_handled_print_pass :
  assertNoPrint false (s2l "no print") print_in_try (StringIO.open []) = Pass tt
  ∧ assertNoPrint true (s2l "no print") write_then_truncate (StringIO.open []) = Pass tt.
Proof. split; reflexivity. Qed.

End GuardedFacts.
